(** * block_bot: the blockchain scanner, embedded and verified

    This development embeds [src/blockchain_scanner.py] (class
    [BlockchainScanner]) as Rocq functions and settles the claims of the
    specification about it.

    Layout: Python values and the JSON codec, the file system, the external
    services, then the methods of the class in source order, and finally the
    theorems. *)

From Stdlib Require Import ZArith Ascii String.
From Stdlib Require Import DecimalString DecimalPos DecimalN DecimalZ.
From Stdlib Require Import SpecFloat.
From stdpp Require Import gmap strings list fin_maps sorting.

Set Warnings "-register-all".

Open Scope Z_scope.

(** ** Python strings *)

Module PyStr.

Definition code (a : ascii) : Z := Z.of_N (N_of_ascii a).

Definition is_digit (a : ascii) : bool := (48 <=? code a) && (code a <=? 57).

(** White space as [int()] sees it in an ASCII string: tab, line feed,
    vertical tab, form feed, carriage return and the blank. *)
Definition is_space (a : ascii) : bool :=
  ((9 <=? code a) && (code a <=? 13)) || (code a =? 32).

(** [s.split(c)] for a one-character separator: never the empty list. *)
Fixpoint split (c : ascii) (s : string) : list string :=
  match s with
  | EmptyString => [EmptyString]
  | String a s' =>
      if Ascii.eqb a c then EmptyString :: split c s'
      else match split c s' with
           | [] => [String a EmptyString]
           | p :: ps => String a p :: ps
           end
  end.

(** [s.startswith(p)]. *)
Fixpoint startswith (p s : string) : bool :=
  match p, s with
  | EmptyString, _ => true
  | String a p', String b s' => Ascii.eqb a b && startswith p' s'
  | String _ _, EmptyString => false
  end.

(** Whether every character of [s] satisfies [p]. *)
Fixpoint all_chars (p : ascii → bool) (s : string) : bool :=
  match s with
  | EmptyString => true
  | String a s' => p a && all_chars p s'
  end.

(** The decimal digits of a natural number, as [str] writes them. *)
Definition of_N (n : N) : string := NilZero.string_of_uint (N.to_uint n).

(** [s.endswith(p)]: some tail of [s] is [p]. *)
Fixpoint endswith (p s : string) : bool :=
  String.eqb s p ||
  match s with
  | EmptyString => false
  | String _ s' => endswith p s'
  end.

(** [needle in hay] on two strings. *)
Fixpoint contains (needle hay : string) : bool :=
  startswith needle hay ||
  match hay with
  | EmptyString => false
  | String _ hay' => contains needle hay'
  end.

Fixpoint has_char (c : ascii) (s : string) : bool :=
  match s with
  | EmptyString => false
  | String a s' => Ascii.eqb a c || has_char c s'
  end.

Fixpoint lstrip (s : string) : string :=
  match s with
  | String a s' => if is_space a then lstrip s' else s
  | EmptyString => EmptyString
  end.

Fixpoint rstrip (s : string) : string :=
  match s with
  | EmptyString => EmptyString
  | String a s' =>
      match rstrip s' with
      | EmptyString => if is_space a then EmptyString else String a EmptyString
      | r => String a r
      end
  end.

Definition strip (s : string) : string := rstrip (lstrip s).

(** The characters of a string, each as a one-character string: what a
    [for] loop over a [str] yields. *)
Fixpoint chars (s : string) : list string :=
  match s with
  | EmptyString => []
  | String a s' => String a EmptyString :: chars s'
  end.

(** [str(n)] for an [int]. *)
Definition of_int (z : Z) : string := NilZero.string_of_int (Z.to_int z).

(** The characters [str(n)] is made of. *)
Definition is_int_char (a : ascii) : bool := is_digit a || Ascii.eqb a "-".

(** The digits of an [int()] argument after the sign: groups of digits
    separated by single underscores.  The result is the digits alone. *)
Fixpoint int_digits (after_digit : bool) (s : string) : option string :=
  match s with
  | EmptyString => if after_digit then Some EmptyString else None
  | String a s' =>
      if is_digit a then String a <$> int_digits true s'
      else if Ascii.eqb a "_" then
             if after_digit then int_digits false s' else None
           else None
  end.

Definition nat_of_digits (s : string) : option Z :=
  d ← int_digits false s;
  u ← NilEmpty.uint_of_string d;
  Some (Z.of_N (N.of_uint u)).

(** [int(s)] in base ten, for a string of ASCII characters; [None] is
    [ValueError].  In a string that is not ASCII [int] also reads the
    decimal digits and the white space of other scripts, which this
    function refuses: the statements that depend on the index read off a
    name are made for names in ASCII ([Props.ascii_names]). *)
Definition to_int (s : string) : option Z :=
  match strip s with
  | String a r =>
      if Ascii.eqb a "-" then Z.opp <$> nat_of_digits r
      else if Ascii.eqb a "+" then nat_of_digits r
      else nat_of_digits (String a r)
  | EmptyString => None
  end.

(** [len(f.readlines())] of a file opened in text mode: universal
    newlines, so a line ends at LF, CR or CR LF, and a last line without
    terminator still counts. *)
Fixpoint count_lines (pending after_cr : bool) (s : string) : nat :=
  match s with
  | EmptyString => if pending then 1%nat else 0%nat
  | String a s' =>
      if Ascii.eqb a "010" then
        if after_cr then count_lines false false s'
        else S (count_lines false false s')
      else if Ascii.eqb a "013" then S (count_lines false true s')
      else count_lines true false s'
  end.

Definition readlines_len (s : string) : Z := Z.of_nat (count_lines false false s).

End PyStr.

(** ** Python values *)

Module Py.

(** The exceptions the scanner can meet while it walks a decoded payload. *)
Inductive exn : Set :=
| TypeError | AttributeError | KeyError | IndexError | OverflowError
| UnicodeError.

Inductive res (A : Type) : Type :=
| Ok (a : A)
| Raise (e : exn).
Arguments Ok {A} a.
Arguments Raise {A} e.

Definition bind {A B} (m : res A) (k : A → res B) : res B :=
  match m with
  | Ok a => k a
  | Raise e => Raise e
  end.

(** A [float] that came out of a JSON text, kept as the literal that
    denotes it: sign, integer part, fraction digits ([Nil] when the
    literal has no fraction) and decimal exponent; or one of the three
    constants [NaN], [Infinity], [-Infinity] that CPython's codec reads
    and writes.  Its numeric value is [float_value] below. *)
Inductive float_lit : Set :=
| FloatLit (neg : bool) (int : N) (frac : Decimal.uint) (exp : Z)
| FloatInf (neg : bool)
| FloatNaN.

(** A Python [float]: an IEEE 754 binary64 number. *)
Definition pyfloat : Set := spec_float.
Definition prec : Z := 53.
Definition emax : Z := 1024.

Fixpoint uint_length (d : Decimal.uint) : nat :=
  match d with
  | Decimal.Nil => 0%nat
  | Decimal.D0 d | Decimal.D1 d | Decimal.D2 d | Decimal.D3 d | Decimal.D4 d
  | Decimal.D5 d | Decimal.D6 d | Decimal.D7 d | Decimal.D8 d | Decimal.D9 d =>
      S (uint_length d)
  end.

(** The correctly rounded quotient of two positive integers, the way
    CPython computes [int / int] and converts a decimal literal. *)
Definition round_quotient (neg : bool) (num den : positive) : pyfloat :=
  SFdiv prec emax (S754_finite neg num 0) (S754_finite false den 0).

Definition float_of_int (z : Z) : pyfloat := binary_normalize prec emax z 0 false.

Definition float_value (x : float_lit) : pyfloat :=
  match x with
  | FloatNaN => S754_nan
  | FloatInf neg => S754_infinity neg
  | FloatLit neg int frac exp =>
      let k := Z.of_nat (uint_length frac) in
      let digits := Z.of_N int * 10 ^ k + Z.of_N (N.of_uint frac) in
      let e10 := exp - k in
      match digits with
      | Zpos m =>
          if 0 <=? e10 then
            float_of_int (if neg then - (Zpos m * 10 ^ e10) else Zpos m * 10 ^ e10)
          else round_quotient neg m (Z.to_pos (10 ^ (- e10)))
      | _ => S754_zero neg
      end
  end.

Definition float_lit_eqb (x y : float_lit) : bool :=
  match x, y with
  | FloatLit n1 i1 f1 e1, FloatLit n2 i2 f2 e2 =>
      Bool.eqb n1 n2 && (i1 =? i2)%N && Decimal.uint_beq f1 f2 && (e1 =? e2)
  | FloatInf n1, FloatInf n2 => Bool.eqb n1 n2
  | FloatNaN, FloatNaN => true
  | _, _ => false
  end.

(** Values a [set] or a [dict] key can hold; all that JSON decoding can
    produce apart from lists and dicts. *)
Inductive scalar : Set :=
| SNull
| SBool (b : bool)
| SInt (z : Z)
| SFloat (x : float_lit)
| SStr (s : string).

(** A decoded JSON document.  A [dict] keeps its keys in insertion order. *)
Inductive json : Set :=
| JNull
| JBool (b : bool)
| JInt (z : Z)
| JFloat (x : float_lit)
| JStr (s : string)
| JArr (l : list json)
| JObj (kvs : list (string * json)).

#[global] Instance decimal_uint_eq_dec : EqDecision Decimal.uint.
Proof. solve_decision. Defined.

#[global] Instance float_lit_eq_dec : EqDecision float_lit.
Proof. solve_decision. Defined.

#[global] Instance scalar_eq_dec : EqDecision scalar.
Proof. solve_decision. Defined.

Definition of_scalar (x : scalar) : json :=
  match x with
  | SNull => JNull
  | SBool b => JBool b
  | SInt z => JInt z
  | SFloat f => JFloat f
  | SStr s => JStr s
  end.

(** [hash(v)] succeeds on everything but lists and dicts. *)
Definition to_scalar (v : json) : res scalar :=
  match v with
  | JNull => Ok SNull
  | JBool b => Ok (SBool b)
  | JInt z => Ok (SInt z)
  | JFloat f => Ok (SFloat f)
  | JStr s => Ok (SStr s)
  | JArr _ | JObj _ => Raise TypeError
  end.

(** Whether the float [f] is exactly the integer [z]. *)
Definition float_eq_int (f : pyfloat) (z : Z) : bool :=
  match f with
  | S754_zero _ => z =? 0
  | S754_finite s m e =>
      let v := if s then Zneg m else Zpos m in
      if 0 <=? e then z =? v * 2 ^ e else z * 2 ^ (- e) =? v
  | _ => false
  end.

Definition int_of_bool (b : bool) : Z := if b then 1 else 0.

(** [x is y or x == y] on hashable values, the test a [set] and [in]
    apply: numbers compare by value across [bool], [int] and [float]; a
    string equals only a string, [None] only [None].  Two floats decoded
    from the same literal stand for the same object. *)
Definition scalar_eqb (x y : scalar) : bool :=
  match x, y with
  | SNull, SNull => true
  | SStr s, SStr t => String.eqb s t
  | SBool a, SBool b => Bool.eqb a b
  | SBool a, SInt z | SInt z, SBool a => z =? int_of_bool a
  | SInt a, SInt b => a =? b
  | SFloat f, SFloat g =>
      float_lit_eqb f g || SFeqb (float_value f) (float_value g)
  | SFloat f, SInt z | SInt z, SFloat f => float_eq_int (float_value f) z
  | SFloat f, SBool b | SBool b, SFloat f => float_eq_int (float_value f) (int_of_bool b)
  | _, _ => false
  end.

Definition eqb_json (x : scalar) (v : json) : bool :=
  match to_scalar v with
  | Ok y => scalar_eqb x y
  | Raise _ => false
  end.

(** [bool(v)]. *)
Definition truthy (v : json) : bool :=
  match v with
  | JNull => false
  | JBool b => b
  | JInt z => negb (z =? 0)
  | JFloat f => match float_value f with S754_zero _ => false | _ => true end
  | JStr s => negb (String.eqb s EmptyString)
  | JArr l => match l with [] => false | _ => true end
  | JObj kvs => match kvs with [] => false | _ => true end
  end.

Fixpoint assoc (k : string) (kvs : list (string * json)) : option json :=
  match kvs with
  | [] => None
  | (k', v) :: rest => if String.eqb k k' then Some v else assoc k rest
  end.

(** [d[k] = v] on a dict: an existing key keeps its place. *)
Fixpoint dict_set (k : string) (v : json) (kvs : list (string * json))
  : list (string * json) :=
  match kvs with
  | [] => [(k, v)]
  | (k', v') :: rest =>
      if String.eqb k k' then (k', v) :: rest else (k', v') :: dict_set k v rest
  end.

(** [x in c]. *)
Definition contains (x : scalar) (c : json) : res bool :=
  match c with
  | JObj kvs =>
      match x with
      | SStr s => Ok (match assoc s kvs with Some _ => true | None => false end)
      | _ => Ok false
      end
  | JArr l => Ok (existsb (eqb_json x) l)
  | JStr hay =>
      match x with
      | SStr needle => Ok (PyStr.contains needle hay)
      | _ => Raise TypeError
      end
  | _ => Raise TypeError
  end.

(** A list or string position: negative indices count from the end. *)
Definition index_of (i len : Z) : option nat :=
  let j := if i <? 0 then i + len else i in
  if (0 <=? j) && (j <? len) then Some (Z.to_nat j) else None.

Definition as_index (k : scalar) : option Z :=
  match k with
  | SInt z => Some z
  | SBool b => Some (int_of_bool b)
  | _ => None
  end.

(** [c[k]]. *)
Definition getitem (c : json) (k : scalar) : res json :=
  match c with
  | JObj kvs =>
      match k with
      | SStr s => match assoc s kvs with Some v => Ok v | None => Raise KeyError end
      | _ => Raise KeyError
      end
  | JArr l =>
      match as_index k with
      | Some i =>
          match index_of i (Z.of_nat (length l)) with
          | Some n => match l !! n with Some v => Ok v | None => Raise IndexError end
          | None => Raise IndexError
          end
      | None => Raise TypeError
      end
  | JStr s =>
      match as_index k with
      | Some i =>
          match index_of i (Z.of_nat (String.length s)) with
          | Some n =>
              match String.get n s with
              | Some a => Ok (JStr (String a EmptyString))
              | None => Raise IndexError
              end
          | None => Raise IndexError
          end
      | None => Raise TypeError
      end
  | _ => Raise TypeError
  end.

(** [c[:3]].  A dict refuses a slice (with [TypeError] up to CPython 3.11,
    [KeyError] from 3.12 on; the scanner catches both alike). *)
Definition slice3 (c : json) : res json :=
  match c with
  | JArr l => Ok (JArr (take 3 l))
  | JStr s => Ok (JStr (String.substring 0 3 s))
  | _ => Raise TypeError
  end.

(** What [for x in c] yields. *)
Definition iter (c : json) : res (list json) :=
  match c with
  | JArr l => Ok l
  | JObj kvs => Ok (map (λ kv, JStr (fst kv)) kvs)
  | JStr s => Ok (map JStr (PyStr.chars s))
  | _ => Raise TypeError
  end.

(** [c.get(k, default)]: only a dict has the method. *)
Definition get (c : json) (k : string) (default : json) : res json :=
  match c with
  | JObj kvs => Ok (match assoc k kvs with Some v => v | None => default end)
  | _ => Raise AttributeError
  end.

(** The text of a float: [repr] for a finite literal, with the exponent
    written as CPython writes it (a sign and at least two digits). *)
Definition exp_text (e : Z) : string :=
  let d := NilZero.string_of_uint (N.to_uint (Z.abs_N e)) in
  (if e <? 0 then "-" else "+") +:+
  (if (String.length d <? 2)%nat then "0" +:+ d else d).

Definition lit_text (neg : bool) (int : N) (frac : Decimal.uint) (exp : Z) : string :=
  (if neg then "-" else EmptyString) +:+
  NilZero.string_of_uint (N.to_uint int) +:+
  match frac with
  | Decimal.Nil => "e" +:+ exp_text exp
  | _ =>
      "." +:+ NilEmpty.string_of_uint frac +:+
      (if exp =? 0 then EmptyString else "e" +:+ exp_text exp)
  end.

Definition float_repr (x : float_lit) : string :=
  match x with
  | FloatLit neg int frac exp => lit_text neg int frac exp
  | FloatInf neg => if neg then "-inf" else "inf"
  | FloatNaN => "nan"
  end.

(** [str(x)], as an f-string interpolates it.  A decoded float is written
    as the literal it was read from; CPython writes the shortest literal
    of the same value, which is this one only when the payload carried
    the number in that form.  The statements that fix the text of a log
    line or of a request are made for values that are not floats
    ([Props.not_float]). *)
Definition str (x : scalar) : string :=
  match x with
  | SNull => "None"
  | SBool b => if b then "True" else "False"
  | SInt z => PyStr.of_int z
  | SFloat f => float_repr f
  | SStr s => s
  end.

(** [a / b] on two [int]s with [b] positive: the correctly rounded
    quotient, or [OverflowError] beyond the range of a float. *)
Definition int_truediv (a : Z) (b : positive) : res pyfloat :=
  match a with
  | Z0 => Ok (S754_zero false)
  | Zpos m | Zneg m =>
      match round_quotient (a <? 0) m b with
      | S754_infinity _ => Raise OverflowError
      | q => Ok q
      end
  end.

(** [v / b] for a decoded value [v] and a positive [int] [b]. *)
Definition truediv (v : json) (b : positive) : res pyfloat :=
  match v with
  | JInt z => int_truediv z b
  | JBool c => int_truediv (int_of_bool c) b
  | JFloat f => Ok (SFdiv prec emax (float_value f) (float_of_int (Zpos b)))
  | _ => Raise TypeError
  end.

(** [x > 0] on a float. *)
Definition float_pos (x : pyfloat) : bool := SFltb (S754_zero false) x.

(** Exactly [k] decimal digits of [n], most significant first. *)
Fixpoint fixed_digits (k : nat) (n : Z) : string :=
  match k with
  | O => EmptyString
  | S k' =>
      fixed_digits k' (n / 10) +:+
      String (ascii_of_N (Z.to_N (48 + n mod 10))) EmptyString
  end.

(** The magnitude of [m * 2^e] in units of [10^-8], rounded to the
    nearest integer, ties to even. *)
Definition round_fixed8 (m : positive) (e : Z) : Z :=
  let num := Zpos m * 10 ^ 8 in
  if 0 <=? e then num * 2 ^ e
  else
    let den := 2 ^ (- e) in
    let q := num / den in
    let r := num mod den in
    match 2 * r ?= den with
    | Lt => q
    | Gt => q + 1
    | Eq => if Z.even q then q else q + 1
    end.

(** [f"{x:.8f}"]. *)
Definition format_8f (x : pyfloat) : string :=
  match x with
  | S754_nan => "nan"
  | S754_infinity s => if s then "-inf" else "inf"
  | S754_zero s => (if s then "-" else EmptyString) +:+ "0.00000000"
  | S754_finite s m e =>
      let r := round_fixed8 m e in
      (if s then "-" else EmptyString) +:+ PyStr.of_int (r / 10 ^ 8) +:+ "." +:+
      fixed_digits 8 (r mod 10 ^ 8)
  end.

End Py.

(** ** The JSON codec ([json.dump], [json.load])

    The codec of the standard library, written out: a scanner over the
    characters, a parser over the tokens, and the printer with its default
    separators.  A string is its UTF-8 bytes.  Two corners are left as they
    fall: an escape of four hex digits is encoded on its own, so the two
    halves of a surrogate pair are not joined, and an integer may have any
    number of digits. *)

Module Json.
Import Py.

Inductive token : Set :=
| TLBrace | TRBrace | TLBrack | TRBrack | TColon | TComma
| TVal (v : json).

Definition chr (n : Z) : ascii := ascii_of_N (Z.to_N n).

Definition dquote : ascii := Eval cbv in chr 34.
Definition backslash : ascii := Eval cbv in chr 92.

Definition snoc (s : string) (a : ascii) : string := s +:+ String a EmptyString.

Definition is_ws (a : ascii) : bool :=
  let c := PyStr.code a in (c =? 32) || (c =? 9) || (c =? 10) || (c =? 13).

(** The characters of numbers and of the bare words [null], [true],
    [false], [NaN], [Infinity]. *)
Definition is_word_char (a : ascii) : bool :=
  let c := PyStr.code a in
  PyStr.is_digit a || ((65 <=? c) && (c <=? 90)) || ((97 <=? c) && (c <=? 122))
  || (c =? 43) || (c =? 45) || (c =? 46).

(** The characters of a number literal as the printer writes it. *)
Definition is_num_char (a : ascii) : bool :=
  PyStr.is_digit a || Ascii.eqb a "-" || Ascii.eqb a "+" || Ascii.eqb a "."
  || Ascii.eqb a "e".

Definition hex_val (a : ascii) : option Z :=
  let c := PyStr.code a in
  if PyStr.is_digit a then Some (c - 48)
  else if (97 <=? c) && (c <=? 102) then Some (c - 87)
  else if (65 <=? c) && (c <=? 70) then Some (c - 55)
  else None.

(** UTF-8 for a code point below 65536 (one escape of four hex digits). *)
Definition utf8 (cp : Z) : string :=
  if cp <? 128 then String (chr cp) EmptyString
  else if cp <? 2048 then
    String (chr (192 + cp / 64)) (String (chr (128 + cp mod 64)) EmptyString)
  else
    String (chr (224 + cp / 4096))
      (String (chr (128 + (cp / 64) mod 64))
         (String (chr (128 + cp mod 64)) EmptyString)).

(** *** Numbers and bare words *)

Definition all_digits (s : string) : option Decimal.uint :=
  match s with
  | EmptyString => None
  | _ => NilEmpty.uint_of_string s
  end.

(** The integer part of a number: digits without a leading zero, or the
    single digit zero. *)
Definition int_part (s : string) : option N :=
  u ← all_digits s;
  if Decimal.uint_beq (Decimal.unorm u) u then Some (N.of_uint u) else None.

(** The exponent part after [e]: an optional sign and digits. *)
Definition exp_part (s : string) : option Z :=
  match s with
  | String a r =>
      if Ascii.eqb a "-" then u ← all_digits r; Some (- Z.of_N (N.of_uint u))
      else if Ascii.eqb a "+" then u ← all_digits r; Some (Z.of_N (N.of_uint u))
      else u ← all_digits s; Some (Z.of_N (N.of_uint u))
  | EmptyString => None
  end.

(** Cut [s] at the first character satisfying [p]; the character itself
    is dropped. *)
Fixpoint cut (p : ascii → bool) (s : string) : string * option string :=
  match s with
  | EmptyString => (EmptyString, None)
  | String a s' =>
      if p a then (EmptyString, Some s')
      else let '(l, r) := cut p s' in (String a l, r)
  end.

Definition is_e (a : ascii) : bool := Ascii.eqb a "e" || Ascii.eqb a "E".
Definition is_dot (a : ascii) : bool := Ascii.eqb a ".".

(** An unsigned number literal: integer part, optional fraction, optional
    exponent.  Without fraction and exponent it is an [int]. *)
Definition unsigned_number (neg : bool) (s : string) : option json :=
  let '(mant, ex) := cut is_e s in
  let '(ip, fr) := cut is_dot mant in
  i ← int_part ip;
  match fr, ex with
  | None, None => Some (JInt (if neg then - Z.of_N i else Z.of_N i))
  | _, _ =>
      f ← match fr with
          | None => Some Decimal.Nil
          | Some d => all_digits d
          end;
      e ← match ex with
          | None => Some 0
          | Some t => exp_part t
          end;
      Some (JFloat (FloatLit neg i f e))
  end.

(** A word that is none of the bare words. *)
Definition keywords_differ (w : string) : Prop :=
  String.eqb w "null" = false ∧ String.eqb w "true" = false ∧
  String.eqb w "false" = false ∧ String.eqb w "NaN" = false ∧
  String.eqb w "Infinity" = false ∧ String.eqb w "-Infinity" = false.

Definition word_value (w : string) : option json :=
  if String.eqb w "null" then Some JNull
  else if String.eqb w "true" then Some (JBool true)
  else if String.eqb w "false" then Some (JBool false)
  else if String.eqb w "NaN" then Some (JFloat FloatNaN)
  else if String.eqb w "Infinity" then Some (JFloat (FloatInf false))
  else if String.eqb w "-Infinity" then Some (JFloat (FloatInf true))
  else match w with
       | String a r =>
           if Ascii.eqb a "-" then unsigned_number true r
           else unsigned_number false w
       | EmptyString => None
       end.

(** *** The scanner *)

Inductive lex_state : Set :=
| LxStart
| LxWord (w : string)
| LxStr (acc : string)
| LxEsc (acc : string)
| LxHex (acc : string) (seen : list Z).

(** A character met between two tokens. *)
Definition start_step (a : ascii) : option (list token * lex_state) :=
  if is_ws a then Some ([], LxStart)
  else if Ascii.eqb a "{" then Some ([TLBrace], LxStart)
  else if Ascii.eqb a "}" then Some ([TRBrace], LxStart)
  else if Ascii.eqb a "[" then Some ([TLBrack], LxStart)
  else if Ascii.eqb a "]" then Some ([TRBrack], LxStart)
  else if Ascii.eqb a ":" then Some ([TColon], LxStart)
  else if Ascii.eqb a "," then Some ([TComma], LxStart)
  else if Ascii.eqb a dquote then Some ([], LxStr EmptyString)
  else if is_word_char a then Some ([], LxWord (String a EmptyString))
  else None.

(** The character after a backslash, [u] apart. *)
Definition escape (a : ascii) : option ascii :=
  if Ascii.eqb a dquote then Some a
  else if Ascii.eqb a backslash then Some a
  else if Ascii.eqb a "/" then Some a
  else if Ascii.eqb a "b" then Some (chr 8)
  else if Ascii.eqb a "f" then Some (chr 12)
  else if Ascii.eqb a "n" then Some (chr 10)
  else if Ascii.eqb a "r" then Some (chr 13)
  else if Ascii.eqb a "t" then Some (chr 9)
  else None.

Fixpoint lex (st : lex_state) (s : string) : option (list token) :=
  match s with
  | EmptyString =>
      match st with
      | LxStart => Some []
      | LxWord w => v ← word_value w; Some [TVal v]
      | _ => None
      end
  | String a s' =>
      match st with
      | LxStart =>
          '(ts, st') ← start_step a;
          r ← lex st' s';
          Some (ts ++ r)
      | LxWord w =>
          if is_word_char a then lex (LxWord (snoc w a)) s'
          else
            v ← word_value w;
            '(ts, st') ← start_step a;
            r ← lex st' s';
            Some (TVal v :: ts ++ r)
      | LxStr acc =>
          if Ascii.eqb a dquote then
            r ← lex LxStart s'; Some (TVal (JStr acc) :: r)
          else if Ascii.eqb a backslash then lex (LxEsc acc) s'
          else if PyStr.code a <? 32 then None
          else lex (LxStr (snoc acc a)) s'
      | LxEsc acc =>
          if Ascii.eqb a "u" then lex (LxHex acc []) s'
          else c ← escape a; lex (LxStr (snoc acc c)) s'
      | LxHex acc seen =>
          h ← hex_val a;
          match seen with
          | [x; y; z] =>
              lex (LxStr (acc +:+ utf8 (((x * 16 + y) * 16 + z) * 16 + h))) s'
          | _ => lex (LxHex acc (seen ++ [h])) s'
          end
      end
  end.

(** *** The parser *)

Fixpoint parse_value (fuel : nat) (ts : list token) : option (json * list token) :=
  match fuel with
  | O => None
  | S fuel' =>
      match ts with
      | TVal v :: r => Some (v, r)
      | TLBrack :: TRBrack :: r => Some (JArr [], r)
      | TLBrack :: r => parse_elems fuel' r []
      | TLBrace :: TRBrace :: r => Some (JObj [], r)
      | TLBrace :: r => parse_members fuel' r []
      | _ => None
      end
  end
with parse_elems (fuel : nat) (ts : list token) (acc : list json)
  : option (json * list token) :=
  match fuel with
  | O => None
  | S fuel' =>
      '(v, r) ← parse_value fuel' ts;
      match r with
      | TComma :: r' => parse_elems fuel' r' (acc ++ [v])
      | TRBrack :: r' => Some (JArr (acc ++ [v]), r')
      | _ => None
      end
  end
with parse_members (fuel : nat) (ts : list token) (acc : list (string * json))
  : option (json * list token) :=
  match fuel with
  | O => None
  | S fuel' =>
      match ts with
      | TVal (JStr k) :: TColon :: r =>
          '(v, r') ← parse_value fuel' r;
          match r' with
          | TComma :: r'' => parse_members fuel' r'' (dict_set k v acc)
          | TRBrace :: r'' => Some (JObj (dict_set k v acc), r'')
          | _ => None
          end
      | _ => None
      end
  end.

(** [json.loads]: [None] is [JSONDecodeError].  One unit of fuel per token
    and one more: enough for whatever the parser can find with any amount
    ([parse_value_enough] below). *)
Definition loads (s : string) : option json :=
  ts ← lex LxStart s;
  '(v, r) ← parse_value (S (length ts)) ts;
  match r with
  | [] => Some v
  | _ => None
  end.

(** *** The printer *)

Definition hex_digit (n : Z) : ascii := chr (if n <? 10 then 48 + n else 87 + n).

(** One character of a string, as [json.dumps] writes it. *)
Definition esc_char (a : ascii) : string :=
  let c := PyStr.code a in
  if Ascii.eqb a dquote then String backslash (String dquote EmptyString)
  else if Ascii.eqb a backslash then String backslash (String backslash EmptyString)
  else if c =? 10 then String backslash "n"
  else if c =? 13 then String backslash "r"
  else if c =? 9 then String backslash "t"
  else if c =? 8 then String backslash "b"
  else if c =? 12 then String backslash "f"
  else if c <? 32 then
    String backslash "u00" +:+
    String (hex_digit (c / 16)) (String (hex_digit (c mod 16)) EmptyString)
  else String a EmptyString.

(** A character [json.dumps] writes as it is. *)
Definition is_plain (a : ascii) : bool :=
  negb (Ascii.eqb a dquote) && negb (Ascii.eqb a backslash) && (32 <=? PyStr.code a).

Fixpoint esc_string (s : string) : string :=
  match s with
  | EmptyString => EmptyString
  | String a s' => esc_char a +:+ esc_string s'
  end.

Definition quote (s : string) : string :=
  String dquote (esc_string s +:+ String dquote EmptyString).

Definition float_json (x : float_lit) : string :=
  match x with
  | FloatLit neg int frac exp => lit_text neg int frac exp
  | FloatInf neg => if neg then "-Infinity" else "Infinity"
  | FloatNaN => "NaN"
  end.

(** [json.dumps] with its default separators. *)
Fixpoint dumps (v : json) : string :=
  match v with
  | JNull => "null"
  | JBool b => if b then "true" else "false"
  | JInt z => PyStr.of_int z
  | JFloat f => float_json f
  | JStr s => quote s
  | JArr l =>
      "[" +:+
      (fix items (l : list json) : string :=
         match l with
         | [] => EmptyString
         | [x] => dumps x
         | x :: r => dumps x +:+ ", " +:+ items r
         end) l +:+ "]"
  | JObj kvs =>
      "{" +:+
      (fix members (kvs : list (string * json)) : string :=
         match kvs with
         | [] => EmptyString
         | [(k, x)] => quote k +:+ ": " +:+ dumps x
         | (k, x) :: r => quote k +:+ ": " +:+ dumps x +:+ ", " +:+ members r
         end) kvs +:+ "}"
  end.

End Json.

(** ** The file system

    The scanner keeps everything in one flat directory, [data].  A file
    system is a finite map from path to content; directories, permissions
    and a full disk are not modelled.  Text files are read and written in
    UTF-8. *)

Module Fs.

Abbreviation t := (gmap string string).

Fixpoint utf8_go (need : nat) (lo hi : Z) (s : string) : bool :=
  match s with
  | EmptyString => match need with O => true | S _ => false end
  | String a s' =>
      let c := PyStr.code a in
      match need with
      | S n => (lo <=? c) && (c <=? hi) && utf8_go n 128 191 s'
      | O =>
          if c <? 128 then utf8_go 0 128 191 s'
          else if (194 <=? c) && (c <=? 223) then utf8_go 1 128 191 s'
          else if c =? 224 then utf8_go 2 160 191 s'
          else if c =? 237 then utf8_go 2 128 159 s'
          else if (225 <=? c) && (c <=? 239) then utf8_go 2 128 191 s'
          else if c =? 240 then utf8_go 3 144 191 s'
          else if c =? 244 then utf8_go 3 128 143 s'
          else if (241 <=? c) && (c <=? 243) then utf8_go 3 128 191 s'
          else false
      end
  end.

Definition is_ascii (a : ascii) : bool := PyStr.code a <? 128.

(** Whether the bytes decode as UTF-8; a [str] with a lone surrogate has
    no such encoding. *)
Definition utf8_valid (s : string) : bool := utf8_go 0 128 191 s.

Definition exists_ (path : string) (fs : t) : bool :=
  match fs !! path with Some _ => true | None => false end.

(** [open(path, 'w')] and close: the file is there and empty. *)
Definition truncate (path : string) (fs : t) : t := <[path := EmptyString]> fs.

(** [open(path, 'a')] and close: the file is there, content kept. *)
Definition touch (path : string) (fs : t) : t :=
  match fs !! path with
  | Some _ => fs
  | None => <[path := EmptyString]> fs
  end.

(** [with open(path, 'a') as f: f.write(text)].  The file is opened
    first, so it exists afterwards even when the text cannot be encoded. *)
Definition append (path text : string) (fs : t) : Py.res unit * t :=
  if utf8_valid text then
    (Py.Ok (), <[path := default EmptyString (fs !! path) +:+ text]> fs)
  else (Py.Raise Py.UnicodeError, touch path fs).

(** [os.remove(path)] of an existing file. *)
Definition remove (path : string) (fs : t) : t := delete path fs.

(** [f.read()] in text mode. *)
Definition read (path : string) (fs : t) : option (Py.res string) :=
  text ← fs !! path;
  Some (if utf8_valid text then Py.Ok text else Py.Raise Py.UnicodeError).

(** [os.path.basename]. *)
Definition basename (path : string) : string :=
  default EmptyString (last (PyStr.split "/" path)).

(** [s[n:]]. *)
Fixpoint drop (n : nat) (s : string) : string :=
  match n, s with
  | O, _ => s
  | S n', String _ s' => drop n' s'
  | S _, EmptyString => EmptyString
  end.

(** Whether [glob.glob("data/addresses_*.txt")] lists the path: a name
    directly inside [data] that starts with [addresses_] and whose rest
    ends with [.txt]. *)
Definition glob_match (path : string) : bool :=
  let name := drop 5 path in
  PyStr.startswith "data/" path
  && negb (PyStr.has_char "/" name)
  && PyStr.startswith "addresses_" name
  && PyStr.endswith ".txt" (drop 10 name).

(** The paths the glob returns.  Their order is the directory's, which
    nothing fixes; the model takes the order of the map. *)
Definition glob (fs : t) : list string :=
  filter (λ p, glob_match p = true) (map_to_list fs).*1.

End Fs.

(** ** The outside world: explorer services, clock, stop requests *)

Module Env.

(** The outcome of [requests.get]: a [RequestException], or a response
    with its status code and its decoded JSON body.  A response whose body
    is not JSON has no place here: what [response.json()] raises for it
    depends on the version of the library. *)
Inductive http : Set :=
| RequestException
| Response (status : Z) (body : Py.json).

(** What the scanner did to the outside, oldest first. *)
Inductive event : Set :=
| EvFetch (height : Z)
| EvBalance (address : string)
| EvClock
| EvSleep (seconds : Z).

#[global] Instance event_eq_dec : EqDecision event.
Proof. solve_decision. Defined.

(** The services answer by the moment they are asked (the number of
    events so far) and by the request.  [stop_requested n] tells whether
    [stop_scanning] has been called from elsewhere by moment [n]. *)
Record t : Type := Make {
  block_service : nat → Z → http;
  balance_service : nat → string → http;
  clock : nat → Py.float_lit;
  stop_requested : nat → bool
}.

(** A fetch that gives the scanner nothing: the request failed or the
    status is not 200. *)
Definition absent (r : http) : Prop :=
  match r with
  | RequestException => True
  | Response status _ => status ≠ 200
  end.

(** The heights asked of the block service, in order. *)
Definition fetches (evs : list event) : list Z :=
  omap (λ e, match e with EvFetch h => Some h | _ => None end) evs.

(** How many times progress was saved (each save reads the clock once). *)
Definition saves (evs : list event) : nat :=
  length (filter (λ e, e = EvClock) evs).

(** The addresses asked of the balance service, in order. *)
Definition lookups (evs : list event) : list string :=
  omap (λ e, match e with EvBalance a => Some a | _ => None end) evs.

End Env.

(** ** The scanner ([class BlockchainScanner])

    Methods in source order.  [print] and logger calls leave no trace in
    the model. *)

Module Scanner.
Import Py.

(** The attributes of [self]. *)
Record t : Set := Make {
  current_addresses_file : string;
  current_balances_file : string;
  current_block : json;
  total_addresses : Z;
  addresses_with_balance : Z;
  is_running : bool;
  current_file_index : Z
}.

(** The file system together with the record of outside events. *)
Record world : Type := World {
  files : gmap string string;
  events : list Env.event
}.

Definition progress_file : string := "data/progress.json".

Definition addresses_path (index : Z) : string :=
  "data/addresses_" +:+ PyStr.of_int index +:+ ".txt".

Definition balances_path (index : Z) : string :=
  "data/addresses_with_balance_" +:+ PyStr.of_int index +:+ ".txt".

(** [int(filename.split('_')[1].split('.')[0])]; [None] stands for the
    [ValueError] or [IndexError] the callers skip. *)
Definition parse_index (file_path : string) : option Z :=
  let filename := Fs.basename file_path in
  piece ← PyStr.split "_" filename !! 1%nat;
  digits ← PyStr.split "." piece !! 0%nat;
  PyStr.to_int digits.

Definition max_list (i : Z) (l : list Z) : Z := foldl Z.max i l.

Definition get_current_file_index (fs : Fs.t) : Z :=
  match Fs.glob fs with
  | [] => 1
  | address_files =>
      match omap parse_index address_files with
      | [] => 1
      | i :: indices => max_list i indices
      end
  end.

Definition set_files (index : Z) (self : t) : t :=
  Make (addresses_path index) (balances_path index) (current_block self)
       (total_addresses self) (addresses_with_balance self) (is_running self) index.

Definition initialize_current_files (self : t) (fs : Fs.t) : t * Fs.t :=
  let self := set_files (get_current_file_index fs) self in
  (self, Fs.touch (current_balances_file self)
           (Fs.touch (current_addresses_file self) fs)).

Definition create_new_files (self : t) (fs : Fs.t) : Z * t * Fs.t :=
  let self := set_files (current_file_index self + 1) self in
  (current_file_index self, self,
   Fs.truncate (current_balances_file self)
     (Fs.truncate (current_addresses_file self) fs)).

(** Only a missing file and a text that is not JSON are caught; whatever
    else goes wrong reaches the caller. *)
Definition load_progress (fs : Fs.t) : res json :=
  match Fs.read progress_file fs with
  | None => Ok (JInt 0)
  | Some (Raise e) => Raise e
  | Some (Ok text) =>
      match Json.loads text with
      | None => Ok (JInt 0)
      | Some data => get data "current_block" (JInt 0)
      end
  end.

Definition progress_data (self : t) (block_number : Z) (now : float_lit) : json :=
  JObj [("current_block", JInt block_number);
        ("timestamp", JFloat now);
        ("total_addresses", JInt (total_addresses self));
        ("addresses_with_balance", JInt (addresses_with_balance self));
        ("current_file_index", JInt (current_file_index self))].

Definition save_progress (env : Env.t) (self : t) (block_number : Z) (w : world)
  : world :=
  let now := Env.clock env (length (events w)) in
  World (<[progress_file := Json.dumps (progress_data self block_number now)]> (files w))
        (events w ++ [Env.EvClock]).

(** The decoded block, or [JNull] for Python's [None]. *)
Definition get_block_data (env : Env.t) (block_height : Z) (w : world)
  : json * world :=
  let w' := World (files w) (events w ++ [Env.EvFetch block_height]) in
  match Env.block_service env (length (events w)) block_height with
  | Env.Response status body => if status =? 200 then (body, w') else (JNull, w')
  | Env.RequestException => (JNull, w')
  end.

(** [addresses.add(x)]; the set is kept in order of first insertion.
    CPython lists a set in an order of its own, which depends on the
    hashes: the statements about the addresses of a block hold for every
    order, or are made for a block with one address. *)
Definition set_add (x : scalar) (s : list scalar) : list scalar :=
  if existsb (scalar_eqb x) s then s else s ++ [x].

(** A [for] loop whose body may raise: the loop stops at the first
    exception and hands it on with the set as it then stands. *)
Fixpoint for_each {A : Type} (body : A → list scalar → list scalar * option exn)
  (l : list A) (s : list scalar) : list scalar * option exn :=
  match l with
  | [] => (s, None)
  | x :: rest =>
      match body x s with
      | (s', None) => for_each body rest s'
      | stopped => stopped
      end
  end.

Definition visit_output (output : json) (s : list scalar) : list scalar * option exn :=
  match contains (SStr "addr") output with
  | Raise e => (s, Some e)
  | Ok false => (s, None)
  | Ok true =>
      match bind (getitem output (SStr "addr")) to_scalar with
      | Raise e => (s, Some e)
      | Ok x => (set_add x s, None)
      end
  end.

Definition visit_tx (tx : json) (s : list scalar) : list scalar * option exn :=
  match bind (get tx "out" (JArr [])) iter with
  | Raise e => (s, Some e)
  | Ok outputs => for_each visit_output outputs s
  end.

Definition visit_block (block : json) (s : list scalar) : list scalar * option exn :=
  match contains (SStr "tx") block with
  | Raise e => (s, Some e)
  | Ok false => (s, None)
  | Ok true =>
      match bind (bind (getitem block (SStr "tx")) slice3) iter with
      | Raise e => (s, Some e)
      | Ok txs => for_each visit_tx txs s
      end
  end.

Definition visit_block_data (block_data : json) : list scalar * option exn :=
  match contains (SStr "blocks") block_data with
  | Raise e => ([], Some e)
  | Ok false => ([], None)
  | Ok true =>
      match bind (getitem block_data (SStr "blocks")) iter with
      | Raise e => ([], Some e)
      | Ok blocks => for_each visit_block blocks []
      end
  end.

(** The [try] catches every exception; what the set holds by then is
    returned.  [list(addresses)] comes in an order CPython does not
    promise; the model lists by first insertion. *)
Definition extract_addresses_from_block (block_data : json) : list scalar :=
  fst (visit_block_data block_data).

Definition scale : positive := 100000000.

Definition zero : pyfloat := S754_zero false.

(** A [RequestException] is swallowed; an exception from walking the
    payload is not. *)
Definition check_balance (env : Env.t) (address : scalar) (w : world)
  : res pyfloat * world :=
  let w' := World (files w) (events w ++ [Env.EvBalance (str address)]) in
  match Env.balance_service env (length (events w)) (str address) with
  | Env.RequestException => (Ok zero, w')
  | Env.Response status data =>
      if status =? 200 then
        match contains address data with
        | Raise e => (Raise e, w')
        | Ok false => (Ok zero, w')
        | Ok true =>
            (bind (getitem data address) (λ balance_data,
               bind (get balance_data "final_balance" (JInt 0)) (λ v,
                 truediv v scale)), w')
        end
      else (Ok zero, w')
  end.

Definition add_total (self : t) : t :=
  Make (current_addresses_file self) (current_balances_file self)
       (current_block self) (total_addresses self + 1)
       (addresses_with_balance self) (is_running self) (current_file_index self).

Definition add_with_balance (self : t) : t :=
  Make (current_addresses_file self) (current_balances_file self)
       (current_block self) (total_addresses self)
       (addresses_with_balance self + 1) (is_running self) (current_file_index self).

Definition set_running (b : bool) (self : t) : t :=
  Make (current_addresses_file self) (current_balances_file self)
       (current_block self) (total_addresses self)
       (addresses_with_balance self) b (current_file_index self).

Definition balance_line (address : scalar) (balance : pyfloat) : string :=
  str address +:+ " - " +:+ format_8f balance +:+ " BTC" +:+ String (Json.chr 10) EmptyString.

Definition address_line (address : scalar) : string :=
  str address +:+ String (Json.chr 10) EmptyString.

(** The body of [for address in addresses]. *)
Definition process_address (env : Env.t) (address : scalar) (self : t) (w : world)
  : option exn * t * world :=
  match Fs.append (current_addresses_file self) (address_line address) (files w) with
  | (Raise e, fs) => (Some e, self, World fs (events w))
  | (Ok _, fs) =>
      let self := add_total self in
      match check_balance env address (World fs (events w)) with
      | (Raise e, w) => (Some e, self, w)
      | (Ok balance, w) =>
          if float_pos balance then
            match Fs.append (current_balances_file self)
                    (balance_line address balance) (files w) with
            | (Raise e, fs) => (Some e, self, World fs (events w))
            | (Ok _, fs) => (None, add_with_balance self, World fs (events w))
            end
          else (None, self, w)
      end
  end.

Fixpoint process_addresses (env : Env.t) (addresses : list scalar) (self : t)
  (w : world) : option exn * t * world :=
  match addresses with
  | [] => (None, self, w)
  | address :: rest =>
      match process_address env address self w with
      | (None, self, w) => process_addresses env rest self w
      | stopped => stopped
      end
  end.

Definition sleep (seconds : Z) (w : world) : world :=
  World (files w) (events w ++ [Env.EvSleep seconds]).

(** One turn of the [while] loop at height [current_block]: the exception
    that ended it (if any), the next height, and the new state. *)
Definition scan_step (env : Env.t) (current_block : Z) (self : t) (w : world)
  : option exn * Z * t * world :=
  let '(block_data, w) := get_block_data env current_block w in
  if negb (truthy block_data) then (None, current_block + 1, self, w)
  else
    let addresses := extract_addresses_from_block block_data in
    match process_addresses env addresses self w with
    | (Some e, self, w) => (Some e, current_block, self, w)
    | (None, self, w) =>
        let w := save_progress env self current_block w in
        (None, current_block + 1, self, sleep 2 w)
    end.

(** [self.is_running] as the loop test reads it: cleared by the scanner
    itself or by a stop request from elsewhere. *)
Definition running (env : Env.t) (self : t) (w : world) : bool :=
  is_running self && negb (Env.stop_requested env (length (events w))).

(** The [while] loop inside the [try], with a bound on its turns; [None]
    means the bound was too small.  An exception ends the loop. *)
Fixpoint scan_loop (fuel : nat) (env : Env.t) (end_block current_block : Z)
  (self : t) (w : world) : option (Z * t * world) :=
  if (current_block <=? end_block) && running env self w then
    match fuel with
    | O => None
    | S fuel' =>
        match scan_step env current_block self w with
        | (Some _, current_block, self, w) => Some (current_block, self, w)
        | (None, current_block, self, w) =>
            scan_loop fuel' env end_block current_block self w
        end
    end
  else Some (current_block, self, w).

(** The dict [scan_blocks] returns. *)
Record summary : Set := Summary {
  sum_current_block : Z;
  sum_total_addresses : Z;
  sum_addresses_with_balance : Z;
  sum_current_file_index : Z
}.

Definition default_run : Z := 20.

Definition scan_blocks (env : Env.t) (start_block : Z) (end_block : option Z)
  (self : t) (w : world) : option (summary * t * world) :=
  let self := set_running true self in
  let end_block := default (start_block + default_run) end_block in
  '(current_block, self, w) ←
    scan_loop (Z.to_nat (end_block - start_block + 1)) env end_block
      start_block self w;
  let self := set_running false self in
  Some (Summary current_block (total_addresses self)
          (addresses_with_balance self) (current_file_index self), self, w).

(** One entry of [get_available_files]. *)
Record file_info : Set := FileInfo {
  index : Z;
  address_file : string;
  balance_file : string;
  address_count : Z;
  balance_count : Z
}.

(** The entry for one globbed path, or [None] when the path is skipped:
    no index in its name, no balance file, or a file that does not decode
    (a [ValueError] like the other two). *)
Definition file_entry (fs : Fs.t) (addr_file : string) : option file_info :=
  index ← parse_index addr_file;
  let balance_file := balances_path index in
  if Fs.exists_ balance_file fs then
    match Fs.read addr_file fs, Fs.read balance_file fs with
    | Some (Ok a), Some (Ok b) =>
        Some (FileInfo index addr_file balance_file
                (PyStr.readlines_len a) (PyStr.readlines_len b))
    | _, _ => None
    end
  else None.

(** [sorted(files, key=...)]: a stable sort, here by insertion. *)
Fixpoint insert_sorted (x : file_info) (l : list file_info) : list file_info :=
  match l with
  | [] => [x]
  | y :: rest =>
      if index x <? index y then x :: l else y :: insert_sorted x rest
  end.

Definition sort_by_index (l : list file_info) : list file_info :=
  foldl (λ acc x, insert_sorted x acc) [] l.

Definition get_available_files (fs : Fs.t) : list file_info :=
  sort_by_index (omap (file_entry fs) (Fs.glob fs)).

Definition delete_files (file_index : Z) (fs : Fs.t) : bool * Fs.t :=
  let addr_file := addresses_path file_index in
  let balance_file := balances_path file_index in
  let fs := if Fs.exists_ addr_file fs then Fs.remove addr_file fs else fs in
  let fs := if Fs.exists_ balance_file fs then Fs.remove balance_file fs else fs in
  (true, fs).

(** [l[:stop]]. *)
Definition slice_to {A : Type} (stop : Z) (l : list A) : list A :=
  let n := Z.of_nat (length l) in
  take (Z.to_nat (if stop <? 0 then Z.max 0 (n + stop) else Z.min stop n)) l.

(** The pairs [cleanup_old_files] picks for deletion; empty on the early
    return. *)
Definition files_to_delete (keep_count : Z) (fs : Fs.t) : list file_info :=
  let files := get_available_files fs in
  if Z.of_nat (length files) <=? keep_count then []
  else slice_to (- keep_count) (sort_by_index files).

Definition cleanup_old_files (keep_count : Z) (fs : Fs.t) : Fs.t :=
  foldl (λ fs file_info, snd (delete_files (index file_info) fs)) fs
    (files_to_delete keep_count fs).

Definition stop_scanning (self : t) : t := set_running false self.

(** The dict [get_stats] returns. *)
Record stats : Set := Stats {
  stat_current_block : json;
  stat_total_addresses : Z;
  stat_addresses_with_balance : Z;
  stat_is_running : bool;
  stat_current_file_index : Z;
  stat_total_file_pairs : Z
}.

Definition get_stats (self : t) (fs : Fs.t) : stats :=
  let files := get_available_files fs in
  let total_files := Z.of_nat (length files) in
  Stats (current_block self) (total_addresses self)
        (addresses_with_balance self) (is_running self)
        (current_file_index self) total_files.

(** [__init__], up to the first call of a method that can raise. *)
Definition init (fs : Fs.t) : res (t * Fs.t) :=
  bind (load_progress fs) (λ block,
    let self := Make EmptyString EmptyString block 0 0 false
                  (get_current_file_index fs) in
    Ok (initialize_current_files self fs)).

End Scanner.

(** ** The bot's commands ([class TelegramBlockchainBot], main.py)

    The download handler, as far as it acts on the scanner and on the
    data directory.  The messages it sends are kept as the values that go
    into them; a failure of the messaging service, and a scan that runs
    in its thread while the handler works, are not modelled. *)

Module Bot.
Import Py Scanner.

(** [os.path.exists(path) and os.path.getsize(path) > 0]. *)
Definition has_content (path : string) (fs : Fs.t) : bool :=
  match fs !! path with
  | Some content => negb (String.eqb content EmptyString)
  | None => false
  end.

(** What [get_files_command] answers: that the batch is still empty, or
    the documents it sent (path and content) with the index of the batch
    it opened afterwards. *)
Inductive download : Set :=
| NothingCollected
| Downloaded (documents : list (string * string)) (current_index new_index : Z).

Definition document (path : string) (fs : Fs.t) : list (string * string) :=
  match fs !! path with
  | Some content => [(path, content)]
  | None => []
  end.

Definition get_files_command (self : Scanner.t) (fs : Fs.t)
  : download * Scanner.t * Fs.t :=
  let current_index := current_file_index self in
  let addr_file := addresses_path current_index in
  let balance_file := balances_path current_index in
  if negb (has_content addr_file fs) then (NothingCollected, self, fs)
  else
    let sent :=
      document addr_file fs ++
      (if has_content balance_file fs then document balance_file fs else []) in
    let '(new_index, self, fs) := create_new_files self fs in
    (Downloaded sent current_index new_index, self, fs).

End Bot.

(** ** The specification's side

    What the specification calls the output addresses of the sampled
    transactions, read off a payload without ever failing: the [addr] of
    every output of the first three transactions of every block segment. *)

Module Spec.
Import Py.

Definition field (k : string) (v : json) : option json :=
  match v with
  | JObj kvs => assoc k kvs
  | _ => None
  end.

Definition items (v : option json) : list json :=
  match v with
  | Some (JArr l) => l
  | _ => []
  end.

Definition output_address (output : json) : list scalar :=
  match field "addr" output with
  | Some v => match to_scalar v with Ok x => [x] | Raise _ => [] end
  | None => []
  end.

Definition sampled_transactions (block : json) : list json :=
  take 3 (items (field "tx" block)).

Definition sampled_addresses (block_data : json) : list scalar :=
  block ← items (field "blocks" block_data);
  tx ← sampled_transactions block;
  output ← items (field "out" tx);
  output_address output.

(** No two entries equal in Python's sense, the later compared with the
    earlier. *)
Definition distinct (l : list scalar) : Prop :=
  ForallOrdPairs (λ x y, scalar_eqb y x = false) l.

(** What the extractor's walk maintains: the set holds distinct values,
    all of them among the addresses in [pool]. *)
Definition kept (pool s : list scalar) : Prop :=
  distinct s ∧ ∀ x, x ∈ s → x ∈ pool.

End Spec.

(** ** Concrete worlds used by the examples *)

Module Examples.
Import Py Scanner.

(** A payload with one block segment, one transaction, one output. *)
Definition block_with (a : string) : json :=
  JObj [("blocks", JArr [JObj [("tx", JArr [JObj [("out",
    JArr [JObj [("addr", JStr a)]])]])]])].

Definition balance_of (a : string) (subunits : Z) : json :=
  JObj [(a, JObj [("final_balance", JInt subunits)])].

Definition noon : float_lit :=
  FloatLit false 1730736000 (Decimal.D2 (Decimal.D5 Decimal.Nil)) 0.

(** Block 100 holds the one address [X]; every other fetch fails; every
    balance is zero. *)
Definition env_one_block : Env.t :=
  Env.Make
    (λ _ h, if h =? 100 then Env.Response 200 (block_with "X")
            else Env.RequestException)
    (λ _ a, Env.Response 200 (balance_of a 0))
    (λ _, noon)
    (λ _, false).

(** Every fetch succeeds with a payload that has no block segment. *)
Definition env_all_blocks : Env.t :=
  Env.Make
    (λ _ _, Env.Response 200 (JObj [("blocks", JArr [])]))
    (λ _ a, Env.Response 200 (balance_of a 0))
    (λ _, noon)
    (λ _, false).


Definition batch (i : Z) (addresses balances : string) (fs : Fs.t) : Fs.t :=
  <[addresses_path i := addresses]> (<[balances_path i := balances]> fs).

Definition fs_fresh : Fs.t := batch 1 EmptyString EmptyString ∅.

Definition self_fresh : Scanner.t :=
  Scanner.Make (addresses_path 1) (balances_path 1) (JInt 0) 0 0 false 1.

Definition w_fresh : world := World fs_fresh [].

Definition lf : string := String (Json.chr 10) EmptyString.

Definition fs_eight : Fs.t :=
  foldr (λ i fs, batch i ("a" +:+ lf) EmptyString fs) ∅ [1; 2; 3; 4; 5; 6; 7; 8].

Definition fs_two : Fs.t :=
  foldr (λ i fs, batch i ("a" +:+ lf) EmptyString fs) ∅ [1; 2].

(** A scanner that has counted seven addresses, three with a balance. *)
Definition self_counted : Scanner.t :=
  Scanner.Make (addresses_path 1) (balances_path 1) (JInt 0) 7 3 false 1.

(** A progress file that holds valid JSON, but a list. *)
Definition fs_list_progress : Fs.t := <[progress_file := "[]"]> fs_fresh.

(** A batch already on disk at the index the next rotation takes. *)
Definition fs_sparse : Fs.t :=
  batch 2 ("old" +:+ lf) ("old - 1.00000000 BTC" +:+ lf) fs_fresh.

End Examples.

(** ** Notions the statements about the code use *)

Module Props.
Import Py Scanner.

(** The order of the listing. *)
Definition by_index (a b : file_info) : Prop := index a ≤ index b.

(** The indices carried by the names of the address files on disk: the
    list [get_current_file_index] takes the maximum of. *)
Definition indices (fs : Fs.t) : list Z := omap parse_index (Fs.glob fs).

(** The [for] loop of [cleanup_old_files]: the pairs of [ds] deleted one
    after the other. *)
Definition delete_all (ds : list file_info) (fs : Fs.t) : Fs.t :=
  foldl (λ fs file_info, snd (delete_files (index file_info) fs)) fs ds.

(** What a scan may do between two moments: the scanner keeps its files,
    its index, its [current_block] and its flag; the counters only grow,
    by one balance request per address counted; the events only extend;
    no file but the two logs and the progress file changes, and no file
    but the progress file loses what it held. *)
Record extends (self : Scanner.t) (w : world) (self' : Scanner.t) (w' : world)
  : Prop := Extends {
  ext_addresses_file : current_addresses_file self' = current_addresses_file self;
  ext_balances_file : current_balances_file self' = current_balances_file self;
  ext_block : current_block self' = current_block self;
  ext_index : current_file_index self' = current_file_index self;
  ext_running : is_running self' = is_running self;
  ext_with_balance : addresses_with_balance self ≤ addresses_with_balance self';
  ext_share :
    addresses_with_balance self' - addresses_with_balance self
    ≤ total_addresses self' - total_addresses self;
  ext_events :
    ∃ evs, events w' = events w ++ evs ∧
           Z.of_nat (length (Env.lookups evs))
           = total_addresses self' - total_addresses self;
  ext_frame :
    ∀ p, p ≠ current_addresses_file self → p ≠ current_balances_file self →
         p ≠ progress_file → files w' !! p = files w !! p;
  ext_grows :
    ∀ p old, p ≠ progress_file → files w !! p = Some old →
             ∃ suffix, files w' !! p = Some (old +:+ suffix)
}.

(** The set [s] holds, for every value of [pool], a value equal to it in
    Python's sense. *)
Definition covers (s pool : list scalar) : Prop :=
  ∀ x, x ∈ pool → ∃ y, y ∈ s ∧ scalar_eqb x y = true.

(** The directories the statements about indices are made for: every
    path the glob returns is written in ASCII characters, where
    [PyStr.to_int] is the [int] of the code. *)
Definition ascii_names (fs : Fs.t) : Prop :=
  Forall (λ p, PyStr.all_chars Fs.is_ascii p = true) (Fs.glob fs).

(** A value that is not a float: [Py.str] writes it as the code does. *)
Definition not_float (x : scalar) : Prop :=
  match x with SFloat _ => False | _ => True end.

End Props.

(** * Strings and integers *)

Lemma all_chars_app p s t :
  PyStr.all_chars p (s +:+ t) = PyStr.all_chars p s && PyStr.all_chars p t.
Proof.
  induction s as [|a s IH]; simpl; [done|].
  rewrite IH. by rewrite andb_assoc.
Qed.

Lemma all_chars_weaken (p q : ascii → bool) s :
  (∀ a, p a = true → q a = true) →
  PyStr.all_chars p s = true → PyStr.all_chars q s = true.
Proof.
  intros Hpq. induction s as [|a s IH]; simpl; [done|].
  intros [Ha Hs]%andb_prop. rewrite (Hpq a Ha). simpl. auto.
Qed.

Lemma uint_digits d : PyStr.all_chars PyStr.is_digit (NilEmpty.string_of_uint d) = true.
Proof. induction d; simpl; auto. Qed.

Lemma uint_text_nonnil d :
  d ≠ Decimal.Nil → NilZero.string_of_uint d = NilEmpty.string_of_uint d.
Proof. by destruct d. Qed.

Lemma uint_text_nonempty d :
  d ≠ Decimal.Nil → NilEmpty.string_of_uint d ≠ EmptyString.
Proof. by destruct d. Qed.

Lemma N_to_uint_nonnil n : N.to_uint n ≠ Decimal.Nil.
Proof. destruct n; simpl; [done|]. apply Unsigned.to_uint_nonnil. Qed.

Lemma of_N_text n : PyStr.of_N n = NilEmpty.string_of_uint (N.to_uint n).
Proof. apply uint_text_nonnil, N_to_uint_nonnil. Qed.

Lemma of_N_digits n : PyStr.all_chars PyStr.is_digit (PyStr.of_N n) = true.
Proof. rewrite of_N_text. apply uint_digits. Qed.

Lemma of_N_nonempty n : PyStr.of_N n ≠ EmptyString.
Proof. rewrite of_N_text. apply uint_text_nonempty, N_to_uint_nonnil. Qed.

Lemma of_int_text z :
  PyStr.of_int z =
  (if z <? 0 then "-" else EmptyString) +:+ PyStr.of_N (Z.abs_N z).
Proof. by destruct z. Qed.

Lemma split_nochar c s : PyStr.has_char c s = false → PyStr.split c s = [s].
Proof.
  induction s as [|a s IH]; simpl; [done|].
  intros [Ha Hs]%orb_false_elim. rewrite Ha, (IH Hs). done.
Qed.

Lemma split_app_sep c s t :
  PyStr.has_char c s = false →
  PyStr.split c (s +:+ String c t) = s :: PyStr.split c t.
Proof.
  induction s as [|a s IH]; simpl.
  - intros _. by rewrite Ascii.eqb_refl.
  - intros [Ha Hs]%orb_false_elim. rewrite Ha, (IH Hs). done.
Qed.

Lemma has_char_app c s t :
  PyStr.has_char c (s +:+ t) = PyStr.has_char c s || PyStr.has_char c t.
Proof.
  induction s as [|a s IH]; simpl; [done|]. rewrite IH. by rewrite orb_assoc.
Qed.

Lemma has_char_all c p s :
  p c = false → PyStr.all_chars p s = true → PyStr.has_char c s = false.
Proof.
  intros Hc. induction s as [|a s IH]; simpl; [done|].
  intros [Ha Hs]%andb_prop. rewrite (IH Hs), orb_false_r.
  destruct (Ascii.eqb_spec a c); [congruence|done].
Qed.

Lemma lstrip_id s :
  PyStr.all_chars (λ a, negb (PyStr.is_space a)) s = true → PyStr.lstrip s = s.
Proof.
  destruct s as [|a s]; simpl; [done|].
  intros [Ha _]%andb_prop. by destruct (PyStr.is_space a).
Qed.

Lemma rstrip_id s :
  PyStr.all_chars (λ a, negb (PyStr.is_space a)) s = true → PyStr.rstrip s = s.
Proof.
  induction s as [|a s IH]; simpl; [done|].
  intros [Ha Hs]%andb_prop. rewrite (IH Hs).
  destruct s; [|done]. by destruct (PyStr.is_space a).
Qed.

Lemma strip_id s :
  PyStr.all_chars (λ a, negb (PyStr.is_space a)) s = true → PyStr.strip s = s.
Proof. intros H. unfold PyStr.strip. rewrite (lstrip_id _ H). by apply rstrip_id. Qed.

Lemma digit_not_space a : PyStr.is_digit a = true → negb (PyStr.is_space a) = true.
Proof.
  unfold PyStr.is_digit, PyStr.is_space. intros [H1 H2]%andb_prop.
  apply Z.leb_le in H1, H2. apply negb_true_iff, orb_false_intro.
  - apply andb_false_iff; right; apply Z.leb_gt; lia.
  - apply Z.eqb_neq; lia.
Qed.

Lemma int_digits_id b s :
  PyStr.all_chars PyStr.is_digit s = true →
  (b = true ∨ s ≠ EmptyString) → PyStr.int_digits b s = Some s.
Proof.
  revert b. induction s as [|a s IH]; simpl; intros b Hs Hb.
  - destruct Hb as [->|]; done.
  - apply andb_prop in Hs as [Ha Hs]. rewrite Ha, (IH true Hs); [done|by left].
Qed.

Lemma nat_of_digits_of_N n : PyStr.nat_of_digits (PyStr.of_N n) = Some (Z.of_N n).
Proof.
  unfold PyStr.nat_of_digits.
  rewrite int_digits_id by (auto using of_N_digits, of_N_nonempty).
  simpl. rewrite of_N_text, NilEmpty.usu. simpl.
  by rewrite DecimalN.Unsigned.of_to.
Qed.

Lemma append_cons a s t : String a s +:+ t = String a (s +:+ t).
Proof. reflexivity. Qed.

Lemma append_nil t : EmptyString +:+ t = t.
Proof. reflexivity. Qed.

Lemma to_int_digits s z :
  PyStr.all_chars PyStr.is_digit s = true → s ≠ EmptyString →
  PyStr.nat_of_digits s = Some z →
  PyStr.to_int s = Some z ∧ PyStr.to_int (String "-" s) = Some (- z).
Proof.
  intros Hd Hne Hn.
  assert (Hsp : PyStr.all_chars (λ a, negb (PyStr.is_space a)) s = true)
    by (eapply all_chars_weaken; [apply digit_not_space|done]).
  unfold PyStr.to_int. split.
  - rewrite strip_id by done.
    destruct s as [|a r]; [done|].
    cbn [PyStr.all_chars] in Hd. apply andb_prop in Hd as [Ha _].
    destruct (Ascii.eqb_spec a "-") as [->|_]; [done|].
    destruct (Ascii.eqb_spec a "+") as [->|_]; [done|]. done.
  - rewrite strip_id by (cbn [PyStr.all_chars]; by rewrite Hsp).
    rewrite Ascii.eqb_refl, Hn. done.
Qed.

Lemma to_int_of_int z : PyStr.to_int (PyStr.of_int z) = Some z.
Proof.
  rewrite of_int_text.
  destruct (to_int_digits (PyStr.of_N (Z.abs_N z)) (Z.of_N (Z.abs_N z)))
    as [Hpos Hneg]; auto using of_N_digits, of_N_nonempty, nat_of_digits_of_N.
  destruct (z <? 0) eqn:Hz.
  - rewrite append_cons, append_nil, Hneg. f_equal. apply Z.ltb_lt in Hz. lia.
  - rewrite append_nil, Hpos. f_equal. apply Z.ltb_ge in Hz. lia.
Qed.

Lemma of_int_inj a b : PyStr.of_int a = PyStr.of_int b → a = b.
Proof.
  intros H. apply (f_equal PyStr.to_int) in H.
  rewrite !to_int_of_int in H. congruence.
Qed.

Lemma of_int_chars z : PyStr.all_chars PyStr.is_int_char (PyStr.of_int z) = true.
Proof.
  rewrite of_int_text, all_chars_app.
  rewrite (all_chars_weaken PyStr.is_digit PyStr.is_int_char _
             ltac:(unfold PyStr.is_int_char; by intros a ->) (of_N_digits _)).
  by destruct (z <? 0).
Qed.

Lemma of_int_has_char c z :
  PyStr.is_int_char c = false → PyStr.has_char c (PyStr.of_int z) = false.
Proof. intros Hc. exact (has_char_all c _ _ Hc (of_int_chars z)). Qed.

Lemma of_int_no_char c z t :
  PyStr.is_int_char c = false →
  PyStr.has_char c (PyStr.of_int z +:+ t) = PyStr.has_char c t.
Proof.
  intros Hc. rewrite has_char_app.
  by rewrite (has_char_all c _ _ Hc (of_int_chars z)).
Qed.

(** * Batch file names *)

Import Py Scanner.

Lemma basename_addresses i :
  Fs.basename (addresses_path i) = "addresses_" +:+ PyStr.of_int i +:+ ".txt".
Proof.
  unfold Fs.basename.
  change (addresses_path i)
    with ("data" +:+ String "/" ("addresses_" +:+ PyStr.of_int i +:+ ".txt")).
  rewrite split_app_sep by done.
  rewrite split_nochar; [done|].
  change ("addresses_" +:+ PyStr.of_int i +:+ ".txt")
    with ("addresses_" +:+ (PyStr.of_int i +:+ ".txt")).
  rewrite has_char_app, of_int_no_char by done. done.
Qed.

Lemma parse_index_addresses i : parse_index (addresses_path i) = Some i.
Proof.
  unfold parse_index. rewrite basename_addresses.
  change ("addresses_" +:+ PyStr.of_int i +:+ ".txt")
    with ("addresses" +:+ String "_" (PyStr.of_int i +:+ ".txt")).
  rewrite split_app_sep by done.
  rewrite (split_nochar "_") by (by rewrite of_int_no_char).
  cbn [lookup list_lookup mbind option_bind].
  change (PyStr.of_int i +:+ ".txt") with (PyStr.of_int i +:+ String "." "txt").
  rewrite split_app_sep by (by apply of_int_has_char).
  cbn [lookup list_lookup mbind option_bind]. apply to_int_of_int.
Qed.

Lemma parse_index_balances i : parse_index (balances_path i) = None.
Proof.
  unfold parse_index, Fs.basename.
  change (balances_path i)
    with ("data" +:+ String "/"
            ("addresses_with_balance_" +:+ PyStr.of_int i +:+ ".txt")).
  rewrite split_app_sep by done.
  rewrite (split_nochar "/").
  2:{ change ("addresses_with_balance_" +:+ PyStr.of_int i +:+ ".txt")
        with ("addresses_with_balance_" +:+ (PyStr.of_int i +:+ ".txt")).
      rewrite has_char_app, of_int_no_char by done. done. }
  cbn [last default from_option id].
  change ("addresses_with_balance_" +:+ PyStr.of_int i +:+ ".txt")
    with ("addresses" +:+ String "_"
            ("with" +:+ String "_" ("balance_" +:+ PyStr.of_int i +:+ ".txt"))).
  rewrite !split_app_sep by done. done.
Qed.

Lemma endswith_app p s : PyStr.endswith p (s +:+ p) = true.
Proof.
  induction s as [|a s IH].
  - rewrite append_nil. destruct p; cbn [PyStr.endswith]; by rewrite String.eqb_refl.
  - rewrite append_cons. cbn [PyStr.endswith]. rewrite IH. apply orb_true_r.
Qed.

Lemma glob_match_addresses i : Fs.glob_match (addresses_path i) = true.
Proof.
  unfold Fs.glob_match.
  change (Fs.drop 5 (addresses_path i))
    with ("addresses_" +:+ (PyStr.of_int i +:+ ".txt")).
  change (Fs.drop 10 ("addresses_" +:+ (PyStr.of_int i +:+ ".txt")))
    with (PyStr.of_int i +:+ ".txt").
  rewrite endswith_app, has_char_app, of_int_no_char by done. done.
Qed.

Lemma addresses_path_inj i j : addresses_path i = addresses_path j → i = j.
Proof.
  intros H. apply (f_equal parse_index) in H.
  rewrite !parse_index_addresses in H. congruence.
Qed.

Lemma addresses_not_balances i j : addresses_path i ≠ balances_path j.
Proof.
  intros H. apply (f_equal parse_index) in H.
  by rewrite parse_index_addresses, parse_index_balances in H.
Qed.

Lemma append_inv_head s t1 t2 : s +:+ t1 = s +:+ t2 → t1 = t2.
Proof. induction s as [|a s IH]; simpl; [done|]. intros [= H]. auto. Qed.

Lemma balances_path_inj i j : balances_path i = balances_path j → i = j.
Proof.
  unfold balances_path. intros H.
  assert (E : ∀ k, PyStr.split "." (PyStr.of_int k +:+ ".txt") !! 0%nat
                   = Some (PyStr.of_int k)).
  { intros k. change (PyStr.of_int k +:+ ".txt")
      with (PyStr.of_int k +:+ String "." "txt").
    rewrite split_app_sep by (by apply of_int_has_char). done. }
  apply of_int_inj.
  assert (H' : PyStr.of_int i +:+ ".txt" = PyStr.of_int j +:+ ".txt").
  { by apply append_inv_head in H. }
  pose proof (E i) as Ei. rewrite H', E in Ei. congruence.
Qed.

Lemma progress_not_addresses i : progress_file ≠ addresses_path i.
Proof. unfold progress_file, addresses_path. intros [=]. Qed.

Lemma progress_not_balances i : progress_file ≠ balances_path i.
Proof. unfold progress_file, balances_path. intros [=]. Qed.

(** * Listing the batches *)

Lemma elem_of_glob fs p :
  p ∈ Fs.glob fs ↔ Fs.glob_match p = true ∧ is_Some (fs !! p).
Proof.
  unfold Fs.glob. rewrite list_elem_of_filter, list_elem_of_fmap.
  split.
  - intros [Hm [[q c] [-> Hin]]]. apply elem_of_map_to_list in Hin. eauto.
  - intros [Hm [c Hc]]. split; [done|].
    exists (p, c). split; [done|]. by apply elem_of_map_to_list.
Qed.

Lemma elem_of_insert_sorted x y l :
  y ∈ insert_sorted x l ↔ y = x ∨ y ∈ l.
Proof.
  induction l as [|z l IH]; simpl.
  - rewrite list_elem_of_singleton, elem_of_nil. tauto.
  - destruct (index x <? index z).
    + by rewrite elem_of_cons.
    + rewrite !elem_of_cons, IH. tauto.
Qed.

Lemma elem_of_sort_acc y l acc :
  y ∈ foldl (λ acc x, insert_sorted x acc) acc l ↔ y ∈ acc ∨ y ∈ l.
Proof.
  revert acc. induction l as [|x l IH]; intros acc; simpl.
  - rewrite elem_of_nil. tauto.
  - rewrite IH, elem_of_insert_sorted, elem_of_cons. tauto.
Qed.

Lemma elem_of_sort_by_index y l : y ∈ sort_by_index l ↔ y ∈ l.
Proof. unfold sort_by_index. rewrite elem_of_sort_acc, elem_of_nil. tauto. Qed.

Lemma elem_of_available fs e :
  e ∈ get_available_files fs ↔
  ∃ p, Fs.glob_match p = true ∧ is_Some (fs !! p) ∧ file_entry fs p = Some e.
Proof.
  unfold get_available_files.
  rewrite elem_of_sort_by_index, list_elem_of_omap.
  split; intros [p H]; exists p; rewrite elem_of_glob in *; tauto.
Qed.

Lemma file_entry_index fs p e : file_entry fs p = Some e → parse_index p = Some (index e).
Proof.
  unfold file_entry. destruct (parse_index p) as [i|]; simpl; [|done].
  destruct (Fs.exists_ _ _); [|done].
  destruct (Fs.read p fs) as [[]|]; try done.
  destruct (Fs.read _ fs) as [[]|]; try done.
  by intros [= <-].
Qed.

(** An entry depends on two files only: its address file and the balance
    file of its index. *)
Lemma file_entry_agree fs fs' p :
  fs' !! p = fs !! p →
  (∀ i, parse_index p = Some i → fs' !! balances_path i = fs !! balances_path i) →
  file_entry fs' p = file_entry fs p.
Proof.
  intros Hp Hb. unfold file_entry.
  destruct (parse_index p) as [i|]; simpl; [|done].
  specialize (Hb i eq_refl).
  unfold Fs.exists_, Fs.read. by rewrite Hp, Hb.
Qed.

Lemma create_new_files_lookup self fs p :
  p ≠ addresses_path (current_file_index self + 1) →
  p ≠ balances_path (current_file_index self + 1) →
  (create_new_files self fs).2 !! p = fs !! p.
Proof.
  intros H1 H2. unfold create_new_files, Fs.truncate. simpl.
  by rewrite !lookup_insert_ne.
Qed.

Lemma create_new_files_fresh self fs :
  let i := current_file_index self + 1 in
  (create_new_files self fs).2 !! addresses_path i = Some EmptyString ∧
  (create_new_files self fs).2 !! balances_path i = Some EmptyString.
Proof.
  unfold create_new_files, Fs.truncate. simpl. split.
  - rewrite lookup_insert_ne
      by (intros H; symmetry in H; by apply addresses_not_balances in H).
    apply lookup_insert_eq.
  - apply lookup_insert_eq.
Qed.

Lemma file_entry_fresh fs i :
  fs !! addresses_path i = Some EmptyString →
  fs !! balances_path i = Some EmptyString →
  file_entry fs (addresses_path i)
  = Some (FileInfo i (addresses_path i) (balances_path i) 0 0).
Proof.
  intros Ha Hb. unfold file_entry. rewrite parse_index_addresses. simpl.
  unfold Fs.exists_, Fs.read. rewrite Ha, Hb. done.
Qed.

(** C6: after a rotation the listing has the new index with both counts
    zero, and its entries for the previous index are those of before. *)
Theorem rotate_then_list (self : Scanner.t) (fs : Fs.t) :
  let '(i, self', fs') := create_new_files self fs in
  i = current_file_index self + 1 ∧
  current_file_index self' = i ∧
  FileInfo i (addresses_path i) (balances_path i) 0 0 ∈ get_available_files fs' ∧
  ∀ e, index e = current_file_index self →
       e ∈ get_available_files fs' ↔ e ∈ get_available_files fs.
Proof.
  pose proof (create_new_files_fresh self fs) as [Ha Hb].
  pose proof (create_new_files_lookup self fs) as Hother.
  destruct (create_new_files self fs) as [[i self'] fs'] eqn:E.
  assert (i = current_file_index self + 1) as -> by (by inversion E).
  assert (current_file_index self' = current_file_index self + 1)
    by (by inversion E).
  simpl in Ha, Hb, Hother.
  split_and!; [done|done|..].
  - apply elem_of_available. exists (addresses_path (current_file_index self + 1)).
    split_and!; [apply glob_match_addresses|by rewrite Ha|by apply file_entry_fresh].
  - intros e He.
    assert (Hsame : ∀ p, parse_index p = Some (index e) →
              fs' !! p = fs !! p ∧ file_entry fs' p = file_entry fs p).
    { intros p Hp.
      assert (fs' !! p = fs !! p) as Hl.
      { apply Hother.
        - intros ->. rewrite parse_index_addresses in Hp.
          injection Hp as Hp. lia.
        - intros ->. by rewrite parse_index_balances in Hp. }
      split; [done|]. apply file_entry_agree; [done|].
      intros j Hj. rewrite Hp in Hj. injection Hj as <-. apply Hother.
      + intros Hbad. symmetry in Hbad. by apply addresses_not_balances in Hbad.
      + intros Hbad%balances_path_inj. lia. }
    rewrite !elem_of_available.
    split; intros (p & Hm & Hin & Hent);
      pose proof (file_entry_index _ _ _ Hent) as Hp;
      destruct (Hsame p Hp) as [Hl Hf]; exists p;
      (split_and!; [done| |]); congruence.
Qed.

(** C10: a pair already on disk at the next index is emptied by the
    rotation. *)
Theorem rotate_truncates_existing (self : Scanner.t) (fs : Fs.t) (a b : string) :
  fs !! addresses_path (current_file_index self + 1) = Some a →
  fs !! balances_path (current_file_index self + 1) = Some b →
  let '(i, self', fs') := create_new_files self fs in
  i = current_file_index self + 1 ∧
  current_addresses_file self' = addresses_path i ∧
  current_balances_file self' = balances_path i ∧
  fs' !! addresses_path i = Some EmptyString ∧
  fs' !! balances_path i = Some EmptyString.
Proof.
  intros _ _.
  pose proof (create_new_files_fresh self fs) as [Ha Hb].
  destruct (create_new_files self fs) as [[i self'] fs'] eqn:E.
  inversion E; subst. done.
Qed.

Lemma rotate_truncates_existing_witness :
  let self := Examples.self_fresh in
  let fs := Examples.fs_sparse in
  fs !! addresses_path 2 = Some ("old" +:+ Examples.lf) ∧
  fs !! balances_path 2 = Some ("old - 1.00000000 BTC" +:+ Examples.lf) ∧
  let '(i, self', fs') := create_new_files self fs in
  i = 2 ∧
  current_addresses_file self' = addresses_path i ∧
  current_balances_file self' = balances_path i ∧
  fs' !! addresses_path i = Some EmptyString ∧
  fs' !! balances_path i = Some EmptyString.
Proof.
  split; [reflexivity|]. split; [reflexivity|].
  exact (rotate_truncates_existing Examples.self_fresh Examples.fs_sparse
           _ _ eq_refl eq_refl).
Defined.

(** * The scan loop *)

Lemma get_block_data_files env h w : files (get_block_data env h w).2 = files w.
Proof.
  unfold get_block_data.
  destruct (Env.block_service _ _ _) as [|st body]; [done|].
  by destruct (st =? 200).
Qed.

(** A failed request and a status other than 200 both give [None]. *)
Lemma get_block_data_absent env h w :
  (Env.block_service env (length (events w)) h = Env.RequestException ∨
   ∃ st body, Env.block_service env (length (events w)) h = Env.Response st body
              ∧ st ≠ 200) →
  (get_block_data env h w).1 = JNull.
Proof.
  unfold get_block_data. intros [->|(st & body & -> & Hst)]; [done|].
  apply Z.eqb_neq in Hst. by rewrite Hst.
Qed.

(** C4: at a height whose fetch returns nothing the loop leaves every
    file and both counters as they are and moves on to the next height. *)
Theorem absent_block_is_skipped (env : Env.t) (h : Z) (self : Scanner.t) (w : world) :
  (get_block_data env h w).1 = JNull →
  let '(e, h', self', w') := scan_step env h self w in
  e = None ∧ h' = h + 1 ∧ self' = self ∧ files w' = files w ∧
  total_addresses self' = total_addresses self ∧
  addresses_with_balance self' = addresses_with_balance self ∧
  files w' !! current_addresses_file self = files w !! current_addresses_file self ∧
  files w' !! current_balances_file self = files w !! current_balances_file self.
Proof.
  intros Habs. unfold scan_step.
  pose proof (get_block_data_files env h w) as Hf.
  destruct (get_block_data env h w) as [bd w1]. simpl in *. subst bd. simpl.
  rewrite Hf. done.
Qed.

Lemma absent_block_is_skipped_witness :
  (get_block_data Examples.env_one_block 101 Examples.w_fresh).1 = JNull ∧
  let '(e, h', self', w') :=
    scan_step Examples.env_one_block 101 Examples.self_fresh Examples.w_fresh in
  e = None ∧ h' = 101 + 1 ∧ self' = Examples.self_fresh ∧
  files w' = files Examples.w_fresh ∧
  total_addresses self' = total_addresses Examples.self_fresh ∧
  addresses_with_balance self' = addresses_with_balance Examples.self_fresh ∧
  files w' !! current_addresses_file Examples.self_fresh
    = files Examples.w_fresh !! current_addresses_file Examples.self_fresh ∧
  files w' !! current_balances_file Examples.self_fresh
    = files Examples.w_fresh !! current_balances_file Examples.self_fresh.
Proof.
  split; [reflexivity|].
  exact (absent_block_is_skipped Examples.env_one_block 101 Examples.self_fresh
           Examples.w_fresh eq_refl).
Defined.

(** The example of the specification: eight batches, five kept. *)
Lemma cleanup_five_of_eight :
  index <$> get_available_files Examples.fs_eight = [1; 2; 3; 4; 5; 6; 7; 8] ∧
  index <$> files_to_delete 5 Examples.fs_eight = [1; 2; 3] ∧
  index <$> get_available_files (cleanup_old_files 5 Examples.fs_eight)
    = [4; 5; 6; 7; 8] ∧
  files_to_delete 5 (cleanup_old_files 5 Examples.fs_eight) = [] ∧
  cleanup_old_files 5 (cleanup_old_files 5 Examples.fs_eight)
    = cleanup_old_files 5 Examples.fs_eight.
Proof. by vm_compute. Qed.

(** * Progress *)



(** C8: a progress file holding a JSON list makes [load_progress] raise,
    and with it the constructor. *)
Theorem load_progress_raises_on_list :
  Examples.fs_list_progress !! progress_file = Some "[]" ∧
  Json.loads "[]" = Some (JArr []) ∧
  load_progress Examples.fs_list_progress = Raise AttributeError ∧
  init Examples.fs_list_progress = Raise AttributeError.
Proof. by vm_compute. Qed.

(** * Text that can be written *)




(** * Balances *)

Lemma check_balance_events env a w :
  events (check_balance env a w).2 = events w ++ [Env.EvBalance (str a)] ∧
  files (check_balance env a w).2 = files w.
Proof.
  unfold check_balance.
  destruct (Env.balance_service _ _ _) as [|st data]; [done|].
  destruct (st =? 200); [|done]. by destruct (contains a data) as [[]|].
Qed.



(** * The address extractor *)

Lemma uint_beq_refl d : Decimal.uint_beq d d = true.
Proof. induction d; simpl; auto. Qed.

Lemma float_lit_eqb_refl x : float_lit_eqb x x = true.
Proof.
  destruct x as [neg i f e| neg |]; simpl; [|by destruct neg|done].
  rewrite N.eqb_refl, uint_beq_refl, Z.eqb_refl. by destruct neg.
Qed.

Lemma scalar_eqb_refl x : scalar_eqb x x = true.
Proof.
  destruct x as [|b|z|f|s]; simpl.
  - done.
  - by destruct b.
  - apply Z.eqb_refl.
  - by rewrite float_lit_eqb_refl.
  - apply String.eqb_refl.
Qed.

Lemma distinct_snoc l x :
  Spec.distinct l → existsb (scalar_eqb x) l = false → Spec.distinct (l ++ [x]).
Proof.
  unfold Spec.distinct. induction 1 as [|a l Ha Hl IH]; simpl; intros Hx.
  - repeat constructor.
  - apply orb_false_elim in Hx as [Hxa Hx]. constructor; [|by apply IH].
    apply Forall_app. split; [done|]. by constructor.
Qed.

Lemma distinct_NoDup l : Spec.distinct l → NoDup l.
Proof.
  unfold Spec.distinct. induction 1 as [|a l Ha Hl IH]; constructor; [|done].
  intros Hin. rewrite Forall_forall in Ha.
  specialize (Ha a Hin). by rewrite scalar_eqb_refl in Ha.
Qed.

Lemma kept_set_add pool s x : Spec.kept pool s → x ∈ pool → Spec.kept pool (set_add x s).
Proof.
  intros [Hd Hs] Hx. unfold set_add.
  destruct (existsb (scalar_eqb x) s) eqn:E; [done|].
  split; [by apply distinct_snoc|].
  intros y [Hy|Hy%list_elem_of_singleton]%elem_of_app; [auto|by subst].
Qed.

Lemma for_each_kept {A} pool (body : A → list scalar → list scalar * option exn) l s :
  (∀ x s, x ∈ l → Spec.kept pool s → Spec.kept pool (body x s).1) →
  Spec.kept pool s → Spec.kept pool (for_each body l s).1.
Proof.
  revert s. induction l as [|x l IH]; intros s Hbody Hs; simpl; [done|].
  pose proof (Hbody x s ltac:(left) Hs) as Hx.
  destruct (body x s) as [s' [e|]]; [done|].
  apply IH; [|done]. intros y t Hy. apply Hbody. by right.
Qed.

(** A string holds no field: what the specification reads off it is
    empty. *)
Ltac no_element :=
  let H := fresh in intros ? H; simpl in H; by apply elem_of_nil in H.

Lemma visit_output_kept pool output s :
  (∀ x, x ∈ Spec.output_address output → x ∈ pool) →
  Spec.kept pool s → Spec.kept pool (visit_output output s).1.
Proof.
  intros Hpool Hs. unfold visit_output.
  destruct output as [| | | |t|l|kvs]; simpl; try done.
  - by destruct (PyStr.contains "addr" t).
  - by destruct (existsb _ l).
  - unfold Spec.output_address in Hpool. simpl in Hpool.
    destruct (assoc "addr" kvs) as [v|]; simpl; [|done].
    destruct (to_scalar v) as [x|e]; simpl; [|done].
    apply kept_set_add; [done|]. apply Hpool. by left.
Qed.

Lemma visit_tx_kept pool tx s :
  (∀ output, output ∈ Spec.items (Spec.field "out" tx) →
     ∀ x, x ∈ Spec.output_address output → x ∈ pool) →
  Spec.kept pool s → Spec.kept pool (visit_tx tx s).1.
Proof.
  intros Hpool Hs. unfold visit_tx.
  destruct tx as [| | | | | |kvs]; simpl; try done.
  simpl in Hpool.
  destruct (assoc "out" kvs) as [outs|]; simpl; [|done].
  destruct outs as [| | | |t|l|kvs']; simpl; try done.
  - apply for_each_kept; [|done]. intros o s' [c [-> _]]%list_elem_of_fmap Hs'.
    apply visit_output_kept; [no_element|done].
  - apply for_each_kept; [|done]. intros o s' Ho Hs'.
    apply visit_output_kept; [|done]. by apply Hpool.
  - apply for_each_kept; [|done]. intros o s' [c [-> _]]%list_elem_of_fmap Hs'.
    apply visit_output_kept; [no_element|done].
Qed.

Lemma visit_block_kept pool block s :
  (∀ tx, tx ∈ Spec.sampled_transactions block →
     ∀ output, output ∈ Spec.items (Spec.field "out" tx) →
       ∀ x, x ∈ Spec.output_address output → x ∈ pool) →
  Spec.kept pool s → Spec.kept pool (visit_block block s).1.
Proof.
  intros Hpool Hs. unfold visit_block.
  destruct block as [| | | |t|l|kvs]; simpl; try done.
  - by destruct (PyStr.contains "tx" t).
  - by destruct (existsb _ l).
  - unfold Spec.sampled_transactions in Hpool. simpl in Hpool.
    destruct (assoc "tx" kvs) as [txs|]; simpl; [|done].
    destruct txs as [| | | |t|l|kvs']; simpl; try done.
    + apply for_each_kept; [|done]. intros tx s' [c [-> _]]%list_elem_of_fmap Hs'.
      apply visit_tx_kept; [no_element|done].
    + apply for_each_kept; [|done]. intros tx s' Htx Hs'.
      apply visit_tx_kept; [|done]. by apply Hpool.
Qed.

Lemma visit_block_data_kept block_data :
  Spec.kept (Spec.sampled_addresses block_data) (visit_block_data block_data).1.
Proof.
  assert (Hnil : Spec.kept (Spec.sampled_addresses block_data) []).
  { split; [constructor|]. by intros x Hx%elem_of_nil. }
  unfold visit_block_data.
  destruct block_data as [| | | |t|l|kvs]; simpl; try done.
  - by destruct (PyStr.contains "blocks" t).
  - by destruct (existsb _ l).
  - unfold Spec.sampled_addresses in *. simpl in *.
    destruct (assoc "blocks" kvs) as [blocks|]; simpl; [|done].
    destruct blocks as [| | | |t|l|kvs']; simpl; try done.
    + apply for_each_kept; [|done]. intros b s' [c [-> _]]%list_elem_of_fmap Hs'.
      apply visit_block_kept; [no_element|done].
    + apply for_each_kept; [|done]. intros b s' Hb Hs'.
      apply visit_block_kept; [|done]. intros tx Htx output Ho x Hx.
      apply list_elem_of_bind. exists b. split; [|done].
      apply list_elem_of_bind. exists tx. split; [|done].
      apply list_elem_of_bind. exists output. done.
    + apply for_each_kept; [|done]. intros b s' [c [-> _]]%list_elem_of_fmap Hs'.
      apply visit_block_kept; [no_element|done].
Qed.

(** C7: the extractor returns a list whatever the payload, and whatever
    exception stopped the walk; the list has no duplicates, holds only
    output addresses of the first three transactions of the block segments,
    and is no longer than the number of distinct such addresses. *)
Theorem extractor_bounded_distinct_total (block_data : json) :
  let l := extract_addresses_from_block block_data in
  l = (visit_block_data block_data).1 ∧
  NoDup l ∧
  Spec.distinct l ∧
  (∀ x, x ∈ l → x ∈ Spec.sampled_addresses block_data) ∧
  (length l ≤ length (remove_dups (Spec.sampled_addresses block_data)))%nat.
Proof.
  destruct (visit_block_data_kept block_data) as [Hd Hs].
  pose proof (distinct_NoDup _ Hd) as Hnd.
  cbv zeta. unfold extract_addresses_from_block.
  split_and!; try done.
  apply submseteq_length, NoDup_submseteq; [done|].
  intros x Hx. apply elem_of_remove_dups. auto.
Qed.

(** * The JSON codec on the progress record *)

#[local] Arguments String.append !_ _ : simpl nomatch.

Lemma append_assoc (s t u : string) : (s +:+ t) +:+ u = s +:+ (t +:+ u).
Proof. induction s as [|a s IH]; simpl; [done|]. by rewrite IH. Qed.

Lemma append_nil_r (s : string) : s +:+ EmptyString = s.
Proof. induction s as [|a s IH]; simpl; [done|]. by rewrite IH. Qed.

Lemma esc_char_plain a : Json.is_plain a = true → Json.esc_char a = String a EmptyString.
Proof.
  unfold Json.is_plain, Json.esc_char.
  intros [[H1 H2]%andb_prop H3]%andb_prop.
  apply negb_true_iff in H1, H2. apply Z.leb_le in H3. rewrite H1, H2.
  repeat (destruct (_ =? _) eqn:E; [apply Z.eqb_eq in E; lia|clear E]).
  destruct (_ <? 32) eqn:E; [apply Z.ltb_lt in E; lia|done].
Qed.

Lemma esc_string_plain k : PyStr.all_chars Json.is_plain k = true → Json.esc_string k = k.
Proof.
  induction k as [|a k IH]; simpl; [done|].
  intros [Ha Hk]%andb_prop. by rewrite (esc_char_plain a Ha), (IH Hk).
Qed.

Lemma lex_ws rest r :
  Json.lex Json.LxStart rest = Some r →
  Json.lex Json.LxStart (String " " rest) = Some r.
Proof. intros H. simpl. by rewrite H. Qed.

Lemma lex_punct a t rest r :
  Json.start_step a = Some ([t], Json.LxStart) →
  Json.lex Json.LxStart rest = Some r →
  Json.lex Json.LxStart (String a rest) = Some (t :: r).
Proof. intros Ha H. cbn [Json.lex]. rewrite Ha. simpl. by rewrite H. Qed.

Lemma lex_string_body acc k rest r :
  PyStr.all_chars Json.is_plain k = true →
  Json.lex Json.LxStart rest = Some r →
  Json.lex (Json.LxStr acc) (k +:+ String Json.dquote rest)
  = Some (Json.TVal (JStr (acc +:+ k)) :: r).
Proof.
  revert acc. induction k as [|a k IH]; intros acc Hk Hr.
  - rewrite append_nil, append_nil_r. cbn [Json.lex].
    rewrite Ascii.eqb_refl. by rewrite Hr.
  - cbn [PyStr.all_chars] in Hk. apply andb_prop in Hk as [Ha Hk].
    rewrite append_cons. cbn [Json.lex].
    unfold Json.is_plain in Ha.
    apply andb_prop in Ha as [[H1 H2]%andb_prop H3].
    apply negb_true_iff in H1, H2. apply Z.leb_le in H3. rewrite H1, H2.
    destruct (_ <? 32) eqn:E; [apply Z.ltb_lt in E; lia|].
    rewrite IH by done. unfold Json.snoc.
    by rewrite append_assoc.
Qed.

Lemma lex_quote k rest r :
  PyStr.all_chars Json.is_plain k = true →
  Json.lex Json.LxStart rest = Some r →
  Json.lex Json.LxStart (Json.quote k +:+ rest) = Some (Json.TVal (JStr k) :: r).
Proof.
  intros Hk Hr. unfold Json.quote. rewrite esc_string_plain by done.
  rewrite append_cons, append_assoc, append_cons, append_nil.
  cbn [Json.lex]. change (Json.start_step Json.dquote)
    with (Some (@nil Json.token, Json.LxStr EmptyString)).
  cbn [mbind option_bind]. rewrite (lex_string_body EmptyString k rest r) by done.
  done.
Qed.

Lemma start_step_word a :
  Json.is_word_char a = true →
  Json.start_step a = Some ([], Json.LxWord (String a EmptyString)).
Proof. destruct a as [[] [] [] [] [] [] [] []]; by vm_compute. Qed.

Lemma lex_word_body acc w a rest :
  PyStr.all_chars Json.is_word_char w = true →
  Json.lex (Json.LxWord acc) (w +:+ String a rest)
  = Json.lex (Json.LxWord (acc +:+ w)) (String a rest).
Proof.
  revert acc. induction w as [|c w IH]; intros acc Hw.
  - by rewrite append_nil, append_nil_r.
  - cbn [PyStr.all_chars] in Hw. apply andb_prop in Hw as [Hc Hw].
    rewrite append_cons. cbn [Json.lex]. rewrite Hc, IH by done.
    unfold Json.snoc. by rewrite append_assoc.
Qed.

Lemma lex_word w v a ts st rest r :
  w ≠ EmptyString →
  PyStr.all_chars Json.is_word_char w = true →
  Json.word_value w = Some v →
  Json.is_word_char a = false →
  Json.start_step a = Some (ts, st) →
  Json.lex st rest = Some r →
  Json.lex Json.LxStart (w +:+ String a rest) = Some (Json.TVal v :: ts ++ r).
Proof.
  intros Hne Hw Hv Ha Hst Hr.
  destruct w as [|c w]; [done|].
  cbn [PyStr.all_chars] in Hw. apply andb_prop in Hw as [Hc Hw].
  rewrite append_cons. cbn [Json.lex].
  rewrite (start_step_word c Hc). cbn [mbind option_bind].
  rewrite lex_word_body by done.
  cbn [Json.lex]. rewrite Ha.
  change (String c EmptyString +:+ w) with (String c w).
  rewrite Hv. cbn [mbind option_bind]. rewrite Hst. simpl. by rewrite Hr.
Qed.

(** ** Numbers read back *)

Lemma eqb_closed (p : ascii → bool) w kw :
  PyStr.all_chars p w = true → PyStr.all_chars p kw = false →
  String.eqb w kw = false.
Proof.
  intros Hw Hkw. apply String.eqb_neq. intros ->. congruence.
Qed.

Lemma cut_none p s :
  PyStr.all_chars (λ a, negb (p a)) s = true → Json.cut p s = (s, None).
Proof.
  induction s as [|a s IH]; simpl; [done|].
  intros [Ha Hs]%andb_prop. apply negb_true_iff in Ha. by rewrite Ha, (IH Hs).
Qed.

Lemma cut_app p s a t :
  PyStr.all_chars (λ a, negb (p a)) s = true → p a = true →
  Json.cut p (s +:+ String a t) = (s, Some t).
Proof.
  intros Hs Ha. induction s as [|c s IH]; simpl.
  - by rewrite Ha.
  - simpl in Hs. apply andb_prop in Hs as [Hc Hs].
    apply negb_true_iff in Hc. by rewrite Hc, (IH Hs).
Qed.

Lemma digits_no p s :
  (∀ a, PyStr.is_digit a = true → p a = false) →
  PyStr.all_chars PyStr.is_digit s = true →
  PyStr.all_chars (λ a, negb (p a)) s = true.
Proof.
  intros Hp. apply all_chars_weaken. intros a Ha. by rewrite (Hp a Ha).
Qed.

Lemma digit_not_e a : PyStr.is_digit a = true → Json.is_e a = false.
Proof. destruct a as [[] [] [] [] [] [] [] []]; by vm_compute. Qed.

Lemma digit_not_dot a : PyStr.is_digit a = true → Json.is_dot a = false.
Proof. destruct a as [[] [] [] [] [] [] [] []]; by vm_compute. Qed.

Lemma digit_not_minus a : PyStr.is_digit a = true → Ascii.eqb a "-" = false.
Proof. destruct a as [[] [] [] [] [] [] [] []]; by vm_compute. Qed.

Lemma N_to_uint_norm n : Decimal.unorm (N.to_uint n) = N.to_uint n.
Proof.
  rewrite <- (DecimalN.Unsigned.of_to n) at 2.
  by rewrite DecimalN.Unsigned.to_of.
Qed.

Lemma all_digits_uint d :
  d ≠ Decimal.Nil → Json.all_digits (NilEmpty.string_of_uint d) = Some d.
Proof.
  intros Hd. unfold Json.all_digits.
  pose proof (uint_text_nonempty d Hd).
  destruct (NilEmpty.string_of_uint d) eqn:E; [done|].
  rewrite <- E. apply NilEmpty.usu.
Qed.

Lemma int_part_of_N n : Json.int_part (PyStr.of_N n) = Some n.
Proof.
  unfold Json.int_part. rewrite of_N_text, all_digits_uint by apply N_to_uint_nonnil.
  simpl. rewrite N_to_uint_norm, uint_beq_refl.
  by rewrite DecimalN.Unsigned.of_to.
Qed.

Lemma unsigned_number_int neg n :
  Json.unsigned_number neg (PyStr.of_N n)
  = Some (JInt (if neg then - Z.of_N n else Z.of_N n)).
Proof.
  unfold Json.unsigned_number.
  rewrite (cut_none Json.is_e) by (apply digits_no; [apply digit_not_e|apply of_N_digits]).
  rewrite (cut_none Json.is_dot) by (apply digits_no; [apply digit_not_dot|apply of_N_digits]).
  by rewrite int_part_of_N.
Qed.

Lemma of_N_head n : ∃ a r, PyStr.of_N n = String a r ∧ PyStr.is_digit a = true.
Proof.
  pose proof (of_N_digits n) as Hd. pose proof (of_N_nonempty n) as Hne.
  destruct (PyStr.of_N n) as [|a r]; [done|].
  simpl in Hd. apply andb_prop in Hd as [Ha _]. eauto.
Qed.

Lemma num_word_not_keyword w :
  PyStr.all_chars Json.is_num_char w = true → Json.keywords_differ w.
Proof. intros Hw. repeat split; by apply (eqb_closed Json.is_num_char). Qed.

Lemma word_value_number w :
  Json.keywords_differ w →
  Json.word_value w =
  match w with
  | String a r =>
      if Ascii.eqb a "-" then Json.unsigned_number true r
      else Json.unsigned_number false w
  | EmptyString => None
  end.
Proof.
  intros (H1 & H2 & H3 & H4 & H5 & H6). unfold Json.word_value.
  by rewrite H1, H2, H3, H4, H5, H6.
Qed.

Lemma int_char_num a : PyStr.is_int_char a = true → Json.is_num_char a = true.
Proof.
  unfold PyStr.is_int_char, Json.is_num_char.
  intros [->| ->]%orb_prop; by rewrite ?orb_true_r.
Qed.

Lemma digit_num a : PyStr.is_digit a = true → Json.is_num_char a = true.
Proof. unfold Json.is_num_char. by intros ->. Qed.

Lemma num_char_word a : Json.is_num_char a = true → Json.is_word_char a = true.
Proof. destruct a as [[] [] [] [] [] [] [] []]; by vm_compute. Qed.

Lemma word_value_of_int z : Json.word_value (PyStr.of_int z) = Some (JInt z).
Proof.
  rewrite word_value_number
    by (apply num_word_not_keyword;
        eapply all_chars_weaken; [apply int_char_num|apply of_int_chars]).
  rewrite of_int_text.
  destruct (z <? 0) eqn:Hz.
  - rewrite append_cons, append_nil. rewrite Ascii.eqb_refl, unsigned_number_int.
    do 2 f_equal. apply Z.ltb_lt in Hz. lia.
  - rewrite append_nil.
    pose proof (unsigned_number_int false (Z.abs_N z)) as Hu.
    destruct (of_N_head (Z.abs_N z)) as (a & r & E & Ha).
    rewrite E in *. rewrite (digit_not_minus a Ha), Hu.
    do 2 f_equal. apply Z.ltb_ge in Hz. lia.
Qed.

Lemma pad_digits (d : string) :
  PyStr.all_chars PyStr.is_digit d = true →
  PyStr.all_chars PyStr.is_digit
    (if (String.length d <? 2)%nat then "0" +:+ d else d) = true.
Proof. intros Hd. by destruct (_ <? _)%nat. Qed.

Lemma exp_text_digits e :
  ∃ s d, exp_text e = String s d ∧ (s = "-"%char ∨ s = "+"%char) ∧
         (s = "-"%char ↔ e < 0) ∧
         PyStr.all_chars PyStr.is_digit d = true ∧
         ∃ u, Json.all_digits d = Some u ∧ Z.of_N (N.of_uint u) = Z.abs e.
Proof.
  unfold exp_text. fold (PyStr.of_N (Z.abs_N e)).
  pose proof (of_N_digits (Z.abs_N e)) as Hd.
  pose proof (of_N_nonempty (Z.abs_N e)) as Hne.
  assert (Hu : Json.all_digits (PyStr.of_N (Z.abs_N e)) = Some (N.to_uint (Z.abs_N e))).
  { rewrite of_N_text. apply all_digits_uint, N_to_uint_nonnil. }
  set (d := PyStr.of_N (Z.abs_N e)) in *.
  exists (if e <? 0 then "-"%char else "+"%char),
         (if (String.length d <? 2)%nat then "0" +:+ d else d).
  split_and!.
  - by destruct (e <? 0).
  - destruct (e <? 0); auto.
  - destruct (e <? 0) eqn:E; [apply Z.ltb_lt in E|apply Z.ltb_ge in E];
      split; try done; lia.
  - by apply pad_digits.
  - destruct (_ <? 2)%nat.
    + exists (Decimal.D0 (N.to_uint (Z.abs_N e))). split.
      * unfold Json.all_digits in *. simpl. destruct d; [done|]. by rewrite Hu.
      * change (N.of_uint (Decimal.D0 ?u)) with (N.of_uint u).
        rewrite DecimalN.Unsigned.of_to. lia.
    + exists (N.to_uint (Z.abs_N e)). split; [done|].
      rewrite DecimalN.Unsigned.of_to. lia.
Qed.

Lemma exp_part_text e : Json.exp_part (exp_text e) = Some e.
Proof.
  destruct (exp_text_digits e) as (s & d & -> & Hs & Hneg & Hd & u & Hu & Hv).
  unfold Json.exp_part.
  destruct Hs as [-> | ->].
  - rewrite Ascii.eqb_refl, Hu. simpl. f_equal.
    assert (e < 0) by (by apply Hneg). lia.
  - change (Ascii.eqb "+" "-") with false. rewrite Ascii.eqb_refl, Hu. simpl.
    f_equal. assert (¬ e < 0) by (intros H%Hneg; done). lia.
Qed.

Lemma exp_text_chars e : PyStr.all_chars Json.is_num_char (exp_text e) = true.
Proof.
  destruct (exp_text_digits e) as (s & d & -> & Hs & _ & Hd & _).
  simpl. rewrite (all_chars_weaken _ _ _ digit_num Hd).
  by destruct Hs as [-> | ->].
Qed.

Lemma exp_text_no_e e :
  PyStr.all_chars (λ a, negb (Json.is_e a)) (exp_text e) = true.
Proof.
  destruct (exp_text_digits e) as (s & d & -> & Hs & _ & Hd & _).
  simpl. rewrite (digits_no Json.is_e d digit_not_e Hd).
  by destruct Hs as [-> | ->].
Qed.

(** The text of a literal after its sign. *)
Lemma lit_text_body neg i frac e :
  lit_text neg i frac e =
  (if neg then "-" else EmptyString) +:+
  (PyStr.of_N i +:+
   match frac with
   | Decimal.Nil => "e" +:+ exp_text e
   | _ => "." +:+ NilEmpty.string_of_uint frac +:+
          (if e =? 0 then EmptyString else "e" +:+ exp_text e)
   end).
Proof. reflexivity. Qed.

Lemma unsigned_number_float neg i frac e :
  Json.unsigned_number neg
    (PyStr.of_N i +:+
     match frac with
     | Decimal.Nil => "e" +:+ exp_text e
     | _ => "." +:+ NilEmpty.string_of_uint frac +:+
            (if e =? 0 then EmptyString else "e" +:+ exp_text e)
     end)
  = Some (JFloat (FloatLit neg i frac e)).
Proof.
  pose proof (digits_no Json.is_e _ digit_not_e (of_N_digits i)) as Hie.
  pose proof (digits_no Json.is_dot _ digit_not_dot (of_N_digits i)) as Hid.
  unfold Json.unsigned_number.
  destruct (decide (frac = Decimal.Nil)) as [->|Hfrac].
  - change ("e" +:+ exp_text e) with (String "e" (exp_text e)).
    rewrite (cut_app Json.is_e) by done.
    rewrite (cut_none Json.is_dot) by done.
    rewrite int_part_of_N. simpl. by rewrite exp_part_text.
  - pose proof (digits_no Json.is_e _ digit_not_e (uint_digits frac)) as Hfe.
    pose proof (all_digits_uint frac Hfrac) as Hfd.
    assert (E : match frac with
                | Decimal.Nil => "e" +:+ exp_text e
                | _ => "." +:+ NilEmpty.string_of_uint frac +:+
                       (if e =? 0 then EmptyString else "e" +:+ exp_text e)
                end = String "." (NilEmpty.string_of_uint frac +:+
                       (if e =? 0 then EmptyString else "e" +:+ exp_text e)))
      by (by destruct frac).
    rewrite E. clear E.
    destruct (e =? 0) eqn:He.
    + apply Z.eqb_eq in He. subst e. rewrite append_nil_r.
      rewrite (cut_none Json.is_e).
      2:{ rewrite all_chars_app, Hie. simpl. by rewrite Hfe. }
      rewrite (cut_app Json.is_dot) by done.
      rewrite int_part_of_N. simpl. by rewrite Hfd.
    + change (String "." (NilEmpty.string_of_uint frac +:+ "e" +:+ exp_text e))
        with ("." +:+ (NilEmpty.string_of_uint frac +:+ String "e" (exp_text e))).
      rewrite <- !append_assoc.
      rewrite (cut_app Json.is_e).
      2:{ rewrite !all_chars_app, Hie, Hfe. done. }
      2:{ done. }
      rewrite append_assoc.
      change ("." +:+ NilEmpty.string_of_uint frac)
        with (String "." (NilEmpty.string_of_uint frac)).
      rewrite (cut_app Json.is_dot) by done.
      rewrite int_part_of_N. simpl. rewrite Hfd. simpl.
      rewrite exp_part_text. simpl. done.
Qed.

Lemma lit_text_chars neg i frac e :
  PyStr.all_chars Json.is_num_char (lit_text neg i frac e) = true.
Proof.
  rewrite lit_text_body, !all_chars_app.
  rewrite (all_chars_weaken _ _ _ digit_num (of_N_digits i)).
  assert (PyStr.all_chars Json.is_num_char
            (if neg then "-" else EmptyString) = true) as -> by (by destruct neg).
  simpl. destruct frac; simpl; rewrite ?all_chars_app, ?exp_text_chars;
    rewrite ?(all_chars_weaken _ _ _ digit_num (uint_digits _));
    simpl; try done; destruct (e =? 0); simpl; by rewrite ?exp_text_chars.
Qed.

Lemma word_value_lit neg i frac e :
  Json.word_value (lit_text neg i frac e) = Some (JFloat (FloatLit neg i frac e)).
Proof.
  rewrite word_value_number by apply num_word_not_keyword, lit_text_chars.
  rewrite lit_text_body.
  pose proof (unsigned_number_float neg i frac e) as Hu.
  destruct neg.
  - rewrite append_cons, append_nil. by rewrite Ascii.eqb_refl.
  - rewrite append_nil.
    destruct (of_N_head i) as (a & r & E & Ha).
    rewrite E in *. rewrite append_cons in *. by rewrite (digit_not_minus a Ha).
Qed.

Lemma word_value_float f : Json.word_value (Json.float_json f) = Some (JFloat f).
Proof.
  destruct f as [neg i frac e|[]|]; [apply word_value_lit|done..].
Qed.

(** ** The progress record, written and read back *)

Lemma of_int_word z :
  PyStr.of_int z ≠ EmptyString ∧
  PyStr.all_chars Json.is_word_char (PyStr.of_int z) = true.
Proof.
  split.
  - rewrite of_int_text. pose proof (of_N_nonempty (Z.abs_N z)).
    destruct (z <? 0); [done|]. by rewrite append_nil.
  - eapply all_chars_weaken; [|apply of_int_chars].
    intros a Ha. by apply num_char_word, int_char_num.
Qed.

Lemma float_json_word f :
  Json.float_json f ≠ EmptyString ∧
  PyStr.all_chars Json.is_word_char (Json.float_json f) = true.
Proof.
  destruct f as [neg i frac e|[]|]; [|done..].
  split.
  - simpl. rewrite lit_text_body. pose proof (of_N_nonempty i).
    destruct neg; [done|]. rewrite append_nil.
    destruct (PyStr.of_N i); done.
  - eapply all_chars_weaken; [apply num_char_word|apply lit_text_chars].
Qed.

Lemma dumps_progress self b now :
  Json.dumps (progress_data self b now) =
  "{" +:+ Json.quote "current_block" +:+ ": " +:+ PyStr.of_int b +:+ ", " +:+
  Json.quote "timestamp" +:+ ": " +:+ Json.float_json now +:+ ", " +:+
  Json.quote "total_addresses" +:+ ": " +:+
    PyStr.of_int (total_addresses self) +:+ ", " +:+
  Json.quote "addresses_with_balance" +:+ ": " +:+
    PyStr.of_int (addresses_with_balance self) +:+ ", " +:+
  Json.quote "current_file_index" +:+ ": " +:+
    PyStr.of_int (current_file_index self) +:+ "}".
Proof.
  unfold progress_data. cbn [Json.dumps]. by rewrite !append_assoc.
Qed.

(** One member of the record followed by the separator [a]. *)
Lemma lex_member k w v a t rest r :
  PyStr.all_chars Json.is_plain k = true →
  w ≠ EmptyString ∧ PyStr.all_chars Json.is_word_char w = true →
  Json.word_value w = Some v →
  Json.is_word_char a = false →
  Json.start_step a = Some ([t], Json.LxStart) →
  Json.lex Json.LxStart rest = Some r →
  Json.lex Json.LxStart (Json.quote k +:+ ": " +:+ w +:+ String a rest)
  = Some (Json.TVal (JStr k) :: Json.TColon :: Json.TVal v :: t :: r).
Proof.
  intros Hk [Hne Hw] Hv Ha Hst Hr.
  apply lex_quote; [done|].
  change (": " +:+ w +:+ String a rest) with (String ":" (String " " (w +:+ String a rest))).
  apply lex_punct; [done|]. apply lex_ws.
  by apply (lex_word w v a [t] Json.LxStart rest r).
Qed.

Lemma lex_progress self b now :
  Json.lex Json.LxStart (Json.dumps (progress_data self b now)) =
  Some [Json.TLBrace;
        Json.TVal (JStr "current_block"); Json.TColon; Json.TVal (JInt b);
        Json.TComma;
        Json.TVal (JStr "timestamp"); Json.TColon; Json.TVal (JFloat now);
        Json.TComma;
        Json.TVal (JStr "total_addresses"); Json.TColon;
        Json.TVal (JInt (total_addresses self)); Json.TComma;
        Json.TVal (JStr "addresses_with_balance"); Json.TColon;
        Json.TVal (JInt (addresses_with_balance self)); Json.TComma;
        Json.TVal (JStr "current_file_index"); Json.TColon;
        Json.TVal (JInt (current_file_index self)); Json.TRBrace].
Proof.
  rewrite dumps_progress.
  change ("{" +:+ ?x) with (String "{" x).
  apply lex_punct; [done|].
  repeat
    (change (", " +:+ ?x) with (String "," (String " " x));
     apply lex_member;
     [done|auto using of_int_word, float_json_word
      |auto using word_value_of_int, word_value_float|done|done|];
     apply lex_ws).
  change (PyStr.of_int (current_file_index self) +:+ "}")
    with (PyStr.of_int (current_file_index self) +:+ String "}" EmptyString).
  apply lex_member;
    [done|apply of_int_word|apply word_value_of_int|done|done|done].
Qed.

Lemma loads_dumps_progress self b now :
  Json.loads (Json.dumps (progress_data self b now))
  = Some (progress_data self b now).
Proof. unfold Json.loads. rewrite lex_progress. reflexivity. Qed.

Lemma utf8_ascii lo hi s :
  PyStr.all_chars Fs.is_ascii s = true → Fs.utf8_go 0 lo hi s = true.
Proof.
  revert lo hi. induction s as [|a s IH]; intros lo hi; simpl; [done|].
  intros [Ha Hs]%andb_prop. unfold Fs.is_ascii in Ha. rewrite Ha. by apply IH.
Qed.

Lemma word_char_ascii a : Json.is_word_char a = true → Fs.is_ascii a = true.
Proof. destruct a as [[] [] [] [] [] [] [] []]; by vm_compute. Qed.

Lemma dumps_progress_ascii self b now :
  PyStr.all_chars Fs.is_ascii (Json.dumps (progress_data self b now)) = true.
Proof.
  rewrite dumps_progress, !all_chars_app.
  rewrite !(all_chars_weaken _ _ _ word_char_ascii (proj2 (of_int_word _))).
  rewrite (all_chars_weaken _ _ _ word_char_ascii (proj2 (float_json_word _))).
  done.
Qed.

Lemma load_progress_dumps fs self b now :
  fs !! progress_file = Some (Json.dumps (progress_data self b now)) →
  load_progress fs = Ok (JInt b).
Proof.
  intros H. unfold load_progress, Fs.read. rewrite H. cbn [mbind option_bind].
  unfold Fs.utf8_valid. rewrite utf8_ascii by apply dumps_progress_ascii.
  by rewrite loads_dumps_progress.
Qed.

(** C2 as the code has it: what [load_progress] gives back after
    [save_progress] is the block number alone; the other fields are in the
    file, and no method reads them. *)
Theorem load_after_save_returns_block (env : Env.t) (self : Scanner.t) (b : Z)
  (w : world) :
  let w' := save_progress env self b w in
  load_progress (files w') = Ok (JInt b) ∧
  ∃ text, files w' !! progress_file = Some text ∧
          Json.loads text
          = Some (progress_data self b (Env.clock env (length (events w)))).
Proof.
  cbv zeta. unfold save_progress. simpl. split.
  - eapply load_progress_dumps. apply lookup_insert_eq.
  - eexists. split; [apply lookup_insert_eq|apply loads_dumps_progress].
Qed.

(** C2 as stated fails: seven addresses counted and saved, and the value
    loaded is not the record; a fresh scanner over the same files counts
    from zero. *)
Lemma load_after_save_is_not_the_record :
  let self := Examples.self_counted in
  let w' := save_progress Examples.env_one_block self 100 Examples.w_fresh in
  load_progress (files w') ≠ Ok (progress_data self 100 Examples.noon) ∧
  load_progress (files w') = Ok (JInt 100) ∧
  ∃ self' fs', init (files w') = Ok (self', fs') ∧
               current_block self' = JInt 100 ∧
               total_addresses self' = 0 ∧ addresses_with_balance self' = 0.
Proof.
  cbv zeta. split_and!.
  - by vm_compute.
  - by vm_compute.
  - eexists _, _. split; [vm_compute; reflexivity|]. done.
Qed.

(** * One run of the scan loop *)

Lemma scan_step_absent env h self w :
  Env.absent (Env.block_service env (length (events w)) h) →
  scan_step env h self w
  = (None, h + 1, self, World (files w) (events w ++ [Env.EvFetch h])).
Proof.
  unfold scan_step, get_block_data, Env.absent.
  destruct (Env.block_service _ _ _) as [|st body]; [done|].
  intros Hst%Z.eqb_neq. by rewrite Hst.
Qed.

(** A turn of the loop either ends it with an exception or moves on to
    the next height. *)
Lemma scan_step_next env h self w e h' self' w' :
  scan_step env h self w = (e, h', self', w') → e = None → h' = h + 1.
Proof.
  unfold scan_step.
  destruct (get_block_data env h w) as [bd w1].
  destruct (negb (truthy bd)); [by intros [= <- <- <- <-]|].
  destruct (process_addresses _ _ _ _) as [[[e1|] s1] w2]; intros [= <- <- <- <-]; done.
Qed.

(** The bound [scan_blocks] gives the loop is enough: the call returns. *)
Lemma scan_loop_total fuel env end_block h self w :
  (end_block - h + 1 ≤ Z.of_nat fuel) →
  ∃ r, scan_loop fuel env end_block h self w = Some r.
Proof.
  revert h self w. induction fuel as [|fuel IH]; intros h self w Hf; simpl.
  - assert ((h <=? end_block) = false) as -> by (apply Z.leb_gt; lia).
    simpl. eauto.
  - destruct ((h <=? end_block) && running env self w); [|eauto].
    destruct (scan_step env h self w) as [[[[e|] h'] self'] w'] eqn:E; [eauto|].
    pose proof (scan_step_next _ _ _ _ _ _ _ _ E eq_refl) as ->.
    apply IH. lia.
Qed.

Lemma scan_blocks_total env start_block end_block self w :
  ∃ r, scan_blocks env start_block end_block self w = Some r.
Proof.
  unfold scan_blocks.
  edestruct (scan_loop_total
               (Z.to_nat (default (start_block + default_run) end_block
                          - start_block + 1)) env
               (default (start_block + default_run) end_block) start_block
               (set_running true self) w) as [[[h s] w'] ->]; [lia|].
  simpl. eauto.
Qed.

(** The address [X] with a zero balance: the address log gains the line,
    the counter one, and nothing else changes. *)
Lemma process_address_zero env self w :
  (∀ n, Env.balance_service env n "X"
        = Env.Response 200 (Examples.balance_of "X" 0)) →
  process_address env (SStr "X") self w
  = (None, add_total self,
     World (<[current_addresses_file self :=
                default EmptyString (files w !! current_addresses_file self)
                +:+ "X" +:+ Examples.lf]> (files w))
           (events w ++ [Env.EvBalance "X"])).
Proof.
  intros Hbal. unfold process_address, Fs.append.
  change (Fs.utf8_valid (address_line (SStr "X"))) with true. cbv iota.
  unfold check_balance. cbn [events files str]. rewrite Hbal.
  change (200 =? 200) with true. cbv iota.
  change (contains (SStr "X") (Examples.balance_of "X" 0)) with (Ok true : res bool).
  cbv iota.
  change (bind (getitem (Examples.balance_of "X" 0) (SStr "X")) _)
    with (Ok zero : res pyfloat).
  cbv iota. change (float_pos zero) with false. done.
Qed.

(** The turn at the one block that holds the address [X]: progress is
    saved with this height. *)
Lemma scan_step_one_address env h self w bd :
  Env.block_service env (length (events w)) h = Env.Response 200 bd →
  truthy bd = true →
  extract_addresses_from_block bd = [SStr "X"] →
  (∀ n, Env.balance_service env n "X"
        = Env.Response 200 (Examples.balance_of "X" 0)) →
  scan_step env h self w
  = (None, h + 1, add_total self,
     sleep 2 (save_progress env (add_total self) h
       (World (<[current_addresses_file self :=
                   default EmptyString (files w !! current_addresses_file self)
                   +:+ "X" +:+ Examples.lf]> (files w))
              ((events w ++ [Env.EvFetch h]) ++ [Env.EvBalance "X"])))).
Proof.
  intros Hblock Htruthy Hextract Hbal.
  unfold scan_step, get_block_data. rewrite Hblock.
  change (200 =? 200) with true. cbv iota. rewrite Htruthy, Hextract.
  cbn [negb process_addresses]. rewrite process_address_zero by done.
  done.
Qed.

(** C1 as the code has it: start at 100 and run over the two heights 100
    and 101; block 100 holds the single address [X] with a zero balance,
    height 101 gives nothing.  The address log ends as the one line [X],
    the balance log empty, one address counted, none with a balance; the
    progress file holds block 100, the last height whose fetch
    succeeded. *)
Theorem scan_one_block_scenario (env : Env.t) (self : Scanner.t) (w : world)
  (bd : json) :
  (∀ n, Env.block_service env n 100 = Env.Response 200 bd) →
  truthy bd = true →
  extract_addresses_from_block bd = [SStr "X"] →
  (∀ n, Env.absent (Env.block_service env n 101)) →
  (∀ n, Env.balance_service env n "X"
        = Env.Response 200 (Examples.balance_of "X" 0)) →
  (∀ n, Env.stop_requested env n = false) →
  total_addresses self = 0 →
  addresses_with_balance self = 0 →
  files w !! current_addresses_file self = Some EmptyString →
  files w !! current_balances_file self = Some EmptyString →
  current_addresses_file self ≠ current_balances_file self →
  progress_file ≠ current_addresses_file self →
  progress_file ≠ current_balances_file self →
  ∃ s self' w',
    scan_blocks env 100 (Some 101) self w = Some (s, self', w') ∧
    files w' !! current_addresses_file self = Some ("X" +:+ Examples.lf) ∧
    files w' !! current_balances_file self = Some EmptyString ∧
    load_progress (files w') = Ok (JInt 100) ∧
    total_addresses self' = 1 ∧
    addresses_with_balance self' = 0 ∧
    sum_total_addresses s = 1 ∧
    sum_addresses_with_balance s = 0.
Proof.
  intros Hblock Htruthy Hextract H101 Hbal Hstop Htot Hawb Ha Hb Hab Hpa Hpb.
  unfold scan_blocks.
  change (Z.to_nat (default (100 + default_run) (Some 101) - 100 + 1)) with 2%nat.
  change (default (100 + default_run) (Some 101)) with 101.
  cbn [scan_loop]. unfold running at 1. rewrite Hstop.
  change (100 <=? 101) with true. cbn [is_running set_running andb negb].
  rewrite (scan_step_one_address env 100 _ w bd) by done.
  unfold running at 1. rewrite Hstop.
  change (100 + 1 <=? 101) with true. cbn [is_running set_running add_total andb negb].
  rewrite scan_step_absent by apply H101.
  change (100 + 1 + 1 <=? 101) with false. cbn [andb mbind option_bind].
  eexists _, _, _. split; [reflexivity|].
  cbn [files sleep save_progress set_running add_total current_addresses_file
       current_balances_file total_addresses addresses_with_balance
       sum_current_block sum_total_addresses sum_addresses_with_balance].
  rewrite Ha, Htot, Hawb.
  split_and!; try done.
  - rewrite lookup_insert_ne by done. by rewrite lookup_insert_eq.
  - by rewrite !lookup_insert_ne.
  - eapply load_progress_dumps. apply lookup_insert_eq.
Qed.

Lemma scan_one_block_scenario_witness :
  ∃ s self' w',
    scan_blocks Examples.env_one_block 100 (Some 101) Examples.self_fresh
      Examples.w_fresh = Some (s, self', w') ∧
    files w' !! current_addresses_file Examples.self_fresh
      = Some ("X" +:+ Examples.lf) ∧
    files w' !! current_balances_file Examples.self_fresh = Some EmptyString ∧
    load_progress (files w') = Ok (JInt 100) ∧
    total_addresses self' = 1 ∧
    addresses_with_balance self' = 0 ∧
    sum_total_addresses s = 1 ∧
    sum_addresses_with_balance s = 0.
Proof.
  apply (scan_one_block_scenario Examples.env_one_block Examples.self_fresh
           Examples.w_fresh (Examples.block_with "X"));
    try reflexivity; try (intros n; exact I); discriminate.
Defined.

(** C1 as stated fails: in the scenario, whether the run ends at 101 or at
    102, the progress file holds block 100, not 101. *)
Lemma scan_one_block_saves_100_not_101 :
  (∃ s self' w',
     scan_blocks Examples.env_one_block 100 (Some 102) Examples.self_fresh
       Examples.w_fresh = Some (s, self', w') ∧
     files w' !! addresses_path 1 = Some ("X" +:+ Examples.lf) ∧
     files w' !! balances_path 1 = Some EmptyString ∧
     total_addresses self' = 1 ∧
     addresses_with_balance self' = 0 ∧
     load_progress (files w') = Ok (JInt 100) ∧
     load_progress (files w') ≠ Ok (JInt 101) ∧
     sum_current_block s = 103) ∧
  (∃ s self' w',
     scan_blocks Examples.env_one_block 100 (Some 101) Examples.self_fresh
       Examples.w_fresh = Some (s, self', w') ∧
     load_progress (files w') = Ok (JInt 100) ∧
     load_progress (files w') ≠ Ok (JInt 101) ∧
     sum_current_block s = 102).
Proof.
  split; eexists _, _, _; (split; [vm_compute; reflexivity|]); by vm_compute.
Qed.

(** * The default run *)

Lemma fetches_app evs evs' :
  Env.fetches (evs ++ evs') = Env.fetches evs ++ Env.fetches evs'.
Proof. unfold Env.fetches. apply omap_app. Qed.

Lemma saves_app evs evs' :
  Env.saves (evs ++ evs') = (Env.saves evs + Env.saves evs')%nat.
Proof. unfold Env.saves. by rewrite filter_app, length_app. Qed.

(** A turn of the loop when the payload has no block segment: nothing is
    written but the progress file. *)
Lemma scan_step_empty_block h self w :
  scan_step Examples.env_all_blocks h self w
  = (None, h + 1, self,
     sleep 2 (save_progress Examples.env_all_blocks self h
                (World (files w) (events w ++ [Env.EvFetch h])))).
Proof. reflexivity. Qed.

Lemma scan_loop_all_blocks fuel end_block h self w :
  is_running self = true →
  Z.of_nat fuel = end_block - h + 1 →
  ∃ self' w',
    scan_loop fuel Examples.env_all_blocks end_block h self w
    = Some (end_block + 1, self', w') ∧
    Env.fetches (events w') = Env.fetches (events w) ++ seqZ h (Z.of_nat fuel) ∧
    Env.saves (events w') = (Env.saves (events w) + fuel)%nat.
Proof.
  intros Hrun. revert h w. induction fuel as [|fuel IH]; intros h w Hf.
  - cbn [scan_loop].
    assert ((h <=? end_block) = false) as -> by (apply Z.leb_gt; lia).
    replace (end_block + 1) with h by lia.
    eexists _, _. split; [reflexivity|]. split.
    + by rewrite app_nil_r.
    + lia.
  - cbn [scan_loop].
    assert ((h <=? end_block) = true) as -> by (apply Z.leb_le; lia).
    unfold running at 1. rewrite Hrun. cbn [andb negb Examples.env_all_blocks
      Env.stop_requested].
    rewrite scan_step_empty_block.
    destruct (IH (h + 1)
                (sleep 2 (save_progress Examples.env_all_blocks self h
                            (World (files w) (events w ++ [Env.EvFetch h]))))
                ltac:(lia)) as (self' & w' & -> & Hfetch & Hsave).
    eexists _, _. split; [reflexivity|]. split.
    + rewrite Hfetch. cbn [events sleep save_progress].
      rewrite !fetches_app. cbn [Env.fetches omap].
      rewrite !app_nil_r, <- app_assoc.
      f_equal. rewrite Nat2Z.inj_succ, (seqZ_cons h) by lia.
      do 2 f_equal; lia.
    + rewrite Hsave. cbn [events sleep save_progress].
      rewrite !saves_app. change (Env.saves [Env.EvFetch h]) with 0%nat.
      change (Env.saves [Env.EvClock]) with 1%nat.
      change (Env.saves [Env.EvSleep 2]) with 0%nat. lia.
Qed.

(** C3: with the default end block and every fetch answered, one call
    asks for 21 heights, [start_block] to [start_block + 20], and saves
    progress 21 times, whatever the start. *)
Theorem default_run_visits_21_blocks (start_block : Z) (self : Scanner.t) (w : world) :
  ∃ s self' w',
    scan_blocks Examples.env_all_blocks start_block None self w
    = Some (s, self', w') ∧
    Env.fetches (events w') = Env.fetches (events w) ++ seqZ start_block 21 ∧
    Env.saves (events w') = (Env.saves (events w) + 21)%nat ∧
    sum_current_block s = start_block + 21.
Proof.
  unfold scan_blocks. cbn [default from_option id].
  replace (Z.to_nat (start_block + default_run - start_block + 1)) with 21%nat
    by (unfold default_run; lia).
  destruct (scan_loop_all_blocks 21 (start_block + default_run) start_block
              (set_running true self) w eq_refl ltac:(unfold default_run; lia))
    as (self' & w' & -> & Hfetch & Hsave).
  eexists _, _, _. split; [reflexivity|].
  split_and!; [done|done|]. cbn [sum_current_block]. unfold default_run. lia.
Qed.

(** The same from block 0 on a fresh scanner, evaluated. *)
Lemma default_run_from_zero :
  ∃ s self w,
    scan_blocks Examples.env_all_blocks 0 None Examples.self_fresh Examples.w_fresh
    = Some (s, self, w) ∧
    Env.fetches (events w) = seqZ 0 21 ∧
    Env.saves (events w) = 21%nat ∧
    sum_current_block s = 21.
Proof. eexists _, _, _. split; [vm_compute; reflexivity|]. by vm_compute. Qed.

(** * Cleaning up *)

Lemma slice_to_zero {A} (l : list A) : slice_to (- 0) l = [].
Proof.
  unfold slice_to. change (- 0 <? 0) with false. cbv iota.
  by rewrite Z.min_l by lia.
Qed.

(** C5: with [keep_count = 0] nothing is picked for deletion, on any file
    system; two batches on disk are both still there afterwards. *)
Theorem cleanup_zero_keeps_everything (fs : Fs.t) :
  files_to_delete 0 fs = [] ∧
  cleanup_old_files 0 fs = fs ∧
  index <$> get_available_files Examples.fs_two = [1; 2] ∧
  index <$> get_available_files (cleanup_old_files 0 Examples.fs_two) = [1; 2].
Proof.
  assert (H : ∀ fs', files_to_delete 0 fs' = []).
  { intros fs'. unfold files_to_delete.
    destruct (_ <=? 0); [done|]. apply slice_to_zero. }
  assert (H' : ∀ fs', cleanup_old_files 0 fs' = fs').
  { intros fs'. unfold cleanup_old_files. by rewrite H. }
  split_and!; [done|done| |rewrite H']; by vm_compute.
Qed.

(** * Progress of the wrong shape *)

(** Whatever decodes to something other than a dict makes [load_progress]
    raise. *)
Lemma load_progress_non_object fs text v :
  fs !! progress_file = Some text → Fs.utf8_valid text = true →
  Json.loads text = Some v → (∀ kvs, v ≠ JObj kvs) →
  load_progress fs = Raise AttributeError.
Proof.
  intros H Hu Hl Hv. unfold load_progress, Fs.read. rewrite H.
  cbn [mbind option_bind]. rewrite Hu, Hl.
  destruct v; try done. by destruct (Hv kvs).
Qed.

(** * The extractor at work *)

(** Five transactions in one block segment: the fourth and fifth are not
    looked at, and an address met twice is listed once. *)
Example extract_samples_three :
  let tx a := JObj [("out", JArr [JObj [("addr", JStr a)]])] in
  extract_addresses_from_block
    (JObj [("blocks", JArr [JObj [("tx",
       JArr [tx "A"; tx "B"; tx "A"; tx "C"; tx "D"])]])])
  = [SStr "A"; SStr "B"].
Proof. reflexivity. Qed.

(** A payload that goes wrong half way: what was collected until then is
    returned. *)
Example extract_stops_at_malformed :
  extract_addresses_from_block
    (JObj [("blocks", JArr [JObj [("tx",
       JArr [JObj [("out", JArr [JObj [("addr", JStr "A")]])];
             JInt 7;
             JObj [("out", JArr [JObj [("addr", JStr "B")]])]])]])])
  = [SStr "A"] ∧
  (visit_block_data
    (JObj [("blocks", JArr [JObj [("tx",
       JArr [JObj [("out", JArr [JObj [("addr", JStr "A")]])];
             JInt 7;
             JObj [("out", JArr [JObj [("addr", JStr "B")]])]])]])])).2
  = Some AttributeError.
Proof. split; reflexivity. Qed.

(** * The parser never fails for want of fuel *)

(** More fuel does not change a result. *)
Lemma parse_fuel_succ fuel :
  (∀ ts x, Json.parse_value fuel ts = Some x →
           Json.parse_value (S fuel) ts = Some x) ∧
  (∀ ts acc x, Json.parse_elems fuel ts acc = Some x →
               Json.parse_elems (S fuel) ts acc = Some x) ∧
  (∀ ts acc x, Json.parse_members fuel ts acc = Some x →
               Json.parse_members (S fuel) ts acc = Some x).
Proof.
  induction fuel as [|fuel (IHv & IHe & IHm)]; [by split_and!|].
  split_and!.
  - intros ts x. cbn [Json.parse_value].
    destruct ts as [|[] ts]; try done.
    + destruct ts as [|[] ts]; try done; apply IHm.
    + destruct ts as [|[] ts]; try done; apply IHe.
  - intros ts acc x H.
    change (Json.parse_elems (S fuel) ts acc) with
      ('(v, r) ← Json.parse_value fuel ts;
       match r with
       | Json.TComma :: r' => Json.parse_elems fuel r' (acc ++ [v])
       | Json.TRBrack :: r' => Some (JArr (acc ++ [v]), r')
       | _ => None
       end) in H.
    change (Json.parse_elems (S (S fuel)) ts acc) with
      ('(v, r) ← Json.parse_value (S fuel) ts;
       match r with
       | Json.TComma :: r' => Json.parse_elems (S fuel) r' (acc ++ [v])
       | Json.TRBrack :: r' => Some (JArr (acc ++ [v]), r')
       | _ => None
       end).
    destruct (Json.parse_value fuel ts) as [[v r]|] eqn:E; [|done].
    rewrite (IHv _ _ E). cbn [mbind option_bind] in *.
    destruct r as [|[] r]; try done. by apply IHe.
  - intros ts acc x H.
    destruct ts as [|[| | | | | |[]] [|[] ts]]; try done.
    change (Json.parse_members (S fuel)
              (Json.TVal (JStr s) :: Json.TColon :: ts) acc) with
      ('(v, r') ← Json.parse_value fuel ts;
       match r' with
       | Json.TComma :: r'' => Json.parse_members fuel r'' (dict_set s v acc)
       | Json.TRBrace :: r'' => Some (JObj (dict_set s v acc), r'')
       | _ => None
       end) in H.
    change (Json.parse_members (S (S fuel))
              (Json.TVal (JStr s) :: Json.TColon :: ts) acc) with
      ('(v, r') ← Json.parse_value (S fuel) ts;
       match r' with
       | Json.TComma :: r'' => Json.parse_members (S fuel) r'' (dict_set s v acc)
       | Json.TRBrace :: r'' => Some (JObj (dict_set s v acc), r'')
       | _ => None
       end).
    destruct (Json.parse_value fuel ts) as [[v r]|] eqn:E; [|done].
    rewrite (IHv _ _ E). cbn [mbind option_bind] in *.
    destruct r as [|[] r]; try done. by apply IHm.
Qed.

Lemma parse_value_mono fuel fuel' ts x :
  (fuel ≤ fuel')%nat → Json.parse_value fuel ts = Some x →
  Json.parse_value fuel' ts = Some x.
Proof.
  induction 1 as [|fuel' _ IH]; [done|].
  intros H. by apply parse_fuel_succ, IH.
Qed.

Lemma parse_elems_mono fuel fuel' ts acc x :
  (fuel ≤ fuel')%nat → Json.parse_elems fuel ts acc = Some x →
  Json.parse_elems fuel' ts acc = Some x.
Proof.
  induction 1 as [|fuel' _ IH]; [done|].
  intros H. by apply parse_fuel_succ, IH.
Qed.

Lemma parse_members_mono fuel fuel' ts acc x :
  (fuel ≤ fuel')%nat → Json.parse_members fuel ts acc = Some x →
  Json.parse_members fuel' ts acc = Some x.
Proof.
  induction 1 as [|fuel' _ IH]; [done|].
  intros H. by apply parse_fuel_succ, IH.
Qed.

(** A result uses up tokens, and as much fuel as tokens used is enough to
    find it. *)
Lemma parse_consumes fuel :
  (∀ ts v r, Json.parse_value fuel ts = Some (v, r) →
     (length r < length ts)%nat ∧
     Json.parse_value (length ts - length r) ts = Some (v, r)) ∧
  (∀ ts acc v r, Json.parse_elems fuel ts acc = Some (v, r) →
     (length r < length ts)%nat ∧
     Json.parse_elems (length ts - length r) ts acc = Some (v, r)) ∧
  (∀ ts acc v r, Json.parse_members fuel ts acc = Some (v, r) →
     (length r < length ts)%nat ∧
     Json.parse_members (length ts - length r) ts acc = Some (v, r)).
Proof.
  induction fuel as [|fuel (IHv & IHe & IHm)]; [by split_and!|].
  split_and!.
  - intros ts v r. cbn [Json.parse_value].
    destruct ts as [|[] ts]; try done.
    + destruct ts as [|[] ts]; try (intros [= <- <-]; split; [simpl; lia|];
        by replace (length (Json.TLBrace :: Json.TRBrace :: ts) - length ts)%nat
          with 2%nat by (simpl; lia)).
      all: intros H; destruct (IHm _ _ _ _ H) as [Hl Hp]; split;
        [simpl in *; lia|];
        match goal with
        | |- Json.parse_value (length (_ :: ?l) - _) _ = _ =>
            replace (length (Json.TLBrace :: l) - length r)%nat
              with (S (length l - length r)) by (simpl in *; lia)
        end; exact Hp.
    + destruct ts as [|[] ts]; try (intros [= <- <-]; split; [simpl; lia|];
        by replace (length (Json.TLBrack :: Json.TRBrack :: ts) - length ts)%nat
          with 2%nat by (simpl; lia)).
      all: intros H; destruct (IHe _ _ _ _ H) as [Hl Hp]; split;
        [simpl in *; lia|];
        match goal with
        | |- Json.parse_value (length (_ :: ?l) - _) _ = _ =>
            replace (length (Json.TLBrack :: l) - length r)%nat
              with (S (length l - length r)) by (simpl in *; lia)
        end; exact Hp.
    + intros [= <- <-]. split; [simpl; lia|].
      match goal with
      | |- Json.parse_value ?n _ = _ => by replace n with 1%nat by (simpl; lia)
      end.
  - intros ts acc v r H.
    change (Json.parse_elems (S fuel) ts acc) with
      ('(v, r) ← Json.parse_value fuel ts;
       match r with
       | Json.TComma :: r' => Json.parse_elems fuel r' (acc ++ [v])
       | Json.TRBrack :: r' => Some (JArr (acc ++ [v]), r')
       | _ => None
       end) in H.
    destruct (Json.parse_value fuel ts) as [[v1 r1]|] eqn:E; [|done].
    destruct (IHv _ _ _ E) as [Hl1 Hp1]. cbn [mbind option_bind] in H.
    destruct r1 as [|[] r1]; try done.
    + injection H as <- <-. simpl in Hl1. split; [lia|].
      replace (length ts - length r1)%nat
        with (S (length ts - length (Json.TRBrack :: r1))) by (simpl; lia).
      change (Json.parse_elems (S ?k) ts acc) with
        ('(v, r) ← Json.parse_value k ts;
         match r with
         | Json.TComma :: r' => Json.parse_elems k r' (acc ++ [v])
         | Json.TRBrack :: r' => Some (JArr (acc ++ [v]), r')
         | _ => None
         end).
      by rewrite Hp1.
    + destruct (IHe _ _ _ _ H) as [Hl2 Hp2]. simpl in Hl1. split; [lia|].
      replace (length ts - length r)%nat
        with (S (length ts - length r - 1)) by lia.
      change (Json.parse_elems (S ?k) ts acc) with
        ('(v, r) ← Json.parse_value k ts;
         match r with
         | Json.TComma :: r' => Json.parse_elems k r' (acc ++ [v])
         | Json.TRBrack :: r' => Some (JArr (acc ++ [v]), r')
         | _ => None
         end).
      rewrite (parse_value_mono (length ts - length (Json.TComma :: r1))
                 (length ts - length r - 1) _ _ ltac:(simpl; lia) Hp1).
      cbn [mbind option_bind].
      apply (parse_elems_mono (length r1 - length r)); [lia|done].
  - intros ts acc v r H.
    destruct ts as [|[| | | | | |[]] [|[] ts]]; try done.
    change (Json.parse_members (S fuel)
              (Json.TVal (JStr s) :: Json.TColon :: ts) acc) with
      ('(v, r') ← Json.parse_value fuel ts;
       match r' with
       | Json.TComma :: r'' => Json.parse_members fuel r'' (dict_set s v acc)
       | Json.TRBrace :: r'' => Some (JObj (dict_set s v acc), r'')
       | _ => None
       end) in H.
    destruct (Json.parse_value fuel ts) as [[v1 r1]|] eqn:E; [|done].
    destruct (IHv _ _ _ E) as [Hl1 Hp1]. cbn [mbind option_bind] in H.
    destruct r1 as [|[] r1]; try done.
    + injection H as <- <-. simpl in Hl1. split; [simpl; lia|].
      replace (length (Json.TVal (JStr s) :: Json.TColon :: ts) - length r1)%nat
        with (S (S (S (length ts - length (Json.TRBrace :: r1)))))
        by (simpl; lia).
      change (Json.parse_members (S ?k)
                (Json.TVal (JStr s) :: Json.TColon :: ts) acc) with
        ('(v, r') ← Json.parse_value k ts;
         match r' with
         | Json.TComma :: r'' => Json.parse_members k r'' (dict_set s v acc)
         | Json.TRBrace :: r'' => Some (JObj (dict_set s v acc), r'')
         | _ => None
         end).
      rewrite (parse_value_mono (length ts - length (Json.TRBrace :: r1))
                 (S (S (length ts - length (Json.TRBrace :: r1))))
                 _ _ ltac:(lia) Hp1). done.
    + destruct (IHm _ _ _ _ H) as [Hl2 Hp2]. simpl in Hl1. split; [simpl; lia|].
      replace (length (Json.TVal (JStr s) :: Json.TColon :: ts) - length r)%nat
        with (S (S (length ts) - length r)) by (simpl; lia).
      change (Json.parse_members (S ?k)
                (Json.TVal (JStr s) :: Json.TColon :: ts) acc) with
        ('(v, r') ← Json.parse_value k ts;
         match r' with
         | Json.TComma :: r'' => Json.parse_members k r'' (dict_set s v acc)
         | Json.TRBrace :: r'' => Some (JObj (dict_set s v acc), r'')
         | _ => None
         end).
      rewrite (parse_value_mono (length ts - length (Json.TComma :: r1))
                 (S (length ts) - length r) _ _ ltac:(simpl; lia) Hp1).
      cbn [mbind option_bind].
      apply (parse_members_mono (length r1 - length r)); [lia|done].
Qed.

(** Whatever the parser finds with some amount of fuel it finds with the
    amount [loads] gives it. *)
Lemma parse_value_enough fuel ts x :
  Json.parse_value fuel ts = Some x →
  Json.parse_value (S (length ts)) ts = Some x.
Proof.
  destruct x as [v r]. intros H.
  destruct (proj1 (parse_consumes fuel) _ _ _ H) as [Hl Hp].
  eapply parse_value_mono; [|exact Hp]. lia.
Qed.

Lemma loads_complete fuel s ts v :
  Json.lex Json.LxStart s = Some ts →
  Json.parse_value fuel ts = Some (v, []) →
  Json.loads s = Some v.
Proof.
  intros Hlex Hp. unfold Json.loads. rewrite Hlex. cbn [mbind option_bind].
  by rewrite (parse_value_enough _ _ _ Hp).
Qed.

(** * Beyond the claims *)

Import Props.

(** * The batches on disk *)

(** ** The listing *)


Lemma insert_sorted_sorted x l :
  StronglySorted by_index l → StronglySorted by_index (insert_sorted x l).
Proof.
  induction 1 as [|y l Hl IH Hy]; simpl.
  - repeat constructor.
  - destruct (index x <? index y) eqn:E.
    + apply Z.ltb_lt in E. constructor; [by constructor|].
      constructor; [unfold by_index; lia|].
      eapply Forall_impl; [exact Hy|]. unfold by_index. intros; simpl in *; lia.
    + apply Z.ltb_ge in E. constructor; [done|].
      apply Forall_forall. intros z Hz.
      apply elem_of_insert_sorted in Hz as [->|Hz]; [done|].
      by eapply Forall_forall in Hy.
Qed.

Lemma sort_by_index_sorted l : StronglySorted by_index (sort_by_index l).
Proof.
  unfold sort_by_index.
  assert (H : StronglySorted by_index []) by constructor.
  revert H. generalize (@nil file_info) as acc.
  induction l as [|x l IH]; intros acc H; simpl; [done|].
  by apply IH, insert_sorted_sorted.
Qed.

Lemma insert_sorted_perm x l : insert_sorted x l ≡ₚ x :: l.
Proof.
  induction l as [|y l IH]; simpl; [done|].
  destruct (index x <? index y); [done|].
  rewrite IH. apply Permutation_swap.
Qed.

Lemma sort_by_index_perm l : sort_by_index l ≡ₚ l.
Proof.
  unfold sort_by_index.
  assert (H : ∀ acc, foldl (λ acc x, insert_sorted x acc) acc l ≡ₚ acc ++ l).
  { induction l as [|x l IH]; intros acc; simpl.
    - by rewrite app_nil_r.
    - rewrite IH, insert_sorted_perm. simpl. apply Permutation_middle. }
  apply H.
Qed.

(** Sorting a list that is in order changes nothing. *)
Lemma insert_sorted_last x l :
  Forall (λ y, by_index y x) l → insert_sorted x l = l ++ [x].
Proof.
  induction 1 as [|y l Hy Hl IH]; simpl; [done|].
  assert ((index x <? index y) = false) as -> by (apply Z.ltb_ge; exact Hy).
  by rewrite IH.
Qed.

Lemma sort_acc_sorted acc l :
  StronglySorted by_index (acc ++ l) →
  foldl (λ acc x, insert_sorted x acc) acc l = acc ++ l.
Proof.
  revert acc. induction l as [|x l IH]; intros acc H; simpl.
  - by rewrite app_nil_r.
  - rewrite insert_sorted_last.
    + rewrite IH; rewrite <- app_assoc; done.
    + apply Forall_forall. intros y Hy.
      apply list_elem_of_split in Hy as (l1 & l2 & ->).
      rewrite <- app_assoc in H. apply StronglySorted_app_1_r in H.
      apply StronglySorted_inv in H as [_ H].
      rewrite Forall_app, Forall_cons in H. unfold by_index in *. tauto.
Qed.

Lemma sort_by_index_id l : StronglySorted by_index l → sort_by_index l = l.
Proof. intros H. unfold sort_by_index. by rewrite sort_acc_sorted. Qed.

Lemma file_entry_path fs p e : file_entry fs p = Some e → address_file e = p.
Proof.
  unfold file_entry. destruct (parse_index p) as [i|]; simpl; [|done].
  destruct (Fs.exists_ _ _); [|done].
  destruct (Fs.read p fs) as [[]|]; try done.
  destruct (Fs.read _ fs) as [[]|]; try done.
  by intros [= <-].
Qed.

Lemma NoDup_glob fs : NoDup (Fs.glob fs).
Proof. unfold Fs.glob. apply NoDup_filter, NoDup_fst_map_to_list. Qed.

Lemma NoDup_entries fs l : NoDup l → NoDup (omap (file_entry fs) l).
Proof.
  induction 1 as [|p l Hp Hl IH]; simpl; [constructor|].
  destruct (file_entry fs p) as [e|] eqn:E; [|done].
  constructor; [|done].
  rewrite list_elem_of_omap. intros (q & Hq & Hqe).
  apply file_entry_path in E, Hqe. congruence.
Qed.

Lemma NoDup_available fs : NoDup (get_available_files fs).
Proof.
  unfold get_available_files. rewrite sort_by_index_perm.
  apply NoDup_entries, NoDup_glob.
Qed.

Lemma available_sorted fs : StronglySorted by_index (get_available_files fs).
Proof. apply sort_by_index_sorted. Qed.

Lemma file_entry_inv fs p e :
  file_entry fs p = Some e →
  parse_index p = Some (index e) ∧ address_file e = p ∧
  balance_file e = balances_path (index e) ∧
  ∃ a b, fs !! p = Some a ∧ fs !! balances_path (index e) = Some b ∧
         Fs.utf8_valid a = true ∧ Fs.utf8_valid b = true ∧
         address_count e = PyStr.readlines_len a ∧
         balance_count e = PyStr.readlines_len b.
Proof.
  unfold file_entry. destruct (parse_index p) as [i|]; simpl; [|done].
  unfold Fs.exists_, Fs.read.
  destruct (fs !! balances_path i) as [b|] eqn:Eb; [|done].
  destruct (fs !! p) as [a|] eqn:Ea; simpl; [|done].
  destruct (Fs.utf8_valid a) eqn:Ua; [|done].
  destruct (Fs.utf8_valid b) eqn:Ub; [|done].
  intros [= <-]. simpl. rewrite Eb. split_and!; try done.
  by exists a, b.
Qed.

(** X1: in a directory whose names are ASCII, every entry of the listing
    is backed by two files of the data directory: an address file whose
    name carries the entry's index (never a balance file, though the
    pattern matches those too), and the balance file of that index; its
    counts are their numbers of lines. *)
Theorem listed_entry_is_backed (fs : Fs.t) (e : file_info) :
  ascii_names fs →
  e ∈ get_available_files fs →
  Fs.glob_match (address_file e) = true ∧
  parse_index (address_file e) = Some (index e) ∧
  balance_file e = balances_path (index e) ∧
  (∀ j, address_file e ≠ balances_path j) ∧
  ∃ a b, fs !! address_file e = Some a ∧ fs !! balance_file e = Some b ∧
         Fs.utf8_valid a = true ∧ Fs.utf8_valid b = true ∧
         address_count e = PyStr.readlines_len a ∧
         balance_count e = PyStr.readlines_len b.
Proof.
  intros _. rewrite elem_of_available. intros (p & Hm & _ & He).
  apply file_entry_inv in He as (Hi & Hp & Hb & a & b & H).
  rewrite Hp, Hb. split_and!; try done.
  - intros j ->. by rewrite parse_index_balances in Hi.
  - by exists a, b.
Qed.

Lemma listed_entry_is_backed_witness :
  let e := FileInfo 2 (addresses_path 2) (balances_path 2) 1 1 in
  parse_index (address_file e) = Some (index e) ∧
  ∃ a b, Examples.fs_sparse !! address_file e = Some a ∧
         Examples.fs_sparse !! balance_file e = Some b ∧
         Fs.utf8_valid a = true ∧ Fs.utf8_valid b = true ∧
         address_count e = PyStr.readlines_len a ∧
         balance_count e = PyStr.readlines_len b.
Proof.
  intros e.
  destruct (listed_entry_is_backed Examples.fs_sparse e) as (_ & H1 & _ & _ & H2).
  - vm_compute. repeat constructor.
  - vm_compute. right. left.
  - exact (conj H1 H2).
Defined.

Lemma file_entry_pair fs i a b :
  fs !! addresses_path i = Some a → fs !! balances_path i = Some b →
  Fs.utf8_valid a = true → Fs.utf8_valid b = true →
  file_entry fs (addresses_path i)
  = Some (FileInfo i (addresses_path i) (balances_path i)
            (PyStr.readlines_len a) (PyStr.readlines_len b)).
Proof.
  intros Ha Hb Ua Ub. unfold file_entry. rewrite parse_index_addresses. simpl.
  unfold Fs.exists_, Fs.read. rewrite Ha, Hb. simpl. by rewrite Ua, Ub.
Qed.

(** X2: a pair of files written under the scanner's names is listed, with
    its line counts, whatever else the directory holds. *)
Theorem complete_pair_is_listed (fs : Fs.t) (i : Z) (a b : string) :
  fs !! addresses_path i = Some a → fs !! balances_path i = Some b →
  Fs.utf8_valid a = true → Fs.utf8_valid b = true →
  FileInfo i (addresses_path i) (balances_path i)
    (PyStr.readlines_len a) (PyStr.readlines_len b) ∈ get_available_files fs.
Proof.
  intros Ha Hb Ua Ub. apply elem_of_available. exists (addresses_path i).
  split_and!; [apply glob_match_addresses|by rewrite Ha|by apply file_entry_pair].
Qed.

Lemma complete_pair_is_listed_witness :
  FileInfo 2 (addresses_path 2) (balances_path 2) 1 1
  ∈ get_available_files Examples.fs_sparse.
Proof.
  apply (complete_pair_is_listed Examples.fs_sparse 2
           ("old" +:+ Examples.lf) ("old - 1.00000000 BTC" +:+ Examples.lf));
    by vm_compute.
Defined.

(** X3: the listing comes in ascending order of index, and no entry comes
    twice. *)
Theorem listing_is_sorted (fs : Fs.t) :
  StronglySorted (λ a b, index a ≤ index b) (get_available_files fs) ∧
  NoDup (get_available_files fs).
Proof. split; [apply available_sorted|apply NoDup_available]. Qed.

(** ** The current index *)

Lemma max_list_le i l : i ≤ max_list i l.
Proof.
  unfold max_list. revert i. induction l as [|x l IH]; intros i; simpl; [lia|].
  specialize (IH (Z.max i x)). lia.
Qed.

Lemma max_list_ub i l x : x ∈ l → x ≤ max_list i l.
Proof.
  unfold max_list. revert i. induction l as [|y l IH]; intros i.
  - by rewrite elem_of_nil.
  - rewrite elem_of_cons. intros [->|H]; simpl.
    + pose proof (max_list_le (Z.max i y) l). unfold max_list in *. lia.
    + by apply IH.
Qed.

Lemma max_list_in i l : max_list i l ∈ i :: l.
Proof.
  unfold max_list. revert i. induction l as [|y l IH]; intros i; simpl.
  - apply list_elem_of_singleton. done.
  - specialize (IH (Z.max i y)). rewrite !elem_of_cons in *.
    destruct (Z.max_spec i y) as [[_ E]|[_ E]]; rewrite E in *; tauto.
Qed.


Lemma elem_of_indices fs i :
  i ∈ indices fs ↔
  ∃ p, Fs.glob_match p = true ∧ is_Some (fs !! p) ∧ parse_index p = Some i.
Proof.
  unfold indices. rewrite list_elem_of_omap.
  split; intros [p H]; exists p; rewrite elem_of_glob in *; tauto.
Qed.

Lemma current_index_spec fs :
  (indices fs = [] ∧ get_current_file_index fs = 1) ∨
  (get_current_file_index fs ∈ indices fs ∧
   ∀ i, i ∈ indices fs → i ≤ get_current_file_index fs).
Proof.
  unfold get_current_file_index, indices.
  destruct (Fs.glob fs) as [|p ps] eqn:E; [by left|]. rewrite <- E. clear E.
  destruct (omap parse_index (Fs.glob fs)) as [|i l]; [by left|]. right.
  split; [apply max_list_in|].
  intros j. rewrite elem_of_cons. intros [->|H].
  - apply max_list_le.
  - by apply max_list_ub.
Qed.

Lemma current_index_ub fs i : i ∈ indices fs → i ≤ get_current_file_index fs.
Proof.
  intros H. destruct (current_index_spec fs) as [[E _]|[_ Hub]].
  - rewrite E in H. by apply elem_of_nil in H.
  - by apply Hub.
Qed.

Lemma current_index_intro fs r :
  r ∈ indices fs → (∀ i, i ∈ indices fs → i ≤ r) →
  get_current_file_index fs = r.
Proof.
  intros Hr Hub. destruct (current_index_spec fs) as [[E _]|[Hin Hm]].
  - rewrite E in Hr. by apply elem_of_nil in Hr.
  - apply Hub in Hin. apply Hm in Hr. lia.
Qed.

Lemma index_of_addresses fs i :
  is_Some (fs !! addresses_path i) → i ∈ indices fs.
Proof.
  intros H. apply elem_of_indices. exists (addresses_path i).
  split_and!; [apply glob_match_addresses|done|apply parse_index_addresses].
Qed.

(** X4: in a directory whose names are ASCII, the current index is the
    highest index carried by an address file of the directory, listed or
    not, and 1 when no file carries one. *)
Theorem current_index_is_highest (fs : Fs.t) :
  ascii_names fs →
  (∀ i, is_Some (fs !! addresses_path i) → i ≤ get_current_file_index fs) ∧
  (∀ e, e ∈ get_available_files fs → index e ≤ get_current_file_index fs) ∧
  (get_current_file_index fs = 1 ∨
   ∃ p, Fs.glob_match p = true ∧ is_Some (fs !! p) ∧
        parse_index p = Some (get_current_file_index fs)).
Proof.
  intros _. split_and!.
  - intros i H. by apply current_index_ub, index_of_addresses.
  - intros e. rewrite elem_of_available. intros (p & Hm & Hp & He).
    apply current_index_ub, elem_of_indices. exists p.
    split_and!; try done. by apply file_entry_index in He.
  - destruct (current_index_spec fs) as [[_ E]|[Hin _]]; [by left|right].
    by apply elem_of_indices.
Qed.

Lemma current_index_is_highest_witness :
  get_current_file_index Examples.fs_eight = 8 ∧
  (∀ i, is_Some (Examples.fs_eight !! addresses_path i) → i ≤ 8).
Proof.
  assert (E : get_current_file_index Examples.fs_eight = 8) by (by vm_compute).
  split; [done|]. rewrite <- E.
  refine (proj1 (current_index_is_highest Examples.fs_eight _)).
  vm_compute. repeat constructor.
Defined.

(** ** Start-up *)

Lemma touch_lookup_ne p q (fs : Fs.t) : q ≠ p → Fs.touch p fs !! q = fs !! q.
Proof.
  intros H. unfold Fs.touch. destruct (fs !! p); [done|].
  by rewrite lookup_insert_ne.
Qed.

Lemma touch_keeps p q (fs : Fs.t) c : fs !! q = Some c → Fs.touch p fs !! q = Some c.
Proof.
  intros H. unfold Fs.touch. destruct (fs !! p) eqn:E; [done|].
  rewrite lookup_insert_ne; [done|]. intros ->. congruence.
Qed.

Lemma touch_exists p (fs : Fs.t) : is_Some (Fs.touch p fs !! p).
Proof.
  unfold Fs.touch. destruct (fs !! p) eqn:E; [by rewrite E|].
  by rewrite lookup_insert_eq.
Qed.

Lemma touch_id p (fs : Fs.t) : is_Some (fs !! p) → Fs.touch p fs = fs.
Proof. intros [c H]. unfold Fs.touch. by rewrite H. Qed.

(** Creating the pair of index [m] adds at most [m] to the indices. *)
Lemma indices_with_pair (fs fs' : Fs.t) m :
  (∀ p, p ≠ addresses_path m → p ≠ balances_path m →
        is_Some (fs' !! p) → is_Some (fs !! p)) →
  ∀ i, i ∈ indices fs' → i = m ∨ i ∈ indices fs.
Proof.
  intros H i. rewrite !elem_of_indices. intros (p & Hm & Hp & Hi).
  destruct (decide (p = addresses_path m)) as [->|Ha].
  { rewrite parse_index_addresses in Hi. left. congruence. }
  destruct (decide (p = balances_path m)) as [->|Hb].
  { by rewrite parse_index_balances in Hi. }
  right. exists p. split_and!; try done. by apply H.
Qed.

Lemma initialize_index self fs :
  get_current_file_index (initialize_current_files self fs).2
  = get_current_file_index fs.
Proof.
  unfold initialize_current_files. cbn [snd set_files current_addresses_file
    current_balances_file].
  set (m := get_current_file_index fs).
  set (fs' := Fs.touch _ (Fs.touch _ fs)).
  assert (Hsome : is_Some (fs' !! addresses_path m)).
  { destruct (touch_exists (addresses_path m) fs) as [c Hc].
    exists c. by apply touch_keeps. }
  apply current_index_intro.
  - by apply index_of_addresses.
  - intros i Hi. apply (indices_with_pair fs fs' m) in Hi as [->|Hi]; [lia| |].
    + by apply current_index_ub.
    + intros p Ha Hb. unfold fs'. by rewrite !touch_lookup_ne.
Qed.

Lemma initialize_listing self fs e :
  e ∈ get_available_files fs →
  e ∈ get_available_files (initialize_current_files self fs).2.
Proof.
  rewrite !elem_of_available. intros (p & Hm & [c Hp] & He).
  pose proof (file_entry_inv _ _ _ He) as (Hi & _ & _ & a & b & _ & Hb & _).
  unfold initialize_current_files. cbn [snd].
  exists p. split_and!; [done| |].
  - exists c. by do 2 apply touch_keeps.
  - rewrite <- He. apply file_entry_agree.
    + rewrite Hp. by do 2 apply touch_keeps.
    + intros j Hj. assert (j = index e) as -> by congruence.
      rewrite Hb. by do 2 apply touch_keeps.
Qed.

(** X5: in a directory whose names are ASCII, start-up points the scanner
    at a pair whose index is at least that of every address file on disk;
    every batch listed before is listed afterwards as it was; the two
    files of the pair exist afterwards, created empty when they were
    missing; every file that exists keeps its content and nothing else
    appears. *)
Theorem initialize_keeps_content (self : Scanner.t) (fs : Fs.t) :
  ascii_names fs →
  let '(self', fs') := initialize_current_files self fs in
  (∀ i, is_Some (fs !! addresses_path i) → i ≤ current_file_index self') ∧
  (∀ e, e ∈ get_available_files fs →
        e ∈ get_available_files fs' ∧ index e ≤ current_file_index self') ∧
  current_addresses_file self' = addresses_path (current_file_index self') ∧
  current_balances_file self' = balances_path (current_file_index self') ∧
  is_Some (fs' !! current_addresses_file self') ∧
  is_Some (fs' !! current_balances_file self') ∧
  (∀ p c, fs !! p = Some c → fs' !! p = Some c) ∧
  (∀ p, p ≠ current_addresses_file self' → p ≠ current_balances_file self' →
        fs' !! p = fs !! p) ∧
  (∀ c, fs !! current_addresses_file self' = None →
        fs' !! current_addresses_file self' = Some c → c = EmptyString) ∧
  (∀ c, fs !! current_balances_file self' = None →
        fs' !! current_balances_file self' = Some c → c = EmptyString).
Proof.
  intros _. pose proof (initialize_listing self fs) as Hlist.
  unfold initialize_current_files in *.
  cbn [snd set_files current_addresses_file current_balances_file
       current_file_index] in *.
  set (m := get_current_file_index fs).
  split_and!; try done.
  - intros i H. by apply current_index_ub, index_of_addresses.
  - intros e He. split; [by apply Hlist|].
    apply elem_of_available in He as (p & Hm & Hp & He).
    apply current_index_ub, elem_of_indices. exists p.
    split_and!; try done. by apply file_entry_index in He.
  - destruct (touch_exists (addresses_path m) fs) as [c Hc].
    exists c. by apply touch_keeps.
  - apply touch_exists.
  - intros p c H. by do 2 apply touch_keeps.
  - intros p Ha Hb. by rewrite !touch_lookup_ne.
  - intros c Hn. rewrite touch_lookup_ne by apply addresses_not_balances.
    unfold Fs.touch. rewrite Hn, lookup_insert_eq. congruence.
  - intros c Hn. unfold Fs.touch at 1.
    rewrite touch_lookup_ne
      by (intros H; symmetry in H; by apply addresses_not_balances in H).
    rewrite Hn, lookup_insert_eq. congruence.
Qed.

Lemma initialize_keeps_content_witness :
  ascii_names Examples.fs_sparse ∧
  ∀ i, is_Some (Examples.fs_sparse !! addresses_path i) →
       i ≤ current_file_index
             (initialize_current_files Examples.self_fresh Examples.fs_sparse).1.
Proof.
  assert (A : ascii_names Examples.fs_sparse) by (vm_compute; repeat constructor).
  split; [exact A|].
  pose proof (initialize_keeps_content Examples.self_fresh Examples.fs_sparse A)
    as H.
  destruct (initialize_current_files Examples.self_fresh Examples.fs_sparse)
    as [self' fs'].
  exact (proj1 H).
Defined.

(** X6: starting up a second time changes nothing, neither on disk nor in
    the scanner. *)
Theorem initialize_twice (self : Scanner.t) (fs : Fs.t) :
  let '(self', fs') := initialize_current_files self fs in
  initialize_current_files self' fs' = (self', fs').
Proof.
  pose proof (initialize_index self fs) as Hi.
  unfold initialize_current_files in *.
  cbn [snd set_files current_addresses_file current_balances_file] in *.
  rewrite Hi. set (m := get_current_file_index fs).
  f_equal.
  rewrite (touch_id (addresses_path m)).
  - apply touch_id, touch_exists.
  - destruct (touch_exists (addresses_path m) fs) as [c Hc].
    exists c. by apply touch_keeps.
Qed.

(** ** Rotation *)

Lemma create_new_files_index self fs :
  get_current_file_index fs ≤ current_file_index self + 1 →
  get_current_file_index (create_new_files self fs).2
  = current_file_index self + 1.
Proof.
  intros Hle.
  destruct (create_new_files_fresh self fs) as [Ha Hb]. cbv zeta in Ha, Hb.
  apply current_index_intro.
  - apply index_of_addresses. by rewrite Ha.
  - intros i Hi.
    apply (indices_with_pair fs _ (current_file_index self + 1)) in Hi
      as [->|Hi]; [lia| |].
    + apply current_index_ub in Hi. lia.
    + intros p Hpa Hpb. by rewrite create_new_files_lookup.
Qed.

(** X7: in a directory whose names are ASCII, after a rotation the
    highest index on disk is the new one, so a scanner started afterwards
    takes up the new batch. *)
Theorem rotation_survives_restart (self : Scanner.t) (fs : Fs.t) :
  ascii_names fs →
  get_current_file_index fs ≤ current_file_index self + 1 →
  let '(i, self', fs') := create_new_files self fs in
  get_current_file_index fs' = i ∧
  initialize_current_files self' fs' = (self', fs').
Proof.
  intros _ Hle. pose proof (create_new_files_index self fs Hle) as Hi.
  destruct (create_new_files_fresh self fs) as [Ha Hb]. cbv zeta in Ha, Hb.
  unfold create_new_files in *.
  cbn [snd set_files current_addresses_file current_balances_file
       current_file_index] in *.
  split; [done|].
  unfold initialize_current_files. rewrite Hi.
  cbn [set_files current_addresses_file current_balances_file
       current_file_index current_block total_addresses addresses_with_balance
       is_running].
  f_equal.
  rewrite (touch_id (addresses_path _)) by (by rewrite Ha).
  apply touch_id. by rewrite Hb.
Qed.

Lemma rotation_survives_restart_witness :
  get_current_file_index (create_new_files Examples.self_fresh Examples.fs_fresh).2
  = 2.
Proof.
  refine (proj1 (rotation_survives_restart Examples.self_fresh Examples.fs_fresh _ _)).
  - vm_compute. repeat constructor.
  - by vm_compute.
Defined.

(** ** Deleting *)

Lemma delete_files_gone i fs :
  (delete_files i fs).2 !! addresses_path i = None ∧
  (delete_files i fs).2 !! balances_path i = None.
Proof.
  unfold delete_files, Fs.exists_, Fs.remove. cbn [snd].
  destruct (fs !! addresses_path i) eqn:Ea.
  - rewrite lookup_delete_ne by apply addresses_not_balances.
    destruct (fs !! balances_path i) eqn:Eb.
    + rewrite lookup_delete_ne
        by (intros H; symmetry in H; by apply addresses_not_balances in H).
      by rewrite !lookup_delete_eq.
    + by rewrite lookup_delete_eq, lookup_delete_ne by apply addresses_not_balances.
  - destruct (fs !! balances_path i) eqn:Eb.
    + rewrite lookup_delete_eq, lookup_delete_ne
        by (intros H; symmetry in H; by apply addresses_not_balances in H).
      done.
    + done.
Qed.

Lemma delete_files_lookup i fs p :
  p ≠ addresses_path i → p ≠ balances_path i →
  (delete_files i fs).2 !! p = fs !! p.
Proof.
  intros Ha Hb. unfold delete_files, Fs.exists_, Fs.remove. cbn [snd].
  destruct (fs !! addresses_path i) eqn:Ea.
  - rewrite lookup_delete_ne by apply addresses_not_balances.
    destruct (fs !! balances_path i) eqn:Eb.
    + by rewrite !lookup_delete_ne.
    + by rewrite lookup_delete_ne.
  - destruct (fs !! balances_path i) eqn:Eb; [|done].
    by rewrite lookup_delete_ne.
Qed.

Lemma delete_files_shrinks i fs p :
  (delete_files i fs).2 !! p = fs !! p ∨ (delete_files i fs).2 !! p = None.
Proof.
  destruct (decide (p = addresses_path i)) as [->|Ha];
    [right; apply delete_files_gone|].
  destruct (decide (p = balances_path i)) as [->|Hb];
    [right; apply delete_files_gone|].
  left. by apply delete_files_lookup.
Qed.

Lemma delete_files_entries i fs e :
  e ∈ get_available_files (delete_files i fs).2 ↔
  e ∈ get_available_files fs ∧ index e ≠ i.
Proof.
  destruct (delete_files_gone i fs) as [Ga Gb].
  rewrite !elem_of_available. split.
  - intros (p & Hm & Hp & He).
    pose proof (file_entry_inv _ _ _ He) as (Hi & _ & _ & a & b & Hpa & Hpb & _).
    assert (Hne : index e ≠ i) by (intros E; rewrite E in Hpb; congruence).
    assert (p ≠ addresses_path i) by (intros ->; congruence).
    assert (p ≠ balances_path i) by (intros ->; congruence).
    split; [|done]. exists p. split_and!; [done| |].
    + by rewrite <- (delete_files_lookup i fs p).
    + rewrite <- He. symmetry. apply file_entry_agree.
      * by apply delete_files_lookup.
      * intros j Hj. assert (j = index e) as -> by congruence.
        apply delete_files_lookup.
        -- intros H'. symmetry in H'. by apply addresses_not_balances in H'.
        -- intros H'. by apply balances_path_inj in H'.
  - intros [(p & Hm & Hp & He) Hne].
    pose proof (file_entry_index _ _ _ He) as Hi.
    assert (p ≠ addresses_path i).
    { intros ->. rewrite parse_index_addresses in Hi. congruence. }
    assert (p ≠ balances_path i).
    { intros ->. by rewrite parse_index_balances in Hi. }
    exists p. split_and!; [done| |].
    + by rewrite delete_files_lookup.
    + rewrite <- He. apply file_entry_agree.
      * by apply delete_files_lookup.
      * intros j Hj. assert (j = index e) as -> by congruence.
        apply delete_files_lookup.
        -- intros H'. symmetry in H'. by apply addresses_not_balances in H'.
        -- intros H'. by apply balances_path_inj in H'.
Qed.

(** X8: deleting a pair removes the two files of that index and nothing
    else; the listing loses its entries of that index and keeps every
    other entry as it was. *)
Theorem delete_files_removes_the_pair (i : Z) (fs : Fs.t) :
  let '(ok, fs') := delete_files i fs in
  ok = true ∧
  fs' !! addresses_path i = None ∧ fs' !! balances_path i = None ∧
  (∀ p, p ≠ addresses_path i → p ≠ balances_path i → fs' !! p = fs !! p) ∧
  (∀ e, e ∈ get_available_files fs' ↔ e ∈ get_available_files fs ∧ index e ≠ i).
Proof.
  pose proof (delete_files_gone i fs) as [Ga Gb].
  pose proof (delete_files_lookup i fs) as Hl.
  pose proof (delete_files_entries i fs) as He.
  destruct (delete_files i fs) as [ok fs'] eqn:E.
  assert (ok = true) as -> by (unfold delete_files in E; congruence).
  done.
Qed.

(** ** Cleaning up *)

Lemma delete_all_cons d ds fs :
  delete_all (d :: ds) fs = delete_all ds (delete_files (index d) fs).2.
Proof. reflexivity. Qed.

Lemma delete_all_lookup ds fs p :
  (∀ d, d ∈ ds → p ≠ addresses_path (index d) ∧ p ≠ balances_path (index d)) →
  delete_all ds fs !! p = fs !! p.
Proof.
  revert fs. induction ds as [|d ds IH]; intros fs H; [done|].
  rewrite delete_all_cons, IH.
  - apply delete_files_lookup; apply H; left.
  - intros d' Hd'. apply H. by right.
Qed.

Lemma delete_all_shrinks ds fs p :
  delete_all ds fs !! p = fs !! p ∨ delete_all ds fs !! p = None.
Proof.
  revert fs. induction ds as [|d ds IH]; intros fs; [by left|].
  rewrite delete_all_cons.
  destruct (IH (delete_files (index d) fs).2) as [->| ->]; [|by right].
  apply delete_files_shrinks.
Qed.

Lemma delete_all_gone ds fs d :
  d ∈ ds →
  delete_all ds fs !! addresses_path (index d) = None ∧
  delete_all ds fs !! balances_path (index d) = None.
Proof.
  revert fs. induction ds as [|d' ds IH]; intros fs.
  - by rewrite elem_of_nil.
  - rewrite elem_of_cons, delete_all_cons. intros [->|H]; [|by apply IH].
    destruct (delete_files_gone (index d') fs) as [Ga Gb].
    split.
    + by destruct (delete_all_shrinks ds (delete_files (index d') fs).2
                     (addresses_path (index d'))) as [->| ->].
    + by destruct (delete_all_shrinks ds (delete_files (index d') fs).2
                     (balances_path (index d'))) as [->| ->].
Qed.

Lemma delete_all_entries ds fs e :
  e ∈ get_available_files (delete_all ds fs) ↔
  e ∈ get_available_files fs ∧ index e ∉ index <$> ds.
Proof.
  revert fs. induction ds as [|d ds IH]; intros fs.
  - change (delete_all [] fs) with fs. rewrite fmap_nil, elem_of_nil. tauto.
  - rewrite delete_all_cons, IH, delete_files_entries, fmap_cons, not_elem_of_cons.
    tauto.
Qed.

Lemma files_to_delete_sorted k fs :
  files_to_delete k fs
  = if Z.of_nat (length (get_available_files fs)) <=? k then []
    else slice_to (- k) (get_available_files fs).
Proof.
  unfold files_to_delete. by rewrite (sort_by_index_id _ (available_sorted fs)).
Qed.

Lemma slice_to_take {A} stop (l : list A) : ∃ n, slice_to stop l = take n l.
Proof. unfold slice_to. eauto. Qed.

Lemma files_to_delete_listed k fs d :
  d ∈ files_to_delete k fs → d ∈ get_available_files fs.
Proof.
  rewrite files_to_delete_sorted. destruct (_ <=? k).
  - by rewrite elem_of_nil.
  - destruct (slice_to_take (- k) (get_available_files fs)) as [n ->].
    apply (subseteq_take n).
Qed.

(** X9: a clean-up only removes files, and only those of the pairs it
    picked (which are listed pairs); the progress file and every other
    file stay as they are, and the listing afterwards is the one before
    without the entries of the picked indices. *)
Theorem cleanup_deletes_only_picked (k : Z) (fs : Fs.t) :
  (∀ d, d ∈ files_to_delete k fs → d ∈ get_available_files fs) ∧
  (∀ d, d ∈ files_to_delete k fs →
     cleanup_old_files k fs !! addresses_path (index d) = None ∧
     cleanup_old_files k fs !! balances_path (index d) = None) ∧
  (∀ p, (∀ d, d ∈ files_to_delete k fs →
           p ≠ addresses_path (index d) ∧ p ≠ balances_path (index d)) →
        cleanup_old_files k fs !! p = fs !! p) ∧
  cleanup_old_files k fs !! progress_file = fs !! progress_file ∧
  (∀ e, e ∈ get_available_files (cleanup_old_files k fs) ↔
        e ∈ get_available_files fs ∧ index e ∉ index <$> files_to_delete k fs).
Proof.
  change (cleanup_old_files k fs) with (delete_all (files_to_delete k fs) fs).
  split_and!.
  - apply files_to_delete_listed.
  - intros d. apply delete_all_gone.
  - intros p. apply delete_all_lookup.
  - apply delete_all_lookup. intros d _. split.
    + apply progress_not_addresses.
    + apply progress_not_balances.
  - intros e. apply delete_all_entries.
Qed.

Lemma length_files_to_delete k fs :
  let n := Z.of_nat (length (get_available_files fs)) in
  Z.of_nat (length (files_to_delete k fs))
  = if n <=? k then 0
    else if 0 <? k then n - k
    else Z.min (- k) n.
Proof.
  intros n. rewrite files_to_delete_sorted. fold n.
  destruct (n <=? k) eqn:E; [done|]. apply Z.leb_gt in E.
  unfold slice_to. fold n. rewrite length_take.
  destruct (0 <? k) eqn:E'.
  - apply Z.ltb_lt in E'.
    assert ((- k <? 0) = true) as -> by (apply Z.ltb_lt; lia). lia.
  - apply Z.ltb_ge in E'.
    assert ((- k <? 0) = false) as -> by (apply Z.ltb_ge; lia). lia.
Qed.

Lemma files_to_delete_take k fs :
  files_to_delete k fs
  = take (length (files_to_delete k fs)) (get_available_files fs).
Proof.
  rewrite files_to_delete_sorted. destruct (_ <=? k); [done|].
  destruct (slice_to_take (- k) (get_available_files fs)) as [n ->].
  rewrite length_take.
  destruct (Nat.min_spec n (length (get_available_files fs)))
    as [[? ->]|[? ->]]; [done|].
  by rewrite !take_ge by lia.
Qed.

(** What is left after a clean-up is among the entries it did not pick. *)
Lemma cleanup_left k fs e :
  e ∈ get_available_files (cleanup_old_files k fs) →
  e ∈ drop (length (files_to_delete k fs)) (get_available_files fs).
Proof.
  change (cleanup_old_files k fs) with (delete_all (files_to_delete k fs) fs).
  rewrite delete_all_entries. intros [He Hn].
  rewrite <- (take_drop (length (files_to_delete k fs)) (get_available_files fs))
    in He.
  apply elem_of_app in He as [He|He]; [|done].
  rewrite <- files_to_delete_take in He.
  destruct Hn. by apply list_elem_of_fmap_2.
Qed.

Lemma cleanup_bound k fs :
  0 < k →
  Z.of_nat (length (get_available_files (cleanup_old_files k fs))) ≤ k.
Proof.
  intros Hk.
  pose proof (submseteq_length _ _
    (NoDup_submseteq _ _ (NoDup_available (cleanup_old_files k fs))
       (cleanup_left k fs))) as Hlen.
  rewrite length_drop in Hlen.
  pose proof (length_files_to_delete k fs) as Hd. cbv zeta in Hd.
  destruct (_ <=? k) eqn:E.
  - apply Z.leb_le in E. lia.
  - apply Z.leb_gt in E.
    assert ((0 <? k) = true) as E' by (by apply Z.ltb_lt). rewrite E' in Hd. lia.
Qed.

(** X10: after a clean-up with a positive [keep_count] the listing has at
    most [keep_count] entries. *)
Theorem cleanup_leaves_at_most_keep_count (k : Z) (fs : Fs.t) :
  0 < k →
  Z.of_nat (length (get_available_files (cleanup_old_files k fs))) ≤ k.
Proof. apply cleanup_bound. Qed.

Lemma cleanup_leaves_at_most_keep_count_witness :
  Z.of_nat (length (get_available_files (cleanup_old_files 5 Examples.fs_eight)))
  ≤ 5.
Proof. apply (cleanup_leaves_at_most_keep_count 5 Examples.fs_eight). lia. Defined.

(** With indices that differ from entry to entry, what is left is exactly
    what was not picked. *)
Lemma cleanup_exact k fs :
  NoDup (index <$> get_available_files fs) →
  get_available_files (cleanup_old_files k fs)
  = drop (length (files_to_delete k fs)) (get_available_files fs).
Proof.
  intros Hnd.
  set (L := get_available_files fs) in *.
  set (m := length (files_to_delete k fs)).
  assert (Hinj : ∀ x y, x ∈ L → y ∈ L → index x = index y → x = y).
  { intros x y Hx Hy Hxy.
    apply list_elem_of_lookup in Hx as [a Ha], Hy as [b Hb].
    assert (a = b) as ->.
    { eapply NoDup_lookup; [exact Hnd| |]; rewrite list_lookup_fmap.
      - by rewrite Ha.
      - rewrite Hb. simpl. by rewrite Hxy. }
    congruence. }
  assert (Hsub : ∀ x, x ∈ drop m L → x ∈ L) by apply subseteq_drop.
  apply (StronglySorted_unique_strong by_index).
  - intros x y Hx Hy Hxy Hyx. apply Hinj.
    + apply cleanup_left in Hx. by apply Hsub.
    + by apply Hsub.
    + unfold by_index in *. lia.
  - apply available_sorted.
  - pose proof (available_sorted fs) as Hs. fold L in Hs.
    rewrite <- (take_drop m L) in Hs. by apply StronglySorted_app_1_r in Hs.
  - apply NoDup_Permutation.
    + apply NoDup_available.
    + pose proof (NoDup_available fs) as Hn. fold L in Hn.
      rewrite <- (take_drop m L) in Hn. by apply NoDup_app in Hn as (_ & _ & Hn).
    + intros e. split; [apply cleanup_left|].
      intros He.
      change (cleanup_old_files k fs) with (delete_all (files_to_delete k fs) fs).
      rewrite delete_all_entries. split; [by apply Hsub|].
      rewrite list_elem_of_fmap. intros (d & Hd & Hin).
      rewrite files_to_delete_take in Hin. fold L m in Hin.
      assert (e = d) as <-.
      { apply Hinj; [by apply Hsub| |done]. by apply (subseteq_take m). }
      pose proof (NoDup_available fs) as Hn. fold L in Hn.
      rewrite <- (take_drop m L) in Hn.
      apply NoDup_app in Hn as (_ & Hn & _). by apply (Hn e).
Qed.

(** X11: when no two listed batches share an index, a clean-up with
    [0 < keep_count] leaves exactly the [keep_count] entries of highest
    index (all of them when there are no more than that), as they were. *)
Theorem cleanup_keeps_newest (k : Z) (fs : Fs.t) :
  NoDup (index <$> get_available_files fs) → 0 < k →
  get_available_files (cleanup_old_files k fs)
  = drop (length (get_available_files fs) - Z.to_nat k) (get_available_files fs).
Proof.
  intros Hnd Hk. rewrite (cleanup_exact k fs Hnd). f_equal.
  pose proof (length_files_to_delete k fs) as Hd. cbv zeta in Hd.
  assert ((0 <? k) = true) as E' by (by apply Z.ltb_lt). rewrite E' in Hd.
  destruct (_ <=? k) eqn:E.
  - apply Z.leb_le in E. lia.
  - apply Z.leb_gt in E. lia.
Qed.

Lemma cleanup_keeps_newest_witness :
  index <$> get_available_files (cleanup_old_files 5 Examples.fs_eight)
  = [4; 5; 6; 7; 8].
Proof.
  rewrite (cleanup_keeps_newest 5 Examples.fs_eight).
  - by vm_compute.
  - vm_compute. repeat constructor; rewrite ?elem_of_cons, ?elem_of_nil; intuition lia.
  - lia.
Defined.

(** X12: a negative [keep_count] is taken as a number of batches to delete:
    the [- keep_count] entries of lowest index go, all of them when there
    are fewer. *)
Theorem cleanup_negative_deletes_oldest (k : Z) (fs : Fs.t) :
  NoDup (index <$> get_available_files fs) → k < 0 →
  get_available_files (cleanup_old_files k fs)
  = drop (Z.to_nat (- k)) (get_available_files fs).
Proof.
  intros Hnd Hk. rewrite (cleanup_exact k fs Hnd).
  pose proof (length_files_to_delete k fs) as Hd. cbv zeta in Hd.
  assert ((0 <? k) = false) as E' by (apply Z.ltb_ge; lia). rewrite E' in Hd.
  assert ((Z.of_nat (length (get_available_files fs)) <=? k) = false) as E
    by (apply Z.leb_gt; lia).
  rewrite E in Hd.
  destruct (decide (- k ≤ Z.of_nat (length (get_available_files fs)))).
  - f_equal. lia.
  - rewrite !drop_ge; [done|lia|lia].
Qed.

Lemma cleanup_negative_deletes_oldest_witness :
  index <$> get_available_files (cleanup_old_files (-2) Examples.fs_eight)
  = [3; 4; 5; 6; 7; 8].
Proof.
  rewrite (cleanup_negative_deletes_oldest (-2) Examples.fs_eight).
  - by vm_compute.
  - vm_compute. repeat constructor; rewrite ?elem_of_cons, ?elem_of_nil; intuition lia.
  - lia.
Defined.

(** * What a scan does to the scanner and to the world *)

Lemma lookups_app evs evs' :
  Env.lookups (evs ++ evs') = Env.lookups evs ++ Env.lookups evs'.
Proof. unfold Env.lookups. apply omap_app. Qed.

Lemma extends_refl self w : extends self w self w.
Proof.
  split; try done; try lia.
  - exists []. split; [by rewrite app_nil_r|]. simpl. lia.
  - intros p old _ H. exists EmptyString. by rewrite append_nil_r.
Qed.

Lemma extends_trans s1 w1 s2 w2 s3 w3 :
  extends s1 w1 s2 w2 → extends s2 w2 s3 w3 → extends s1 w1 s3 w3.
Proof.
  intros [A1 B1 K1 I1 R1 W1 S1 (e1 & E1 & L1) F1 G1]
         [A2 B2 K2 I2 R2 W2 S2 (e2 & E2 & L2) F2 G2].
  split; try congruence; try lia.
  - exists (e1 ++ e2). split.
    + by rewrite E2, E1, app_assoc.
    + rewrite lookups_app, length_app. lia.
  - intros p Ha Hb Hp. rewrite F2, F1; congruence.
  - intros p old Hp H. destruct (G1 p old Hp H) as [x1 H1].
    destruct (G2 p _ Hp H1) as [x2 H2]. exists (x1 +:+ x2).
    by rewrite H2, append_assoc.
Qed.

(** A change of the world that asks no balance and keeps every file but
    the progress file. *)
Lemma extends_world self w w' evs :
  events w' = events w ++ evs → Env.lookups evs = [] →
  (∀ p, p ≠ progress_file → files w' !! p = files w !! p) →
  extends self w self w'.
Proof.
  intros He Hl Hf. split; try done; try lia.
  - exists evs. split; [done|]. rewrite Hl. simpl. lia.
  - intros p _ _ Hp. by apply Hf.
  - intros p old Hp H. exists EmptyString. by rewrite append_nil_r, Hf.
Qed.

Lemma append_other p text (fs : Fs.t) q :
  q ≠ p → (Fs.append p text fs).2 !! q = fs !! q.
Proof.
  intros H. unfold Fs.append. destruct (Fs.utf8_valid text); cbn [snd].
  - by rewrite lookup_insert_ne.
  - by apply touch_lookup_ne.
Qed.

Lemma append_grows p text (fs : Fs.t) q old :
  fs !! q = Some old →
  ∃ suffix, (Fs.append p text fs).2 !! q = Some (old +:+ suffix).
Proof.
  intros H. destruct (decide (q = p)) as [->|Hq].
  - unfold Fs.append. destruct (Fs.utf8_valid text); cbn [snd].
    + exists text. by rewrite lookup_insert_eq, H.
    + exists EmptyString. rewrite append_nil_r. by apply touch_keeps.
  - exists EmptyString. by rewrite append_nil_r, append_other.
Qed.

(** The flag and the names do not matter to the counters. *)
Lemma process_address_spec env a self w e self' w' :
  process_address env a self w = (e, self', w') →
  extends self w self' w' ∧
  (∀ p, p ≠ current_addresses_file self → p ≠ current_balances_file self →
        files w' !! p = files w !! p) ∧
  Env.fetches (events w') = Env.fetches (events w) ∧
  Env.saves (events w') = Env.saves (events w).
Proof.
  unfold process_address.
  pose proof (append_other (current_addresses_file self) (address_line a) (files w))
    as Ho1.
  pose proof (append_grows (current_addresses_file self) (address_line a) (files w))
    as Hg1.
  destruct (Fs.append (current_addresses_file self) (address_line a) (files w))
    as [[[]|e1] fs1]; cbn [snd] in Ho1, Hg1.
  2:{ intros [= <- <- <-]. cbn [files events]. split_and!; try done.
      - split; try done; try lia.
        + exists []. split; [by rewrite app_nil_r|]. simpl. lia.
        + intros p Ha _ _. by apply Ho1.
        + intros p old _. apply Hg1.
      - intros p Ha _. by apply Ho1. }
  pose proof (check_balance_events env a (World fs1 (events w))) as [Hev Hfs].
  cbn [events files] in Hev, Hfs.
  assert (Hbase : extends self w (add_total self)
                    (check_balance env a (World fs1 (events w))).2).
  { split; try done; cbn [add_total total_addresses addresses_with_balance]; try lia.
    - exists [Env.EvBalance (str a)]. split; [done|]. simpl. lia.
    - intros p Ha _ _. rewrite Hfs. by apply Ho1.
    - intros p old _. rewrite Hfs. apply Hg1. }
  destruct (check_balance env a (World fs1 (events w))) as [[balance|e2] w2];
    cbn [snd] in Hev, Hfs, Hbase.
  2:{ intros [= <- <- <-]. split_and!; try done.
      - intros p Ha _. rewrite Hfs. by apply Ho1.
      - rewrite Hev, fetches_app. cbn [Env.fetches omap]. by rewrite app_nil_r.
      - rewrite Hev, saves_app.
        change (Env.saves [Env.EvBalance (str a)]) with 0%nat. lia. }
  assert (Hfe : Env.fetches (events w2) = Env.fetches (events w)).
  { rewrite Hev, fetches_app. cbn [Env.fetches omap]. by rewrite app_nil_r. }
  assert (Hsa : Env.saves (events w2) = Env.saves (events w)).
  { rewrite Hev, saves_app.
    change (Env.saves [Env.EvBalance (str a)]) with 0%nat. lia. }
  destruct (float_pos balance).
  2:{ intros [= <- <- <-]. split_and!; try done.
      intros p Ha _. rewrite Hfs. by apply Ho1. }
  cbn [add_total current_balances_file].
  pose proof (append_other (current_balances_file self) (balance_line a balance)
                (files w2)) as Ho2.
  pose proof (append_grows (current_balances_file self) (balance_line a balance)
                (files w2)) as Hg2.
  destruct (Fs.append (current_balances_file self) (balance_line a balance) (files w2))
    as [[[]|e3] fs3]; cbn [snd] in Ho2, Hg2; intros [= <- <- <-];
    cbn [files events].
  all: split_and!; try done;
    [|intros p Ha Hb; rewrite Ho2, Hfs by done; by apply Ho1].
  all: split; try done;
    cbn [add_total add_with_balance total_addresses addresses_with_balance
         current_addresses_file current_balances_file files events]; try lia.
  all: try (exists [Env.EvBalance (str a)]; split; [done|simpl; lia]).
  all: try (intros p Ha Hb _; rewrite Ho2, Hfs by done; by apply Ho1).
  all: intros p old _ H; destruct (Hg1 p old H) as [x1 H1];
    rewrite <- Hfs in H1; destruct (Hg2 p _ H1) as [x2 H2];
    exists (x1 +:+ x2); by rewrite H2, append_assoc.
Qed.

Lemma process_addresses_spec env l self w e self' w' :
  process_addresses env l self w = (e, self', w') →
  extends self w self' w' ∧
  (∀ p, p ≠ current_addresses_file self → p ≠ current_balances_file self →
        files w' !! p = files w !! p) ∧
  Env.fetches (events w') = Env.fetches (events w) ∧
  Env.saves (events w') = Env.saves (events w).
Proof.
  revert self w. induction l as [|a l IH]; intros self w; cbn [process_addresses].
  - intros [= <- <- <-]. split_and!; try done. apply extends_refl.
  - destruct (process_address env a self w) as [[e1 s1] w1] eqn:E1.
    apply process_address_spec in E1 as (X1 & F1 & G1 & S1).
    destruct e1 as [e1|].
    + intros [= <- <- <-]. done.
    + intros H. apply IH in H as (X2 & F2 & G2 & S2).
      split_and!.
      * by eapply extends_trans.
      * intros p Ha Hb. rewrite F2, F1; try done.
        -- by rewrite (ext_addresses_file _ _ _ _ X1).
        -- by rewrite (ext_balances_file _ _ _ _ X1).
      * congruence.
      * congruence.
Qed.

Lemma get_block_data_events env h w :
  events (get_block_data env h w).2 = events w ++ [Env.EvFetch h].
Proof.
  unfold get_block_data.
  destruct (Env.block_service _ _ _) as [|st body]; [done|].
  by destruct (st =? 200).
Qed.

(** One turn of the loop. *)
Lemma scan_step_spec env h self w e h' self' w' :
  scan_step env h self w = (e, h', self', w') →
  extends self w self' w' ∧
  Env.fetches (events w') = Env.fetches (events w) ++ [h] ∧
  (e = None ∧ h' = h + 1 ∨ is_Some e ∧ h' = h) ∧
  (current_addresses_file self ≠ progress_file →
   current_balances_file self ≠ progress_file →
   files w' !! progress_file = files w !! progress_file ∧
   Env.saves (events w') = Env.saves (events w) ∨
   e = None ∧ Env.saves (events w') = S (Env.saves (events w)) ∧
   ∃ now, files w' !! progress_file
          = Some (Json.dumps (progress_data self' h now))).
Proof.
  unfold scan_step.
  pose proof (get_block_data_events env h w) as Hev.
  pose proof (get_block_data_files env h w) as Hfs.
  destruct (get_block_data env h w) as [bd w1]. cbn [snd] in Hev, Hfs.
  assert (X0 : extends self w self w1).
  { apply (extends_world _ _ _ [Env.EvFetch h]); [done|done|].
    intros p _. by rewrite Hfs. }
  assert (Hf0 : Env.fetches (events w1) = Env.fetches (events w) ++ [h])
    by (by rewrite Hev, fetches_app).
  assert (Hs0 : Env.saves (events w1) = Env.saves (events w)).
  { rewrite Hev, saves_app. change (Env.saves [Env.EvFetch h]) with 0%nat. lia. }
  destruct (negb (truthy bd)).
  { intros [= <- <- <- <-]. split_and!; try done; [by left|].
    intros _ _. left. by rewrite Hfs. }
  destruct (process_addresses env (extract_addresses_from_block bd) self w1)
    as [[e1 s1] w2] eqn:E1.
  apply process_addresses_spec in E1 as (X1 & F1 & G1 & S1).
  destruct e1 as [e1|].
  - intros [= <- <- <- <-]. split_and!.
    + by eapply extends_trans.
    + congruence.
    + right. eauto.
    + intros Ha Hb. left. split; [|congruence].
      rewrite F1, Hfs; done.
  - intros [= <- <- <- <-]. split_and!.
    + eapply extends_trans; [by eapply extends_trans|].
      apply (extends_world _ _ _ [Env.EvClock; Env.EvSleep 2]).
      * cbn [sleep save_progress events]. by rewrite <- app_assoc.
      * done.
      * intros p Hp. cbn [sleep save_progress files]. by rewrite lookup_insert_ne.
    + cbn [sleep save_progress events]. rewrite !fetches_app.
      cbn [Env.fetches omap]. rewrite !app_nil_r. congruence.
    + by left.
    + intros _ _. right. split; [done|]. split.
      * cbn [sleep save_progress events]. rewrite !saves_app.
        change (Env.saves [Env.EvClock]) with 1%nat.
        change (Env.saves [Env.EvSleep 2]) with 0%nat. lia.
      * eexists. cbn [sleep save_progress files]. by rewrite lookup_insert_eq.
Qed.

(** The loop. *)
Lemma scan_loop_spec fuel env end_block h self w h' self' w' :
  scan_loop fuel env end_block h self w = Some (h', self', w') →
  extends self w self' w' ∧
  h ≤ h' ≤ Z.max h (end_block + 1) ∧
  (∃ n, Env.fetches (events w') = Env.fetches (events w) ++ seqZ h n ∧
        (n = h' - h ∨ n = h' - h + 1 ∧ h' ≤ end_block)) ∧
  (current_addresses_file self ≠ progress_file →
   current_balances_file self ≠ progress_file →
   files w' !! progress_file = files w !! progress_file ∧
   Env.saves (events w') = Env.saves (events w) ∨
   (Env.saves (events w) < Env.saves (events w'))%nat ∧
   ∃ b s now, h ≤ b < h' ∧ b ≤ end_block ∧
     files w' !! progress_file = Some (Json.dumps (progress_data s b now))).
Proof.
  revert h self w. induction fuel as [|fuel IH]; intros h self w; cbn [scan_loop].
  - destruct ((h <=? end_block) && running env self w); [done|].
    intros [= <- <- <-]. split_and!; [apply extends_refl|lia|lia| |by left].
    exists 0. split; [by rewrite app_nil_r|lia].
  - destruct (h <=? end_block) eqn:Hle; cbn [andb].
    2:{ intros [= <- <- <-]. split_and!; [apply extends_refl|lia|lia| |by left].
        exists 0. split; [by rewrite app_nil_r|lia]. }
    apply Z.leb_le in Hle.
    destruct (running env self w).
    2:{ intros [= <- <- <-]. split_and!; [apply extends_refl|lia|lia| |by left].
        exists 0. split; [by rewrite app_nil_r|lia]. }
    destruct (scan_step env h self w) as [[[e h1] s1] w1] eqn:E.
    apply scan_step_spec in E as (X1 & F1 & Hh & P1).
    destruct e as [e|].
    + destruct Hh as [[? _]|[_ ->]]; [done|].
      intros [= <- <- <-]. split_and!; [done|lia|lia| |].
      * exists 1. split; [done|lia].
      * intros Ha Hb. destruct (P1 Ha Hb) as [?|[? _]]; [by left|done].
    + destruct Hh as [[_ ->]|[[? ?] _]]; [|done].
      intros H. apply IH in H as (X2 & Hb2 & (n & F2 & Hn) & P2).
      split_and!; [by eapply extends_trans|lia|lia| |].
      * exists (1 + n). split; [|lia].
        rewrite F2, F1, <- app_assoc. f_equal.
        assert (0 ≤ n) by lia.
        replace (1 + n) with (Z.succ n) by lia.
        rewrite (seqZ_cons h) by lia. do 2 f_equal; lia.
      * intros Ha Hb.
        rewrite <- (ext_addresses_file _ _ _ _ X1) in Ha.
        rewrite <- (ext_balances_file _ _ _ _ X1) in Hb.
        destruct (P2 Ha Hb) as [[Q2 S2]|[S2 (b & s & now & Hb' & Hbe & Q2)]].
        -- rewrite (ext_addresses_file _ _ _ _ X1) in Ha.
           rewrite (ext_balances_file _ _ _ _ X1) in Hb.
           destruct (P1 Ha Hb) as [[Q1 S1]|(_ & S1 & now & Q1)].
           ++ left. split; congruence.
           ++ right. split; [lia|]. exists h, s1, now.
              split_and!; [lia|lia|lia|congruence].
        -- right. split.
           ++ rewrite (ext_addresses_file _ _ _ _ X1) in Ha.
              rewrite (ext_balances_file _ _ _ _ X1) in Hb.
              destruct (P1 Ha Hb) as [[_ S1]|(_ & S1 & _)]; lia.
           ++ exists b, s, now. split_and!; [lia|lia|lia|done].
Qed.

(** [scan_blocks] is the loop between setting and clearing the flag. *)
Lemma scan_blocks_loop env start_block end_block self w :
  ∃ h s1 w',
    scan_loop (Z.to_nat (default (start_block + default_run) end_block
                         - start_block + 1))
      env (default (start_block + default_run) end_block) start_block
      (set_running true self) w = Some (h, s1, w') ∧
    scan_blocks env start_block end_block self w
    = Some (Summary h (total_addresses s1) (addresses_with_balance s1)
              (current_file_index s1), set_running false s1, w').
Proof.
  unfold scan_blocks.
  edestruct (scan_loop_total
               (Z.to_nat (default (start_block + default_run) end_block
                          - start_block + 1)) env
               (default (start_block + default_run) end_block) start_block
               (set_running true self) w) as [[[h s] w'] E]; [lia|].
  exists h, s, w'. split; [done|]. by rewrite E.
Qed.

(** X13: a scan changes no file but the two logs of the current batch and
    the progress file, and whatever a file other than the progress file
    held before is still there, at its head: the logs are only added to. *)
Theorem scan_only_adds_to_its_logs (env : Env.t) (start_block : Z)
  (end_block : option Z) (self : Scanner.t) (w : world) :
  ∃ s self' w',
    scan_blocks env start_block end_block self w = Some (s, self', w') ∧
    (∀ p, p ≠ current_addresses_file self → p ≠ current_balances_file self →
          p ≠ progress_file → files w' !! p = files w !! p) ∧
    (∀ p old, p ≠ progress_file → files w !! p = Some old →
              ∃ suffix, files w' !! p = Some (old +:+ suffix)).
Proof.
  destruct (scan_blocks_loop env start_block end_block self w)
    as (h & s1 & w' & Hloop & ->).
  apply scan_loop_spec in Hloop as (X & _).
  eexists _, _, _. split; [done|]. split.
  - apply (ext_frame _ _ _ _ X).
  - apply (ext_grows _ _ _ _ X).
Qed.

(** X14: a scan never assigns [self.current_block]: afterwards [get_stats]
    still reports the block the scanner held before, whatever height the
    scan reached, next to the counters of the returned summary and a
    cleared flag; the batch index is the one of before. *)
Theorem stats_keep_the_old_block (env : Env.t) (start_block : Z)
  (end_block : option Z) (self : Scanner.t) (w : world) :
  ∃ s self' w',
    scan_blocks env start_block end_block self w = Some (s, self', w') ∧
    let stats := get_stats self' (files w') in
    stat_current_block stats = current_block self ∧
    stat_is_running stats = false ∧
    stat_total_addresses stats = sum_total_addresses s ∧
    stat_addresses_with_balance stats = sum_addresses_with_balance s ∧
    stat_current_file_index stats = current_file_index self ∧
    sum_current_file_index s = current_file_index self ∧
    current_addresses_file self' = current_addresses_file self ∧
    current_balances_file self' = current_balances_file self.
Proof.
  destruct (scan_blocks_loop env start_block end_block self w)
    as (h & s1 & w' & Hloop & ->).
  apply scan_loop_spec in Hloop as (X & _).
  destruct X as [A B K I R _ _ _ _ _].
  eexists _, _, _. split; [done|]. by cbn.
Qed.

(** X15: the counters only grow, and by what the scan did: each address
    counted in [total_addresses] was asked of the balance service once,
    and [addresses_with_balance] grows by no more than that. *)
Theorem counters_count_the_lookups (env : Env.t) (start_block : Z)
  (end_block : option Z) (self : Scanner.t) (w : world) :
  ∃ s self' w' evs,
    scan_blocks env start_block end_block self w = Some (s, self', w') ∧
    events w' = events w ++ evs ∧
    sum_total_addresses s
    = total_addresses self + Z.of_nat (length (Env.lookups evs)) ∧
    total_addresses self' = sum_total_addresses s ∧
    addresses_with_balance self' = sum_addresses_with_balance s ∧
    addresses_with_balance self ≤ sum_addresses_with_balance s ∧
    sum_addresses_with_balance s
    ≤ addresses_with_balance self + Z.of_nat (length (Env.lookups evs)).
Proof.
  destruct (scan_blocks_loop env start_block end_block self w)
    as (h & s1 & w' & Hloop & ->).
  apply scan_loop_spec in Hloop as (X & _).
  destruct X as [_ _ _ _ _ W S (evs & E & L) _ _].
  cbn [set_running total_addresses addresses_with_balance] in *.
  eexists _, _, _, evs. split; [done|].
  cbn [sum_total_addresses sum_addresses_with_balance]. split_and!; try done; lia.
Qed.

(** X16: within one call the heights are asked of the block service in
    ascending order from [start_block], each once and none left out; no
    more are asked than the range holds, and the height returned is the
    one after the last asked, or the last asked itself when an exception
    ended the scan there. *)
Theorem blocks_are_fetched_in_order (env : Env.t) (start_block : Z)
  (end_block : option Z) (self : Scanner.t) (w : world) :
  ∃ s self' w' n,
    scan_blocks env start_block end_block self w = Some (s, self', w') ∧
    Env.fetches (events w') = Env.fetches (events w) ++ seqZ start_block n ∧
    0 ≤ n ≤
      Z.max 0 (default (start_block + default_run) end_block - start_block + 1) ∧
    start_block ≤ sum_current_block s ∧
    (sum_current_block s = start_block + n ∨
     sum_current_block s = start_block + n - 1 ∧
     sum_current_block s ≤ default (start_block + default_run) end_block).
Proof.
  destruct (scan_blocks_loop env start_block end_block self w)
    as (h & s1 & w' & Hloop & ->).
  apply scan_loop_spec in Hloop as (_ & Hb & (n & F & Hn) & _).
  eexists _, _, _, n. split; [done|]. cbn [sum_current_block].
  split_and!; [done|lia|lia|lia|lia].
Qed.

Lemma load_progress_agree (fs fs' : Fs.t) :
  fs' !! progress_file = fs !! progress_file →
  load_progress fs' = load_progress fs.
Proof. intros H. unfold load_progress, Fs.read. by rewrite H. Qed.

(** X17: what a scan leaves in the progress file lags behind the height it
    returns.  Either it saved nothing and [load_progress] gives what it
    gave before, or [load_progress] gives a height of the range that is
    below the returned one: a block this scan has already been through,
    and the one at which the bot's next scan starts. *)
Theorem saved_block_is_behind_returned (env : Env.t) (start_block : Z)
  (end_block : option Z) (self : Scanner.t) (w : world) :
  current_addresses_file self ≠ progress_file →
  current_balances_file self ≠ progress_file →
  ∃ s self' w',
    scan_blocks env start_block end_block self w = Some (s, self', w') ∧
    (Env.saves (events w') = Env.saves (events w) ∧
     load_progress (files w') = load_progress (files w)
     ∨
     (Env.saves (events w) < Env.saves (events w'))%nat ∧
     ∃ b, start_block ≤ b < sum_current_block s ∧
          b ≤ default (start_block + default_run) end_block ∧
          b ∈ Env.fetches (events w') ∧
          load_progress (files w') = Ok (JInt b)).
Proof.
  intros Ha Hb.
  destruct (scan_blocks_loop env start_block end_block self w)
    as (h & s1 & w' & Hloop & ->).
  apply scan_loop_spec in Hloop as (_ & Hh & (n & F & Hn) & P).
  eexists _, _, _. split; [done|]. cbn [sum_current_block].
  destruct (P Ha Hb) as [[Q S]|[S (b & s & now & Hb' & Hbe & Q)]].
  - left. split; [done|]. by apply load_progress_agree.
  - right. split; [done|]. exists b. split_and!; [lia|lia|lia| |].
    + rewrite F, elem_of_app. right. apply elem_of_seqZ. lia.
    + by eapply load_progress_dumps.
Qed.

Lemma saved_block_is_behind_returned_witness :
  ∃ s self' w',
    scan_blocks Examples.env_one_block 100 (Some 102) Examples.self_fresh
      Examples.w_fresh = Some (s, self', w') ∧
    (Env.saves (events w') = Env.saves (events Examples.w_fresh) ∧
     load_progress (files w') = load_progress (files Examples.w_fresh)
     ∨
     (Env.saves (events Examples.w_fresh) < Env.saves (events w'))%nat ∧
     ∃ b, 100 ≤ b < sum_current_block s ∧
          b ≤ default (100 + default_run) (Some 102) ∧
          b ∈ Env.fetches (events w') ∧
          load_progress (files w') = Ok (JInt b)).
Proof.
  apply (saved_block_is_behind_returned Examples.env_one_block 100 (Some 102)
           Examples.self_fresh Examples.w_fresh); by vm_compute.
Defined.

(** * Balances *)

(** A quotient with a negative numerator is never above zero. *)
Lemma round_quotient_negative m b : float_pos (round_quotient true m b) = false.
Proof.
  unfold round_quotient, SFdiv.
  destruct (SFdiv_core_binary _ _ _ _ _ _) as [[mz ez] lz].
  unfold binary_round_aux.
  destruct (shr_fexp _ _ _ _ _) as [mrs' e'].
  destruct (shr_fexp _ _ _ _ _) as [mrs'' e''].
  destruct (shr_m mrs''); [done| |done].
  by destruct (_ <=? _).
Qed.

Lemma int_truediv_nonpositive n b balance :
  n ≤ 0 → int_truediv n b = Ok balance → float_pos balance = false.
Proof.
  intros Hn. unfold int_truediv. destruct n as [|m|m]; [|lia|].
  - by intros [= <-].
  - change (Z.neg m <? 0) with true.
    pose proof (round_quotient_negative m b) as H.
    destruct (round_quotient true m b); by intros [= <-].
Qed.

(** What [process_address] does when the balance is not above zero: the
    address is logged and counted, and that is all. *)
Lemma process_address_no_balance env a self w r :
  Fs.utf8_valid (address_line a) = true →
  (check_balance env a
     (World (<[current_addresses_file self :=
                 default EmptyString (files w !! current_addresses_file self)
                 +:+ address_line a]> (files w)) (events w))).1 = r →
  match r with Ok balance => float_pos balance = false | Raise _ => True end →
  process_address env a self w
  = (match r with Ok _ => None | Raise e => Some e end, add_total self,
     World (<[current_addresses_file self :=
                default EmptyString (files w !! current_addresses_file self)
                +:+ address_line a]> (files w))
           (events w ++ [Env.EvBalance (str a)])).
Proof.
  intros Hu Hr Hpos. unfold process_address, Fs.append. rewrite Hu.
  set (fs1 := <[_ := _]> (files w)) in *.
  pose proof (check_balance_events env a (World fs1 (events w))) as [Hev Hfs].
  cbn [events files] in Hev, Hfs.
  destruct (check_balance env a (World fs1 (events w))) as [r' [fs2 ev2]].
  cbn [fst snd events files] in *. subst r' fs2 ev2.
  destruct r as [balance|e]; [|done]. by rewrite Hpos.
Qed.

(** X18: for an address that is not a float, a balance request that
    fails, or is answered with a status other than 200, or with a dict
    that does not hold the address, counts as a balance of zero: the
    address is logged and counted, nothing is written to the balance
    log. *)
Theorem failed_lookup_counts_as_zero (env : Env.t) (a : scalar)
  (self : Scanner.t) (w : world) :
  not_float a →
  Fs.utf8_valid (address_line a) = true →
  (Env.absent (Env.balance_service env (length (events w)) (str a)) ∨
   ∃ kvs, Env.balance_service env (length (events w)) (str a)
          = Env.Response 200 (JObj kvs) ∧
          contains a (JObj kvs) = Ok false) →
  (check_balance env a w).1 = Ok zero ∧
  process_address env a self w
  = (None, add_total self,
     World (<[current_addresses_file self :=
                default EmptyString (files w !! current_addresses_file self)
                +:+ address_line a]> (files w))
           (events w ++ [Env.EvBalance (str a)])).
Proof.
  intros _ Hu Hr.
  assert (Hcb : ∀ fs, (check_balance env a (World fs (events w))).1 = Ok zero).
  { intros fs. unfold check_balance. cbn [events files].
    destruct Hr as [Habs|(kvs & -> & Hc)].
    - destruct (Env.balance_service _ _ _) as [|st data]; [done|].
      simpl in Habs. apply Z.eqb_neq in Habs. by rewrite Habs.
    - change (200 =? 200) with true. cbv iota. by rewrite Hc. }
  split.
  - destruct w as [fs evs]. apply Hcb.
  - by rewrite (process_address_no_balance env a self w (Ok zero)).
Qed.

Lemma failed_lookup_counts_as_zero_witness :
  process_address
    (Env.Make (λ _ _, Env.RequestException) (λ _ _, Env.Response 503 JNull)
       (λ _, Examples.noon) (λ _, false))
    (SStr "X") Examples.self_fresh Examples.w_fresh
  = (None, add_total Examples.self_fresh,
     World (<[addresses_path 1 := "X" +:+ Examples.lf]> Examples.fs_fresh)
           [Env.EvBalance "X"]).
Proof.
  refine (proj2 (failed_lookup_counts_as_zero _ (SStr "X") Examples.self_fresh
                   Examples.w_fresh _ _ _)).
  - exact I.
  - by vm_compute.
  - left. by vm_compute.
Defined.

(** X19: a [final_balance] that is zero or negative leaves no line in the
    balance log and does not count in [addresses_with_balance]; the
    address is logged and counted like any other.  (A negative amount so
    large that the division overflows ends the walk instead.) *)
Theorem nonpositive_balance_is_not_recorded (env : Env.t) (a : scalar)
  (self : Scanner.t) (w : world) (data balance_data : json) (n : Z) :
  Fs.utf8_valid (address_line a) = true →
  Env.balance_service env (length (events w)) (str a) = Env.Response 200 data →
  contains a data = Ok true →
  getitem data a = Ok balance_data →
  get balance_data "final_balance" (JInt 0) = Ok (JInt n) →
  n ≤ 0 →
  ∃ e, process_address env a self w
       = (e, add_total self,
          World (<[current_addresses_file self :=
                     default EmptyString (files w !! current_addresses_file self)
                     +:+ address_line a]> (files w))
                (events w ++ [Env.EvBalance (str a)])) ∧
       (e = None ∨ e = Some OverflowError).
Proof.
  intros Hu Hr Hc Hg Hf Hn.
  set (fs1 := <[current_addresses_file self :=
                  default EmptyString (files w !! current_addresses_file self)
                  +:+ address_line a]> (files w)).
  assert (Hcb : (check_balance env a (World fs1 (events w))).1
                = int_truediv n scale).
  { unfold check_balance. cbn [events files]. rewrite Hr.
    change (200 =? 200) with true. cbv iota. rewrite Hc. cbv iota.
    cbn [fst]. rewrite Hg. cbn [bind]. rewrite Hf. done. }
  destruct (int_truediv n scale) as [balance|e] eqn:E.
  - exists None. split; [|by left].
    apply (process_address_no_balance env a self w (Ok balance) Hu Hcb).
    by eapply int_truediv_nonpositive.
  - exists (Some e). split.
    + by apply (process_address_no_balance env a self w (Raise e) Hu Hcb).
    + right. f_equal. unfold int_truediv in E.
      destruct n as [|m|m]; [done| |];
        destruct (round_quotient _ _ _); congruence.
Qed.

Lemma nonpositive_balance_is_not_recorded_witness :
  ∃ e, process_address
         (Env.Make (λ _ _, Env.RequestException)
            (λ _ a, Env.Response 200 (Examples.balance_of a (-5)))
            (λ _, Examples.noon) (λ _, false))
         (SStr "X") Examples.self_fresh Examples.w_fresh
       = (e, add_total Examples.self_fresh,
          World (<[addresses_path 1 := "X" +:+ Examples.lf]> Examples.fs_fresh)
                [Env.EvBalance "X"]) ∧
       (e = None ∨ e = Some OverflowError).
Proof.
  refine (nonpositive_balance_is_not_recorded _ (SStr "X") Examples.self_fresh
            Examples.w_fresh (Examples.balance_of "X" (-5))
            (JObj [("final_balance", JInt (-5))]) (-5) _ _ _ _ _ _);
    by vm_compute.
Defined.

(** * The extractor *)

(** X20: a payload that is not a dict, or a dict without the key [blocks],
    yields no address; when it comes with status 200 and is not empty,
    the turn of the loop still saves progress at its height and moves
    on, with nothing logged. *)
Theorem nothing_extracted_without_blocks (block_data : json) :
  (∀ kvs, block_data = JObj kvs → assoc "blocks" kvs = None) →
  extract_addresses_from_block block_data = [] ∧
  ∀ env h self w,
    Env.block_service env (length (events w)) h = Env.Response 200 block_data →
    truthy block_data = true →
    scan_step env h self w
    = (None, h + 1, self,
       sleep 2 (save_progress env self h
                  (World (files w) (events w ++ [Env.EvFetch h])))).
Proof.
  intros H.
  assert (He : extract_addresses_from_block block_data = []).
  { unfold extract_addresses_from_block, visit_block_data.
    destruct block_data as [| | | |t|l|kvs]; simpl; try done.
    - by destruct (PyStr.contains "blocks" t).
    - by destruct (existsb _ l).
    - by rewrite (H kvs eq_refl). }
  split; [done|].
  intros env h self w Hr Ht. unfold scan_step, get_block_data. rewrite Hr.
  change (200 =? 200) with true. cbv iota. by rewrite Ht, He.
Qed.

Lemma nothing_extracted_without_blocks_witness :
  extract_addresses_from_block (JObj [("error", JStr "not found")]) = [].
Proof.
  refine (proj1 (nothing_extracted_without_blocks
                   (JObj [("error", JStr "not found")]) _)).
  by intros kvs [= <-].
Defined.

Lemma covers_mono s s' pool : s ⊆ s' → covers s pool → covers s' pool.
Proof. intros Hs Hc x Hx. destruct (Hc x Hx) as (y & Hy & E). eauto. Qed.

Lemma covers_nil s : covers s [].
Proof. by intros x Hx%elem_of_nil. Qed.

Lemma set_add_covers x s : s ⊆ set_add x s ∧ covers (set_add x s) [x].
Proof.
  unfold set_add. destruct (existsb (scalar_eqb x) s) eqn:E.
  - split; [done|]. intros y ->%list_elem_of_singleton.
    apply existsb_exists in E as (z & Hz & E). exists z. split; [|done].
    by apply list_elem_of_In.
  - split; [intros z Hz; apply elem_of_app; by left|].
    intros y ->%list_elem_of_singleton. exists x. split.
    + apply elem_of_app. right. by apply list_elem_of_singleton.
    + apply scalar_eqb_refl.
Qed.

Lemma for_each_complete {A} (body : A → list scalar → list scalar * option exn)
    (pool : A → list scalar) l s s' :
  (∀ x t t', x ∈ l → body x t = (t', None) → t ⊆ t' ∧ covers t' (pool x)) →
  for_each body l s = (s', None) →
  s ⊆ s' ∧ ∀ x, x ∈ l → covers s' (pool x).
Proof.
  revert s. induction l as [|x l IH]; intros s Hbody; cbn [for_each].
  - intros [= <-]. split; [done|]. by intros x Hx%elem_of_nil.
  - destruct (body x s) as [s1 [e|]] eqn:E; [done|].
    destruct (Hbody x s s1 ltac:(left) E) as [Hs1 Hc1].
    intros H. apply IH in H as [Hs' Hc'].
    + split; [by etrans|]. intros y [->|Hy]%elem_of_cons; [|by apply Hc'].
      by eapply covers_mono.
    + intros y t t' Hy. apply Hbody. by right.
Qed.

Lemma visit_output_complete output s s' :
  visit_output output s = (s', None) →
  s ⊆ s' ∧ covers s' (Spec.output_address output).
Proof.
  unfold visit_output, Spec.output_address.
  destruct output as [| | | |t|l|kvs]; simpl; try done.
  - destruct (PyStr.contains "addr" t); [done|].
    intros [= <-]. split; [done|apply covers_nil].
  - destruct (existsb _ l); [done|].
    intros [= <-]. split; [done|apply covers_nil].
  - destruct (assoc "addr" kvs) as [v|]; simpl.
    + destruct (to_scalar v) as [x|e]; simpl; [|done].
      intros [= <-]. apply set_add_covers.
    + intros [= <-]. split; [done|apply covers_nil].
Qed.

Lemma covers_bind {A} (pool : A → list scalar) (l : list A) s :
  (∀ x, x ∈ l → covers s (pool x)) → covers s (l ≫= pool).
Proof.
  intros H a Ha. apply list_elem_of_bind in Ha as (x & Ha & Hx).
  by apply (H x).
Qed.

Lemma for_each_strings {A} (body : json → list scalar → list scalar * option exn)
    (f : A → string) (l : list A) s s' :
  (∀ x t t', body x t = (t', None) → t ⊆ t') →
  for_each body ((λ a, JStr (f a)) <$> l) s = (s', None) → s ⊆ s'.
Proof.
  intros Hbody H.
  apply (for_each_complete body (λ _, [])) in H as [H _]; [done|].
  intros x t t' _ E. split; [by eapply Hbody|apply covers_nil].
Qed.

Lemma visit_tx_complete tx s s' :
  visit_tx tx s = (s', None) →
  s ⊆ s' ∧
  covers s' (Spec.items (Spec.field "out" tx) ≫= Spec.output_address).
Proof.
  unfold visit_tx.
  destruct tx as [| | | | | |kvs]; simpl; try done.
  destruct (assoc "out" kvs) as [outs|]; simpl.
  2:{ intros [= <-]. split; [done|apply covers_nil]. }
  destruct outs as [| | | |t|l|kvs']; simpl; try done.
  - intros H. split; [|apply covers_nil].
    apply (for_each_strings visit_output id (PyStr.chars t)).
    + intros x u u' E. by apply visit_output_complete in E as [? _].
    + exact H.
  - intros H.
    apply (for_each_complete visit_output Spec.output_address) in H as [Hs Hc].
    + split; [done|]. by apply covers_bind.
    + intros x u u' _. apply visit_output_complete.
  - intros H. split; [|apply covers_nil].
    apply (for_each_strings visit_output fst kvs').
    + intros x u u' E. by apply visit_output_complete in E as [? _].
    + done.
Qed.

Lemma visit_block_complete block s s' :
  visit_block block s = (s', None) →
  s ⊆ s' ∧
  covers s' (Spec.sampled_transactions block ≫= λ tx,
             Spec.items (Spec.field "out" tx) ≫= Spec.output_address).
Proof.
  unfold visit_block, Spec.sampled_transactions.
  destruct block as [| | | |t|l|kvs]; simpl; try done.
  - destruct (PyStr.contains "tx" t); [done|].
    intros [= <-]. split; [done|apply covers_nil].
  - destruct (existsb _ l); [done|].
    intros [= <-]. split; [done|apply covers_nil].
  - destruct (assoc "tx" kvs) as [txs|]; simpl.
    2:{ intros [= <-]. split; [done|apply covers_nil]. }
    destruct txs as [| | | |t|l|kvs']; simpl; try done.
    + intros H. split; [|apply covers_nil].
      apply (for_each_strings visit_tx id (PyStr.chars (substring 0 3 t))).
      * intros x u u' E. by apply visit_tx_complete in E as [? _].
      * exact H.
    + intros H.
      apply (for_each_complete visit_tx
               (λ tx, Spec.items (Spec.field "out" tx) ≫= Spec.output_address))
        in H as [Hs Hc].
      * split; [done|]. by apply covers_bind.
      * intros x u u' _. apply visit_tx_complete.
Qed.

Lemma visit_block_data_complete block_data s' :
  visit_block_data block_data = (s', None) →
  covers s' (Spec.sampled_addresses block_data).
Proof.
  unfold visit_block_data, Spec.sampled_addresses.
  destruct block_data as [| | | |t|l|kvs]; simpl; try done.
  - intros _. apply covers_nil.
  - intros _. apply covers_nil.
  - destruct (assoc "blocks" kvs) as [blocks|]; simpl.
    2:{ intros _. apply covers_nil. }
    destruct blocks as [| | | |t|l|kvs']; simpl; try done.
    + intros _. apply covers_nil.
    + intros H.
      apply (for_each_complete visit_block
               (λ block, Spec.sampled_transactions block ≫= λ tx,
                  Spec.items (Spec.field "out" tx) ≫= Spec.output_address))
        in H as [Hs Hc].
      * by apply covers_bind.
      * intros x u u' _. apply visit_block_complete.
    + intros _. apply covers_nil.
Qed.

(** X21: when the walk over the payload meets no exception, no output
    address of a sampled transaction is missed: each is in the list
    returned, or a value equal to it in Python's sense is (the set keeps
    one of two equal values). *)
Theorem extractor_misses_nothing (block_data : json) :
  (visit_block_data block_data).2 = None →
  ∀ x, x ∈ Spec.sampled_addresses block_data →
       ∃ y, y ∈ extract_addresses_from_block block_data ∧ scalar_eqb x y = true.
Proof.
  intros H. unfold extract_addresses_from_block.
  destruct (visit_block_data block_data) as [s' e] eqn:E. simpl in H. subst e.
  by apply visit_block_data_complete in E.
Qed.

Lemma extractor_misses_nothing_witness :
  ∃ y, y ∈ extract_addresses_from_block (Examples.block_with "X") ∧
       scalar_eqb (SStr "X") y = true.
Proof.
  apply (extractor_misses_nothing (Examples.block_with "X")).
  - reflexivity.
  - vm_compute. constructor.
Defined.

(** * A progress file cut short *)

Lemma start_step_no_rbrace a ts st :
  Ascii.eqb a "}" = false → Json.start_step a = Some (ts, st) →
  Json.TRBrace ∉ ts.
Proof.
  intros Ha. unfold Json.start_step. rewrite Ha.
  repeat match goal with
         | |- context [if ?c then _ else _] => destruct c
         end;
    intros [= <- <-]; rewrite ?elem_of_nil, ?list_elem_of_singleton; first [done|tauto].
Qed.

(** A text without closing brace has none among its tokens. *)
Lemma lex_no_rbrace s st ts :
  PyStr.has_char "}" s = false → Json.lex st s = Some ts → Json.TRBrace ∉ ts.
Proof.
  revert st ts. induction s as [|a s IH]; intros st ts.
  - intros _. cbn [Json.lex]. destruct st; try done.
    + intros [= <-]. apply not_elem_of_nil.
    + destruct (Json.word_value w); cbn [mbind option_bind]; [|done].
      intros [= <-]. by rewrite list_elem_of_singleton.
  - cbn [PyStr.has_char]. intros [Ha Hs]%orb_false_elim.
    cbn [Json.lex]. destruct st.
    + destruct (Json.start_step a) as [[ts0 st']|] eqn:E;
        cbn [mbind option_bind]; [|done].
      destruct (Json.lex st' s) as [r|] eqn:E2; cbn [mbind option_bind]; [|done].
      intros [= <-]. rewrite not_elem_of_app. split.
      * by eapply start_step_no_rbrace.
      * by eapply IH.
    + destruct (Json.is_word_char a); [by apply IH|].
      destruct (Json.word_value w); cbn [mbind option_bind]; [|done].
      destruct (Json.start_step a) as [[ts0 st']|] eqn:E;
        cbn [mbind option_bind]; [|done].
      destruct (Json.lex st' s) as [r|] eqn:E2; cbn [mbind option_bind]; [|done].
      intros [= <-]. rewrite not_elem_of_cons, not_elem_of_app. split_and!.
      * done.
      * by eapply start_step_no_rbrace.
      * by eapply IH.
    + destruct (Ascii.eqb a Json.dquote).
      * destruct (Json.lex Json.LxStart s) as [r|] eqn:E2;
          cbn [mbind option_bind]; [|done].
        intros [= <-]. rewrite not_elem_of_cons. split; [done|by eapply IH].
      * destruct (Ascii.eqb a Json.backslash); [by apply IH|].
        destruct (PyStr.code a <? 32); [done|by apply IH].
    + destruct (Ascii.eqb a "u"); [by apply IH|].
      destruct (Json.escape a); cbn [mbind option_bind]; [by apply IH|done].
    + destruct (Json.hex_val a); cbn [mbind option_bind]; [|done].
      destruct seen as [|x1 [|x2 [|x3 [|]]]]; by apply IH.
Qed.

(** What the parser leaves is part of what it was given, and an object
    does not end without a closing brace. *)
Lemma parse_rest fuel :
  (∀ ts v r, Json.parse_value fuel ts = Some (v, r) → r ⊆ ts) ∧
  (∀ ts acc v r, Json.parse_elems fuel ts acc = Some (v, r) → r ⊆ ts) ∧
  (∀ ts acc v r, Json.parse_members fuel ts acc = Some (v, r) →
     r ⊆ ts ∧ Json.TRBrace ∈ ts).
Proof.
  induction fuel as [|fuel (IHv & IHe & IHm)]; [by split_and!|].
  split_and!.
  - intros ts v r. cbn [Json.parse_value].
    destruct ts as [|[] ts]; try done.
    + destruct ts as [|[] ts];
        try (intros [= <- <-]; intros t Ht; by do 2 apply list_elem_of_further).
      all: intros H; apply IHm in H as [H _]; intros t Ht;
        by apply list_elem_of_further, H.
    + destruct ts as [|[] ts];
        try (intros [= <- <-]; intros t Ht; by do 2 apply list_elem_of_further).
      all: intros H; apply IHe in H; intros t Ht;
        by apply list_elem_of_further, H.
    + intros [= <- <-]. intros t Ht. by apply list_elem_of_further.
  - intros ts acc v r H.
    change (Json.parse_elems (S fuel) ts acc) with
      ('(v, r) ← Json.parse_value fuel ts;
       match r with
       | Json.TComma :: r' => Json.parse_elems fuel r' (acc ++ [v])
       | Json.TRBrack :: r' => Some (JArr (acc ++ [v]), r')
       | _ => None
       end) in H.
    destruct (Json.parse_value fuel ts) as [[v1 r1]|] eqn:E; [|done].
    apply IHv in E. cbn [mbind option_bind] in H.
    destruct r1 as [|[] r1]; try done.
    + injection H as <- <-. intros t Ht. by apply E, list_elem_of_further.
    + apply IHe in H. intros t Ht. by apply E, list_elem_of_further, H.
  - intros ts acc v r H.
    destruct ts as [|[| | | | | |[]] [|[] ts]]; try done.
    change (Json.parse_members (S fuel)
              (Json.TVal (JStr s) :: Json.TColon :: ts) acc) with
      ('(v, r') ← Json.parse_value fuel ts;
       match r' with
       | Json.TComma :: r'' => Json.parse_members fuel r'' (dict_set s v acc)
       | Json.TRBrace :: r'' => Some (JObj (dict_set s v acc), r'')
       | _ => None
       end) in H.
    destruct (Json.parse_value fuel ts) as [[v1 r1]|] eqn:E; [|done].
    apply IHv in E. cbn [mbind option_bind] in H.
    destruct r1 as [|[] r1]; try done.
    + injection H as <- <-. split.
      * intros t Ht. do 2 apply list_elem_of_further.
        by apply E, list_elem_of_further.
      * do 2 apply list_elem_of_further. apply E. by left.
    + apply IHm in H as [H Hb]. split.
      * intros t Ht. do 2 apply list_elem_of_further.
        by apply E, list_elem_of_further, H.
      * do 2 apply list_elem_of_further. by apply E, list_elem_of_further.
Qed.

Lemma parse_object_needs_rbrace fuel ts x :
  Json.parse_value fuel (Json.TLBrace :: ts) = Some x → Json.TRBrace ∈ ts.
Proof.
  destruct fuel as [|fuel]; [done|]. destruct x as [v r].
  cbn [Json.parse_value].
  destruct ts as [|[] ts]; try (intros H; by apply (parse_rest fuel) in H as [_ H]).
  intros _. by left.
Qed.

Lemma loads_unclosed s :
  PyStr.has_char "}" s = false → Json.loads (String "{" s) = None.
Proof.
  intros Hs. unfold Json.loads.
  change (Json.lex Json.LxStart (String "{" s))
    with (r ← Json.lex Json.LxStart s; Some (Json.TLBrace :: r)).
  destruct (Json.lex Json.LxStart s) as [r|] eqn:E; cbn [mbind option_bind]; [|done].
  destruct (Json.parse_value _ _) as [[v rest]|] eqn:P; [|done].
  apply parse_object_needs_rbrace in P. by apply lex_no_rbrace in E.
Qed.

Lemma prefix_of_snoc pre suf s c :
  pre +:+ suf = s +:+ String c EmptyString → suf ≠ EmptyString →
  ∃ t, s = pre +:+ t.
Proof.
  revert s. induction pre as [|a pre IH]; intros s H Hsuf.
  - exists s. by rewrite append_nil.
  - rewrite append_cons in H. destruct s as [|b s].
    + rewrite append_nil in H. injection H as _ H.
      destruct pre; [by rewrite append_nil in H|by rewrite append_cons in H].
    + rewrite append_cons in H. injection H as -> H.
      destruct (IH s H Hsuf) as [t ->]. exists t. by rewrite append_cons.
Qed.

(** The record as text: an opening brace, a body without closing brace,
    the closing brace. *)
Lemma dumps_progress_body self b now :
  ∃ body, Json.dumps (progress_data self b now)
          = String "{" (body +:+ String "}" EmptyString) ∧
          PyStr.has_char "}" body = false.
Proof.
  exists (Json.quote "current_block" +:+ ": " +:+ PyStr.of_int b +:+ ", " +:+
          Json.quote "timestamp" +:+ ": " +:+ Json.float_json now +:+ ", " +:+
          Json.quote "total_addresses" +:+ ": " +:+
            PyStr.of_int (total_addresses self) +:+ ", " +:+
          Json.quote "addresses_with_balance" +:+ ": " +:+
            PyStr.of_int (addresses_with_balance self) +:+ ", " +:+
          Json.quote "current_file_index" +:+ ": " +:+
            PyStr.of_int (current_file_index self)).
  split.
  - rewrite dumps_progress, !append_assoc. by rewrite append_cons, append_nil.
  - rewrite !has_char_app, !of_int_has_char by done.
    rewrite (has_char_all "}" Json.is_word_char (Json.float_json now));
      [done|done|apply float_json_word].
Qed.

Lemma loads_truncated self b now pre suf :
  Json.dumps (progress_data self b now) = pre +:+ suf → suf ≠ EmptyString →
  Json.loads pre = None ∧ Fs.utf8_valid pre = true.
Proof.
  intros H Hsuf. split.
  - destruct (dumps_progress_body self b now) as (body & Hd & Hb).
    rewrite Hd in H. destruct pre as [|a pre]; [done|].
    rewrite append_cons in H. injection H as <- H. symmetry in H.
    destruct (prefix_of_snoc _ _ _ _ H Hsuf) as [t ->].
    rewrite has_char_app in Hb. apply orb_false_elim in Hb as [Hb _].
    by apply loads_unclosed.
  - pose proof (dumps_progress_ascii self b now) as Ha.
    rewrite H, all_chars_app in Ha. apply andb_prop in Ha as [Ha _].
    by apply utf8_ascii.
Qed.

(** X22: [save_progress] writes the record in place; when only an initial
    part of it has reached the file, [load_progress] does not fail and
    does not return the block of the record: it returns 0. *)
Theorem truncated_progress_reads_as_zero (env : Env.t) (self : Scanner.t)
  (b : Z) (w : world) (fs : Fs.t) (pre suf : string) :
  files (save_progress env self b w) !! progress_file = Some (pre +:+ suf) →
  suf ≠ EmptyString →
  fs !! progress_file = Some pre →
  load_progress fs = Ok (JInt 0).
Proof.
  unfold save_progress. cbn [files]. rewrite lookup_insert_eq.
  intros [= H] Hsuf Hfs.
  destruct (loads_truncated _ _ _ _ _ H Hsuf) as [Hl Hu].
  unfold load_progress, Fs.read. rewrite Hfs. cbn [mbind option_bind].
  by rewrite Hu, Hl.
Qed.

Lemma truncated_progress_reads_as_zero_witness :
  load_progress
    (<[progress_file := "{" +:+ Json.quote "current_block" +:+ ": 100"]>
       Examples.fs_fresh)
  = Ok (JInt 0).
Proof.
  apply (truncated_progress_reads_as_zero Examples.env_one_block
           Examples.self_fresh 100 Examples.w_fresh _
           ("{" +:+ Json.quote "current_block" +:+ ": 100")
           (", " +:+ Json.quote "timestamp" +:+ ": 1730736000.25, " +:+
            Json.quote "total_addresses" +:+ ": 0, " +:+
            Json.quote "addresses_with_balance" +:+ ": 0, " +:+
            Json.quote "current_file_index" +:+ ": 1}")).
  - by vm_compute.
  - by vm_compute.
  - by vm_compute.
Defined.

(** * Restart *)




(** * The bot's commands *)

Lemma has_content_lookup p (fs : Fs.t) :
  Bot.has_content p fs = true ↔ ∃ c, fs !! p = Some c ∧ c ≠ EmptyString.
Proof.
  unfold Bot.has_content. destruct (fs !! p) as [c|]; split.
  - intros H. exists c. split; [done|]. intros ->. done.
  - intros (c' & [= <-] & Hc). destruct c; done.
  - done.
  - by intros (c & ? & _).
Qed.

Lemma document_lookup p (fs : Fs.t) c : fs !! p = Some c → Bot.document p fs = [(p, c)].
Proof. intros H. unfold Bot.document. by rewrite H. Qed.

(** X24: the download command sends the address log of the current batch,
    and its balance log when that is not empty, as they are on disk, then
    opens the next batch; it sends nothing and opens nothing while the
    address log is missing or empty, so that giving the command again
    right after a download does nothing. *)
Theorem download_then_nothing_to_download (self : Scanner.t) (fs : Fs.t) :
  match Bot.get_files_command self fs with
  | (Bot.Downloaded documents i j, self', fs') =>
      i = current_file_index self ∧ j = i + 1 ∧ current_file_index self' = j ∧
      (∃ c, fs !! addresses_path i = Some c ∧ c ≠ EmptyString ∧
            head documents = Some (addresses_path i, c)) ∧
      (∀ p c, (p, c) ∈ documents →
         fs !! p = Some c ∧ c ≠ EmptyString ∧
         (p = addresses_path i ∨ p = balances_path i)) ∧
      fs' !! addresses_path i = fs !! addresses_path i ∧
      fs' !! balances_path i = fs !! balances_path i ∧
      Bot.get_files_command self' fs' = (Bot.NothingCollected, self', fs')
  | (Bot.NothingCollected, self', fs') =>
      self' = self ∧ fs' = fs ∧
      ∀ c, fs !! addresses_path (current_file_index self) = Some c →
           c = EmptyString
  end.
Proof.
  unfold Bot.get_files_command at 1.
  destruct (Bot.has_content (addresses_path (current_file_index self)) fs) eqn:Ea;
    cbn [negb].
  2:{ split_and!; try done. intros c Hc.
      destruct (decide (c = EmptyString)) as [|Hne]; [done|].
      assert (Bot.has_content (addresses_path (current_file_index self)) fs = true)
        by (apply has_content_lookup; eauto).
      congruence. }
  apply has_content_lookup in Ea as (c & Hc & Hne).
  rewrite (document_lookup _ _ _ Hc).
  pose proof (create_new_files_fresh self fs) as [Fa Fb]. cbv zeta in Fa, Fb.
  pose proof (create_new_files_lookup self fs) as Hl.
  unfold create_new_files in *.
  cbn [snd set_files current_file_index current_addresses_file
       current_balances_file] in *.
  split_and!; try done.
  - exists c. done.
  - intros p d.
    destruct (Bot.has_content (balances_path (current_file_index self)) fs) eqn:Eb.
    + apply has_content_lookup in Eb as (cb & Hcb & Hnb).
      rewrite (document_lookup _ _ _ Hcb). cbn [app].
      rewrite !elem_of_cons, elem_of_nil.
      intros [[= -> ->]|[[= -> ->]|[]]]; split_and!; auto.
    + cbn [app]. rewrite list_elem_of_singleton. intros [= -> ->].
      split_and!; auto.
  - apply Hl.
    + intros H%addresses_path_inj. lia.
    + apply addresses_not_balances.
  - apply Hl.
    + intros H. symmetry in H. by apply addresses_not_balances in H.
    + intros H%balances_path_inj. lia.
  - unfold Bot.get_files_command.
    change (current_file_index (set_files (current_file_index self + 1) self))
      with (current_file_index self + 1).
    unfold Bot.has_content at 1. by rewrite Fa.
Qed.

(** * A first start *)



(** * A balance payload of the wrong shape *)

(** X27: [check_balance] catches a failed request only.  When the balance
    service answers 200 with a body that [in] cannot search (a number,
    [null], a boolean) whichever address of the block is asked first, the
    exception ends the scan at the block being processed: one address of
    the block is logged and counted, nothing is saved for the block, the
    height returned is this block, and the flag is cleared. *)
Theorem malformed_balance_ends_the_scan (env : Env.t) (h end_block : Z)
  (self : Scanner.t) (w : world) (block_data data : json) (e : exn) :
  h ≤ end_block →
  Env.stop_requested env (length (events w)) = false →
  Env.block_service env (length (events w)) h = Env.Response 200 block_data →
  truthy block_data = true →
  extract_addresses_from_block block_data ≠ [] →
  (∀ a, a ∈ extract_addresses_from_block block_data →
        not_float a ∧ Fs.utf8_valid (address_line a) = true ∧
        Env.balance_service env (length (events w ++ [Env.EvFetch h])) (str a)
        = Env.Response 200 data ∧
        contains a data = Raise e) →
  ∃ a, a ∈ extract_addresses_from_block block_data ∧
    scan_blocks env h (Some end_block) self w
    = Some (Summary h (total_addresses self + 1) (addresses_with_balance self)
              (current_file_index self),
            set_running false (add_total self),
            World (<[current_addresses_file self :=
                       default EmptyString
                         (files w !! current_addresses_file self)
                       +:+ address_line a]> (files w))
                  ((events w ++ [Env.EvFetch h]) ++ [Env.EvBalance (str a)])).
Proof.
  intros Hle Hstop Hblock Htruthy Hne Hall.
  destruct (extract_addresses_from_block block_data) as [|a rest] eqn:Hext;
    [done|].
  destruct (Hall a ltac:(left)) as (_ & Hu & Hbal & Hc).
  exists a. split; [left|].
  unfold scan_blocks. cbn [default from_option id].
  destruct (Z.to_nat (end_block - h + 1)) as [|fuel] eqn:Ef; [lia|].
  cbn [scan_loop].
  assert ((h <=? end_block) = true) as -> by (by apply Z.leb_le).
  unfold running. cbn [set_running is_running]. rewrite Hstop. cbn [andb negb].
  unfold scan_step, get_block_data. rewrite Hblock.
  change (200 =? 200) with true. cbv iota. rewrite Htruthy, Hext.
  cbn [negb process_addresses].
  rewrite (process_address_no_balance env a _ _ (Raise e)); [done|done| |done].
  unfold check_balance. cbn [events files fst]. rewrite Hbal.
  change (200 =? 200) with true. cbv iota. by rewrite Hc.
Qed.

Lemma malformed_balance_ends_the_scan_witness :
  let env := Env.Make (λ _ _, Env.Response 200 (Examples.block_with "X"))
               (λ _ _, Env.Response 200 (JInt 0))
               (λ _, Examples.noon) (λ _, false) in
  ∃ a, a ∈ extract_addresses_from_block (Examples.block_with "X") ∧
    scan_blocks env 7 (Some 9) Examples.self_fresh Examples.w_fresh
    = Some (Summary 7 (total_addresses Examples.self_fresh + 1)
              (addresses_with_balance Examples.self_fresh)
              (current_file_index Examples.self_fresh),
            set_running false (add_total Examples.self_fresh),
            World (<[current_addresses_file Examples.self_fresh :=
                       default EmptyString
                         (files Examples.w_fresh
                            !! current_addresses_file Examples.self_fresh)
                       +:+ address_line a]> (files Examples.w_fresh))
                  ((events Examples.w_fresh ++ [Env.EvFetch 7])
                   ++ [Env.EvBalance (str a)])).
Proof.
  intros env.
  apply (malformed_balance_ends_the_scan env 7 9 Examples.self_fresh
           Examples.w_fresh (Examples.block_with "X") (JInt 0) TypeError).
  - lia.
  - reflexivity.
  - reflexivity.
  - reflexivity.
  - discriminate.
  - intros a Ha. change (extract_addresses_from_block (Examples.block_with "X"))
      with [SStr "X"] in Ha.
    apply list_elem_of_singleton in Ha as ->. by split_and!.
Defined.
